(** * ReferGrow compensation core: binary placement, rule lifecycle,
      purchase transaction and the Service legacy-field hook, followed by
      the routes, guards and rate limits around them.

    Shallow embedding of the TypeScript sources.  MongoDB collections are
    lists of documents in natural (insertion) order; an [ObjectId] is a
    natural number; asynchronous calls are sequenced as plain function
    application, since every handler awaits each database call before the
    next one. *)

From Stdlib Require Import String List Arith Lia Bool NArith Permutation Sorted.
Import ListNotations.

Set Implicit Arguments.

(** ** Binary placement ([lib/binaryPlacement.ts], [models/User.ts]) *)
Module Placement.

Definition ObjectId := nat.

(** [type BinaryPosition = "left" | "right"]. *)
Inductive BinaryPosition : Type := Left | Right.

Definition position_eqb (a b : BinaryPosition) : bool :=
  match a, b with
  | Left, Left | Right, Right => true
  | _, _ => false
  end.

(** The fields of [userSchema] that placement and registration read or
    write.  [parent = None] and [position = None] stand for [null]. *)
Record User : Type := mkUser {
  _id : ObjectId;
  email : string;
  referralCode : string;
  parent : option ObjectId;
  position : option BinaryPosition;
  createdAt : nat
}.

Definition Store := list User.

(** A JavaScript [Set] keeps insertion order and ignores a repeated [add]. *)
Definition setHas (x : ObjectId) (s : list ObjectId) : bool :=
  existsb (Nat.eqb x) s.

Definition setAdd (x : ObjectId) (s : list ObjectId) : list ObjectId :=
  if setHas x s then s else s ++ [x].

Definition posHas (p : BinaryPosition) (s : list BinaryPosition) : bool :=
  existsb (position_eqb p) s.

Definition posAdd (p : BinaryPosition) (s : list BinaryPosition) : list BinaryPosition :=
  if posHas p s then s else s ++ [p].

(** [pickMissingPosition]. *)
Definition pickMissingPosition (existing : list BinaryPosition) : option BinaryPosition :=
  if negb (posHas Left existing) then Some Left
  else if negb (posHas Right existing) then Some Right
  else None.

(** [.sort({ createdAt: 1 })]: a stable sort on the creation time. *)
Fixpoint insertByCreatedAt (u : User) (l : list User) : list User :=
  match l with
  | [] => [u]
  | v :: l' =>
      if createdAt u <=? createdAt v then u :: v :: l'
      else v :: insertByCreatedAt u l'
  end.

Definition sortByCreatedAt (l : list User) : list User :=
  fold_right insertByCreatedAt [] l.

Definition hasParent (p : ObjectId) (u : User) : bool :=
  match parent u with
  | Some q => q =? p
  | None => false
  end.

(** [UserModel.find({ parent: parentId }).sort({ createdAt: 1 })]. *)
Definition findChildren (store : Store) (p : ObjectId) : list User :=
  sortByCreatedAt (filter (hasParent p) store).

Definition setPosition (pos : BinaryPosition) (u : User) : User :=
  mkUser (_id u) (email u) (referralCode u) (parent u) (Some pos) (createdAt u).

(** [UserModel.updateOne({ _id: target, position: null },
                         { $set: { position: pos } })]:
    the first document matching the filter is updated, if there is one. *)
Fixpoint updateOne (store : Store) (target : ObjectId) (pos : BinaryPosition) : Store :=
  match store with
  | [] => []
  | u :: rest =>
      if (_id u =? target) && (match position u with None => true | Some _ => false end)
      then setPosition pos u :: rest
      else u :: updateOne rest target pos
  end.

(** The locals of one loop iteration: [positions], [leftChildId],
    [rightChildId], [unpositioned]. *)
Record Scan : Type := mkScan {
  positions : list BinaryPosition;
  leftChildId : option ObjectId;
  rightChildId : option ObjectId;
  unpositioned : list ObjectId
}.

Definition emptyScan : Scan := mkScan [] None None [].

(** The [for (const child of children)] loop. *)
Fixpoint scanChildren (children : list User) (acc : Scan) : Scan :=
  match children with
  | [] => acc
  | child :: rest =>
      match position child with
      | None =>
          scanChildren rest
            (mkScan (positions acc) (leftChildId acc) (rightChildId acc)
                    (unpositioned acc ++ [_id child]))
      | Some pos =>
          scanChildren rest
            (mkScan (posAdd pos (positions acc))
                    (if position_eqb pos Left then Some (_id child) else leftChildId acc)
                    (if position_eqb pos Right then Some (_id child) else rightChildId acc)
                    (unpositioned acc))
      end
  end.

(** [if (!leftChildId && unpositioned.length > 0) { ... }]. *)
Definition backfillLeft (st : Store * Scan) : Store * Scan :=
  let (store, sc) := st in
  match leftChildId sc, unpositioned sc with
  | None, target :: rest =>
      (updateOne store target Left,
       mkScan (posAdd Left (positions sc)) (Some target) (rightChildId sc) rest)
  | _, _ => st
  end.

(** [if (!rightChildId && unpositioned.length > 0) { ... }]. *)
Definition backfillRight (st : Store * Scan) : Store * Scan :=
  let (store, sc) := st in
  match rightChildId sc, unpositioned sc with
  | None, target :: rest =>
      (updateOne store target Right,
       mkScan (posAdd Right (positions sc)) (leftChildId sc) (Some target) rest)
  | _, _ => st
  end.

Definition optToList (o : option ObjectId) : list ObjectId :=
  match o with
  | Some x => [x]
  | None => []
  end.

(** What one iteration decides once the node passed the visited check. *)
Inductive NodeResult : Type :=
| Found (missing : BinaryPosition)
| Full (pushed : list ObjectId).

(** The loop body from the [find] query to the [queue.push] calls. *)
Definition backfilled (store : Store) (parentId : ObjectId) : Store * Scan :=
  backfillRight (backfillLeft (store, scanChildren (findChildren store parentId) emptyScan)).

Definition processNode (store : Store) (parentId : ObjectId) : NodeResult * Store :=
  let (store', sc) := backfilled store parentId in
  match pickMissingPosition (positions sc) with
  | Some missing => (Found missing, store')
  | None =>
      (Full (optToList (leftChildId sc) ++ optToList (rightChildId sc) ++ unpositioned sc),
       store')
  end.

Inductive PlacementError : Type :=
| ExceededSafeLimit   (* "Binary placement search exceeded safe limit" *)
| UnableToFind.       (* "Unable to find binary placement" *)

Definition errorMessage (e : PlacementError) : string :=
  match e with
  | ExceededSafeLimit => "Binary placement search exceeded safe limit"%string
  | UnableToFind => "Unable to find binary placement"%string
  end.

Inductive Outcome : Type :=
| Placed (parentId : ObjectId) (pos : BinaryPosition)
| Threw (e : PlacementError)
| OutOfFuel.

(** The state a call ends in: its outcome, the collection after the
    backfill writes, the [visited] set, and the log of [find] queries
    issued (one per node whose children were fetched). *)
Record Run : Type := mkRun {
  outcome : Outcome;
  finalStore : Store;
  visitedSet : list ObjectId;
  fetched : list ObjectId
}.

Definition MAX_VISITS : N := 200000.

(** The [while (queue.length > 0)] loop; [fuel] bounds the number of
    iterations and [maxVisits] is the visit cap. *)
Fixpoint bfs (maxVisits : N) (fuel : nat) (store : Store)
         (queue visited log : list ObjectId) : Run :=
  match fuel with
  | O => mkRun OutOfFuel store visited log
  | S fuel' =>
      match queue with
      | [] => mkRun (Threw UnableToFind) store visited log
      | parentId :: queue' =>
          if setHas parentId visited then bfs maxVisits fuel' store queue' visited log
          else
            let visited' := setAdd parentId visited in
            if (maxVisits <? N.of_nat (length visited'))%N
            then mkRun (Threw ExceededSafeLimit) store visited' log
            else
              match processNode store parentId with
              | (Found missing, store') =>
                  mkRun (Placed parentId missing) store' visited' (log ++ [parentId])
              | (Full pushed, store') =>
                  bfs maxVisits fuel' store' (queue' ++ pushed) visited' (log ++ [parentId])
              end
      end
  end.

(** Every iteration either drops a queued id or fetches the children of a
    node not seen before, and a node is pushed only as a child of a fetched
    node; [length store + 2] iterations are therefore never used up. *)
Definition placementFuel (store : Store) : nat := S (S (length store)).

Definition findBinaryPlacementWith (maxVisits : N) (store : Store) (sponsorId : ObjectId) : Run :=
  bfs maxVisits (placementFuel store) store [sponsorId] [] [].

Definition findBinaryPlacement (store : Store) (sponsorId : ObjectId) : Run :=
  findBinaryPlacementWith MAX_VISITS store sponsorId.


(** *** Facts about the collection primitives *)

Lemma setHas_true (x : ObjectId) (s : list ObjectId) : setHas x s = true <-> In x s.
Proof.
  unfold setHas. rewrite existsb_exists. split.
  - intros [y [Hy Heq]]. apply Nat.eqb_eq in Heq. now subst.
  - intros H. exists x. split; [assumption | apply Nat.eqb_refl].
Qed.

Lemma setHas_false (x : ObjectId) (s : list ObjectId) : setHas x s = false <-> ~ In x s.
Proof.
  rewrite <- setHas_true. destruct (setHas x s); split; congruence.
Qed.

Lemma setAdd_fresh (x : ObjectId) (s : list ObjectId) :
  setHas x s = false -> setAdd x s = s ++ [x].
Proof. unfold setAdd. now intros ->. Qed.

Lemma posHas_true (p : BinaryPosition) (s : list BinaryPosition) :
  posHas p s = true <-> In p s.
Proof.
  unfold posHas. rewrite existsb_exists. split.
  - intros [y [Hy Heq]]. destruct p, y; simpl in Heq; congruence.
  - intros H. exists p. split; [assumption | now destruct p].
Qed.

Lemma posHas_posAdd (p q : BinaryPosition) (s : list BinaryPosition) :
  posHas p (posAdd q s) = position_eqb p q || posHas p s.
Proof.
  unfold posAdd. destruct (posHas q s) eqn:Hq.
  - destruct (position_eqb p q) eqn:Hpq; [| reflexivity].
    assert (p = q) by (destruct p, q; simpl in Hpq; congruence). subst.
    now rewrite Hq.
  - unfold posHas. rewrite existsb_app. simpl.
    rewrite orb_false_r. apply orb_comm.
Qed.

Lemma insertByCreatedAt_perm (u : User) (l : list User) :
  Permutation (insertByCreatedAt u l) (u :: l).
Proof.
  induction l as [| v l IH]; simpl.
  - apply Permutation_refl.
  - destruct (createdAt u <=? createdAt v).
    + apply Permutation_refl.
    + eapply perm_trans; [apply perm_skip, IH | apply perm_swap].
Qed.

Lemma sortByCreatedAt_perm (l : list User) : Permutation (sortByCreatedAt l) l.
Proof.
  induction l as [| u l IH]; simpl.
  - apply Permutation_refl.
  - eapply perm_trans; [apply insertByCreatedAt_perm | now apply perm_skip].
Qed.

Lemma hasParent_true (p : ObjectId) (u : User) :
  hasParent p u = true <-> parent u = Some p.
Proof.
  unfold hasParent. destruct (parent u) as [q |].
  - rewrite Nat.eqb_eq. split; congruence.
  - split; congruence.
Qed.

Lemma In_findChildren (store : Store) (p : ObjectId) (u : User) :
  In u (findChildren store p) <-> In u store /\ parent u = Some p.
Proof.
  unfold findChildren. rewrite <- hasParent_true, <- filter_In. split.
  - apply Permutation_in, sortByCreatedAt_perm.
  - apply Permutation_in, Permutation_sym, sortByCreatedAt_perm.
Qed.

Lemma length_findChildren (store : Store) (p : ObjectId) :
  length (findChildren store p) = length (filter (hasParent p) store).
Proof. apply Permutation_length, sortByCreatedAt_perm. Qed.

(** A conditional update rewrites the [position] field only. *)
Lemma updateOne_parents (store : Store) (t : ObjectId) (pos : BinaryPosition) :
  map parent (updateOne store t pos) = map parent store.
Proof.
  induction store as [| u rest IH]; simpl; [reflexivity |].
  destruct ((_id u =? t) && _); simpl; [reflexivity | now rewrite IH].
Qed.

Lemma updateOne_ids (store : Store) (t : ObjectId) (pos : BinaryPosition) :
  map _id (updateOne store t pos) = map _id store.
Proof.
  induction store as [| u rest IH]; simpl; [reflexivity |].
  destruct ((_id u =? t) && _); simpl; [reflexivity | now rewrite IH].
Qed.

Lemma backfilled_parents (store : Store) (p : ObjectId) :
  map parent (fst (backfilled store p)) = map parent store.
Proof.
  unfold backfilled, backfillRight, backfillLeft.
  destruct (leftChildId _), (unpositioned _) as [| t rest]; simpl;
    repeat match goal with
           | |- context [match ?o with Some _ => _ | None => _ end] => destruct o; simpl
           | |- context [match ?l with [] => _ | _ :: _ => _ end] => destruct l; simpl
           end;
    rewrite ?updateOne_parents; reflexivity.
Qed.

Lemma backfilled_ids (store : Store) (p : ObjectId) :
  map _id (fst (backfilled store p)) = map _id store.
Proof.
  unfold backfilled, backfillRight, backfillLeft.
  destruct (leftChildId _), (unpositioned _) as [| t rest]; simpl;
    repeat match goal with
           | |- context [match ?o with Some _ => _ | None => _ end] => destruct o; simpl
           | |- context [match ?l with [] => _ | _ :: _ => _ end] => destruct l; simpl
           end;
    rewrite ?updateOne_ids; reflexivity.
Qed.

Lemma processNode_store (store : Store) (p : ObjectId) :
  snd (processNode store p) = fst (backfilled store p).
Proof.
  unfold processNode. destruct (backfilled store p) as [store' sc]. simpl.
  now destruct (pickMissingPosition (positions sc)).
Qed.

(** *** Termination measure *)

Definition slotCount (sc : Scan) : nat :=
  length (optToList (leftChildId sc)) + length (optToList (rightChildId sc))
  + length (unpositioned sc).

Lemma scanChildren_slotCount (children : list User) (acc : Scan) :
  slotCount (scanChildren children acc) <= slotCount acc + length children.
Proof.
  revert acc. induction children as [| c rest IH]; intros acc; simpl; [lia |].
  destruct (position c) as [pos |].
  - eapply Nat.le_trans; [apply IH |]. unfold slotCount. simpl.
    destruct pos, (leftChildId acc), (rightChildId acc); simpl; lia.
  - eapply Nat.le_trans; [apply IH |]. unfold slotCount. simpl.
    rewrite length_app. simpl. lia.
Qed.

Lemma backfillLeft_slotCount (st : Store * Scan) :
  slotCount (snd (backfillLeft st)) = slotCount (snd st).
Proof.
  destruct st as [store sc]. unfold backfillLeft.
  destruct (leftChildId sc) eqn:Hl; [reflexivity |].
  destruct (unpositioned sc) eqn:Hu; [reflexivity |].
  unfold slotCount. simpl. rewrite Hl, Hu. simpl. lia.
Qed.

Lemma backfillRight_slotCount (st : Store * Scan) :
  slotCount (snd (backfillRight st)) = slotCount (snd st).
Proof.
  destruct st as [store sc]. unfold backfillRight.
  destruct (rightChildId sc) eqn:Hr; [reflexivity |].
  destruct (unpositioned sc) eqn:Hu; [reflexivity |].
  unfold slotCount. simpl. rewrite Hr, Hu. simpl. lia.
Qed.

Lemma processNode_pushed_length (store store' : Store) (p : ObjectId) (pushed : list ObjectId) :
  processNode store p = (Full pushed, store') ->
  length pushed <= length (filter (hasParent p) store).
Proof.
  intros Heq.
  assert (Hc : slotCount (snd (backfilled store p)) <= length (filter (hasParent p) store)).
  { unfold backfilled. rewrite backfillRight_slotCount, backfillLeft_slotCount.
    eapply Nat.le_trans; [apply scanChildren_slotCount |].
    rewrite length_findChildren. unfold slotCount, emptyScan. simpl. lia. }
  unfold processNode in Heq. destruct (backfilled store p) as [st sc].
  cbn [snd] in Hc.
  destruct (pickMissingPosition (positions sc)); [discriminate |].
  injection Heq as <- <-. rewrite !length_app. unfold slotCount in Hc. lia.
Qed.

(** Documents whose parent has not been visited yet: each of them can
    still be pushed once. *)
Definition pendingParent (visited : list ObjectId) (o : option ObjectId) : bool :=
  match o with
  | Some q => negb (setHas q visited)
  | None => false
  end.

Definition isParent (p : ObjectId) (o : option ObjectId) : bool :=
  match o with
  | Some q => q =? p
  | None => false
  end.

Definition measure (store : Store) (queue visited : list ObjectId) : nat :=
  length queue + length (filter (pendingParent visited) (map parent store)).

Lemma filter_hasParent_parents (store : Store) (p : ObjectId) :
  length (filter (hasParent p) store) = length (filter (isParent p) (map parent store)).
Proof.
  induction store as [| u rest IH]; simpl; [reflexivity |].
  unfold hasParent at 1, isParent at 1.
  destruct (parent u) as [q |]; simpl; [destruct (q =? p); simpl |]; lia.
Qed.

Lemma setHas_snoc (q p : ObjectId) (visited : list ObjectId) :
  setHas q (visited ++ [p]) = setHas q visited || (q =? p).
Proof. unfold setHas. rewrite existsb_app. simpl. now rewrite orb_false_r. Qed.

Lemma pending_split (ps : list (option ObjectId)) (p : ObjectId) (visited : list ObjectId) :
  setHas p visited = false ->
  length (filter (pendingParent (visited ++ [p])) ps) + length (filter (isParent p) ps)
  = length (filter (pendingParent visited) ps).
Proof.
  intros Hp. induction ps as [| o ps IH]; [reflexivity |].
  destruct o as [q |]; cbn [filter pendingParent isParent]; [| exact IH].
  rewrite setHas_snoc. destruct (q =? p) eqn:Hqp.
  - apply Nat.eqb_eq in Hqp. subst q. rewrite Hp, orb_true_r. cbn [negb length]. lia.
  - rewrite orb_false_r. destruct (setHas q visited); cbn [negb length]; lia.
Qed.

Lemma bfs_fuel_enough (maxVisits : N) (fuel : nat) :
  forall store queue visited log,
    measure store queue visited < fuel ->
    outcome (bfs maxVisits fuel store queue visited log) <> OutOfFuel.
Proof.
  induction fuel as [| fuel IH]; intros store queue visited log Hm; [lia |].
  simpl. destruct queue as [| p queue]; [simpl; discriminate |].
  destruct (setHas p visited) eqn:Hv.
  - apply IH. unfold measure in *. simpl in Hm. lia.
  - rewrite (setAdd_fresh _ _ Hv).
    destruct (_ <? _)%N; [simpl; discriminate |].
    destruct (processNode store p) as [[missing | pushed] store'] eqn:Hp;
      [simpl; discriminate |].
    apply IH. unfold measure in *.
    pose proof (processNode_pushed_length _ _ Hp) as Hlen.
    pose proof (processNode_store store p) as Hst. rewrite Hp in Hst. simpl in Hst.
    rewrite Hst, backfilled_parents.
    pose proof (pending_split (map parent store) p visited Hv) as Hsplit.
    rewrite filter_hasParent_parents in Hlen.
    rewrite length_app. simpl in Hm. lia.
Qed.

Lemma measure_initial (store : Store) (sponsorId : ObjectId) :
  measure store [sponsorId] [] < placementFuel store.
Proof.
  unfold measure, placementFuel. simpl.
  pose proof (filter_length_le (pendingParent []) (map parent store)) as H.
  rewrite length_map in H. lia.
Qed.

Lemma bfs_fuel_mono (maxVisits : N) (fuel : nat) :
  forall store queue visited log fuel',
    outcome (bfs maxVisits fuel store queue visited log) <> OutOfFuel ->
    fuel <= fuel' ->
    bfs maxVisits fuel' store queue visited log = bfs maxVisits fuel store queue visited log.
Proof.
  induction fuel as [| fuel IH]; intros store queue visited log fuel' Hout Hle.
  - simpl in Hout. congruence.
  - destruct fuel' as [| fuel']; [lia |]. simpl in *.
    destruct queue as [| p queue]; [reflexivity |].
    destruct (setHas p visited).
    + apply IH; [assumption | lia].
    + destruct (_ <? _)%N; [reflexivity |].
      destruct (processNode store p) as [[missing | pushed] store']; [reflexivity |].
      apply IH; [assumption | lia].
Qed.

Lemma bfs_fetched_nodup (maxVisits : N) (fuel : nat) :
  forall store queue visited log,
    NoDup log -> incl log visited ->
    NoDup (fetched (bfs maxVisits fuel store queue visited log)).
Proof.
  induction fuel as [| fuel IH]; intros store queue visited log Hnd Hincl; [exact Hnd |].
  simpl. destruct queue as [| p queue]; [exact Hnd |].
  destruct (setHas p visited) eqn:Hv; [now apply IH |].
  rewrite (setAdd_fresh _ _ Hv).
  assert (Hnd' : NoDup (log ++ [p])).
  { apply NoDup_app; [assumption | repeat constructor; simpl; tauto |].
    intros x Hx [-> | []]. apply setHas_false in Hv. auto. }
  assert (Hincl' : incl (log ++ [p]) (visited ++ [p])).
  { intros x Hx. apply in_app_or in Hx. apply in_or_app. destruct Hx; auto. }
  destruct (_ <? _)%N; [exact Hnd |].
  destruct (processNode store p) as [[missing | pushed] store']; [exact Hnd' |].
  now apply IH.
Qed.

(** *** What the scan of the children computes *)

Definition isPos (pos : BinaryPosition) (u : User) : bool :=
  match position u with
  | Some q => position_eqb q pos
  | None => false
  end.

Definition isUnpositioned (u : User) : bool :=
  match position u with
  | None => true
  | Some _ => false
  end.

Definition childIdAt (pos : BinaryPosition) (sc : Scan) : option ObjectId :=
  match pos with
  | Left => leftChildId sc
  | Right => rightChildId sc
  end.

(** The ids the code pushes when the node is full. *)
Definition pushList (sc : Scan) : list ObjectId :=
  optToList (leftChildId sc) ++ optToList (rightChildId sc) ++ unpositioned sc.

(** [positions] holds a side exactly when that side's child id is set. *)
Definition consistent (sc : Scan) : Prop :=
  forall pos, posHas pos (positions sc) =
              match childIdAt pos sc with Some _ => true | None => false end.

Lemma isPos_true (pos : BinaryPosition) (u : User) :
  isPos pos u = true <-> position u = Some pos.
Proof.
  unfold isPos. destruct (position u) as [q |]; [| split; congruence].
  destruct q, pos; simpl; split; congruence.
Qed.

Lemma scan_unpositioned (cs : list User) (acc : Scan) :
  unpositioned (scanChildren cs acc)
  = unpositioned acc ++ map _id (filter isUnpositioned cs).
Proof.
  revert acc. induction cs as [| c cs IH]; intros acc; simpl.
  - now rewrite app_nil_r.
  - unfold isUnpositioned at 1. destruct (position c); rewrite IH; simpl.
    + reflexivity.
    + now rewrite <- app_assoc.
Qed.

Lemma scan_childId_none (pos : BinaryPosition) (cs : list User) (acc : Scan) :
  childIdAt pos (scanChildren cs acc) = None <->
  childIdAt pos acc = None /\ existsb (isPos pos) cs = false.
Proof.
  revert acc. induction cs as [| c cs IH]; intros acc; simpl.
  - tauto.
  - unfold isPos at 1. destruct (position c) as [q |]; rewrite IH; simpl.
    + destruct pos, q; simpl; intuition congruence.
    + destruct pos; simpl; tauto.
Qed.

Lemma scan_childId_in (pos : BinaryPosition) (cs : list User) (acc : Scan) (l : ObjectId) :
  childIdAt pos (scanChildren cs acc) = Some l ->
  childIdAt pos acc = Some l \/
  exists c, In c cs /\ _id c = l /\ position c = Some pos.
Proof.
  revert acc. induction cs as [| c cs IH]; intros acc; simpl; [tauto |].
  destruct (position c) as [q |] eqn:Hq; intros H; apply IH in H.
  - destruct H as [H | [c' [Hin Hc']]]; [| right; exists c'; tauto].
    destruct pos, q; simpl in H; try tauto;
      right; exists c; (split; [now left |]); split; congruence.
  - destruct H as [H | [c' [Hin Hc']]]; [| right; exists c'; tauto].
    left. destruct pos; exact H.
Qed.

Lemma scan_consistent (cs : list User) (acc : Scan) :
  consistent acc -> consistent (scanChildren cs acc).
Proof.
  revert acc. induction cs as [| c cs IH]; intros acc Hc; simpl; [exact Hc |].
  destruct (position c) as [q |]; apply IH; intros pos; simpl.
  - rewrite posHas_posAdd, Hc. destruct pos, q; simpl;
      try reflexivity; now destruct (childIdAt _ acc).
  - rewrite Hc. now destruct pos.
Qed.

Lemma emptyScan_consistent : consistent emptyScan.
Proof. intros []; reflexivity. Qed.

Lemma backfillLeft_consistent (st : Store * Scan) :
  consistent (snd st) -> consistent (snd (backfillLeft st)).
Proof.
  destruct st as [store sc]. unfold backfillLeft. simpl. intros Hc.
  destruct (leftChildId sc) eqn:Hl; [exact Hc |].
  destruct (unpositioned sc); [exact Hc |].
  intros pos. simpl. rewrite posHas_posAdd, Hc. now destruct pos.
Qed.

Lemma backfillRight_consistent (st : Store * Scan) :
  consistent (snd st) -> consistent (snd (backfillRight st)).
Proof.
  destruct st as [store sc]. unfold backfillRight. simpl. intros Hc.
  destruct (rightChildId sc) eqn:Hr; [exact Hc |].
  destruct (unpositioned sc); [exact Hc |].
  intros pos. simpl. rewrite posHas_posAdd, Hc. now destruct pos.
Qed.

Lemma backfilled_consistent (store : Store) (p : ObjectId) :
  consistent (snd (backfilled store p)).
Proof.
  unfold backfilled.
  apply backfillRight_consistent, backfillLeft_consistent. simpl.
  apply scan_consistent, emptyScan_consistent.
Qed.

Lemma pick_none_iff (sc : Scan) :
  consistent sc ->
  (pickMissingPosition (positions sc) = None <->
   exists l r, leftChildId sc = Some l /\ rightChildId sc = Some r).
Proof.
  intros Hc. unfold pickMissingPosition.
  rewrite (Hc Left), (Hc Right). simpl.
  destruct (leftChildId sc) as [l |], (rightChildId sc) as [r |]; simpl;
    split; try discriminate; try (intros [l' [r' [H1 H2]]]; discriminate);
    try reflexivity.
  intros _. eauto.
Qed.

Lemma pick_some_iff (sc : Scan) (pos : BinaryPosition) :
  consistent sc ->
  (pickMissingPosition (positions sc) = Some pos <->
   childIdAt pos sc = None /\ (pos = Right -> leftChildId sc <> None)).
Proof.
  intros Hc. unfold pickMissingPosition.
  rewrite (Hc Left), (Hc Right). simpl.
  destruct pos; cbn [childIdAt];
    destruct (leftChildId sc) as [l |], (rightChildId sc) as [r |]; simpl;
    intuition congruence.
Qed.

Lemma scan_pushList_incl (cs : list User) (acc : Scan) :
  incl (pushList (scanChildren cs acc)) (pushList acc ++ map _id cs).
Proof.
  revert acc. induction cs as [| c cs IH]; intros acc; simpl.
  - rewrite app_nil_r. apply incl_refl.
  - intros x Hx. destruct (position c) as [q |]; apply IH in Hx;
      unfold pushList in *; simpl in Hx;
      repeat rewrite in_app_iff in *; simpl in *; repeat rewrite in_app_iff in *.
    + destruct q; simpl in Hx; intuition.
    + simpl in Hx. intuition.
Qed.

Lemma NoDup_drop_opt (o : option ObjectId) (l : list ObjectId) :
  NoDup (optToList o ++ l) -> NoDup l.
Proof. destruct o; simpl; [now inversion 1 | trivial]. Qed.

Lemma scan_pushList_nodup (cs : list User) (acc : Scan) :
  NoDup (pushList acc ++ map _id cs) -> NoDup (pushList (scanChildren cs acc)).
Proof.
  revert acc. induction cs as [| c cs IH]; intros acc; simpl.
  - now rewrite app_nil_r.
  - intros H. destruct (position c) as [q |]; apply IH; unfold pushList in *; simpl.
    + destruct q; simpl.
      * rewrite <- app_assoc in H. apply NoDup_drop_opt in H.
        rewrite <- app_assoc in H.
        eapply Permutation_NoDup; [| exact H].
        rewrite !app_assoc. apply Permutation_sym.
        rewrite <- !app_assoc.
        change (_id c :: optToList (rightChildId acc) ++ unpositioned acc ++ map _id cs)
          with (_id c :: (optToList (rightChildId acc) ++ unpositioned acc ++ map _id cs)).
        rewrite (app_assoc (optToList (rightChildId acc))).
        rewrite (app_assoc (optToList (rightChildId acc))).
        apply Permutation_middle.
      * assert (H' : NoDup (optToList (leftChildId acc) ++ unpositioned acc ++ _id c :: map _id cs)).
        { rewrite <- !app_assoc in H.
          destruct (rightChildId acc); simpl in H; [| exact H].
          now apply NoDup_remove_1 in H. }
        rewrite <- app_assoc. simpl.
        eapply Permutation_NoDup; [| exact H'].
        apply Permutation_app_head. apply Permutation_sym, Permutation_middle.
    + rewrite <- !app_assoc in *. simpl. exact H.
Qed.

Lemma scan_pushList_complete (cs : list User) (acc : Scan) :
  (forall pos, length (filter (isPos pos) cs)
               + length (optToList (childIdAt pos acc)) <= 1) ->
  incl (pushList acc ++ map _id cs) (pushList (scanChildren cs acc)).
Proof.
  revert acc. induction cs as [| c cs IH]; intros acc Hone; simpl.
  - rewrite app_nil_r. apply incl_refl.
  - destruct (position c) as [q |] eqn:Hq.
    + assert (Hnone : childIdAt q acc = None).
      { specialize (Hone q). simpl in Hone. unfold isPos at 1 in Hone.
        rewrite Hq in Hone. replace (position_eqb q q) with true in Hone by now destruct q.
        simpl in Hone. destruct (childIdAt q acc); [simpl in Hone; lia | reflexivity]. }
      intros x Hx. apply IH.
      * intros pos. specialize (Hone pos). simpl in Hone. unfold isPos at 1 in Hone.
        rewrite Hq in Hone.
        destruct q, pos; simpl in *; rewrite ?Hnone in *; simpl in *; lia.
      * unfold pushList in *. simpl.
        repeat rewrite in_app_iff in *. simpl in *.
        destruct q; simpl in *; rewrite Hnone in *; simpl in *; intuition.
    + intros x Hx. apply IH.
      * intros pos. specialize (Hone pos). simpl in Hone. unfold isPos at 1 in Hone.
        rewrite Hq in Hone. destruct pos; simpl in *; lia.
      * unfold pushList in *. simpl.
        repeat rewrite in_app_iff in *. simpl in *. repeat rewrite in_app_iff in *.
        simpl. intuition.
Qed.

Lemma backfillLeft_pushList (st : Store * Scan) :
  Permutation (pushList (snd (backfillLeft st))) (pushList (snd st)).
Proof.
  destruct st as [store sc]. unfold backfillLeft. simpl.
  destruct (leftChildId sc) eqn:Hl; [apply Permutation_refl |].
  destruct (unpositioned sc) eqn:Hu; [apply Permutation_refl |].
  unfold pushList. simpl. rewrite Hl, Hu. simpl. apply Permutation_middle.
Qed.

Lemma backfillRight_pushList (st : Store * Scan) :
  Permutation (pushList (snd (backfillRight st))) (pushList (snd st)).
Proof.
  destruct st as [store sc]. unfold backfillRight. simpl.
  destruct (rightChildId sc) eqn:Hr; [apply Permutation_refl |].
  destruct (unpositioned sc) eqn:Hu; [apply Permutation_refl |].
  unfold pushList. simpl. rewrite Hr, Hu. simpl.
  apply Permutation_refl.
Qed.

Lemma backfilled_pushList (store : Store) (p : ObjectId) :
  Permutation (pushList (snd (backfilled store p)))
              (pushList (scanChildren (findChildren store p) emptyScan)).
Proof.
  unfold backfilled.
  eapply perm_trans; [apply backfillRight_pushList |].
  apply (backfillLeft_pushList (store, _)).
Qed.

Lemma processNode_full (store store' : Store) (p : ObjectId) (pushed : list ObjectId) :
  processNode store p = (Full pushed, store') ->
  pushed = pushList (snd (backfilled store p)) /\
  exists l r, leftChildId (snd (backfilled store p)) = Some l /\
              rightChildId (snd (backfilled store p)) = Some r.
Proof.
  unfold processNode. pose proof (backfilled_consistent store p) as Hc.
  destruct (backfilled store p) as [st sc]. simpl in *.
  destruct (pickMissingPosition (positions sc)) eqn:Hpick; [discriminate |].
  intros Heq. injection Heq as <- <-. split; [reflexivity |].
  now apply pick_none_iff.
Qed.

Lemma processNode_found (store store' : Store) (p : ObjectId) (pos : BinaryPosition) :
  processNode store p = (Found pos, store') ->
  pickMissingPosition (positions (snd (backfilled store p))) = Some pos.
Proof.
  unfold processNode. destruct (backfilled store p) as [st sc]. simpl.
  destruct (pickMissingPosition (positions sc)); [| discriminate].
  intros Heq. now injection Heq as <- <-.
Qed.

(** *** Parent links *)

(** The [(_id, parent)] pair of a document; no write of the placement
    search changes it. *)
Definition idParent (u : User) : ObjectId * option ObjectId := (_id u, parent u).

(** [x] is the id of a document whose [parent] is [p]. *)
Definition isChild (store : Store) (p x : ObjectId) : Prop :=
  In (x, Some p) (map idParent store).

Lemma updateOne_idParent (store : Store) (t : ObjectId) (pos : BinaryPosition) :
  map idParent (updateOne store t pos) = map idParent store.
Proof.
  induction store as [| u rest IH]; simpl; [reflexivity |].
  destruct ((_id u =? t) && _); simpl; [reflexivity | now rewrite IH].
Qed.

Lemma backfilled_idParent (store : Store) (p : ObjectId) :
  map idParent (fst (backfilled store p)) = map idParent store.
Proof.
  unfold backfilled, backfillRight, backfillLeft.
  destruct (leftChildId _), (unpositioned _) as [| t rest]; simpl;
    repeat match goal with
           | |- context [match ?o with Some _ => _ | None => _ end] => destruct o; simpl
           | |- context [match ?l with [] => _ | _ :: _ => _ end] => destruct l; simpl
           end;
    rewrite ?updateOne_idParent; reflexivity.
Qed.

Lemma processNode_idParent (store : Store) (p : ObjectId) :
  map idParent (snd (processNode store p)) = map idParent store.
Proof. rewrite processNode_store. apply backfilled_idParent. Qed.

Lemma map_fst_idParent (store : Store) : map fst (map idParent store) = map _id store.
Proof. rewrite map_map. reflexivity. Qed.

Lemma isChild_iff (store : Store) (p x : ObjectId) :
  isChild store p x <-> exists u, In u store /\ _id u = x /\ parent u = Some p.
Proof.
  unfold isChild. rewrite in_map_iff. split.
  - intros [u [Hu Hin]]. exists u. unfold idParent in Hu.
    injection Hu as H1 H2. tauto.
  - intros [u [Hin [H1 H2]]]. exists u. unfold idParent. now rewrite H1, H2.
Qed.

Lemma In_findChildren_ids (store : Store) (p x : ObjectId) :
  In x (map _id (findChildren store p)) <-> isChild store p x.
Proof.
  rewrite isChild_iff, in_map_iff. split.
  - intros [u [Hu Hin]]. apply In_findChildren in Hin. exists u. tauto.
  - intros [u [Hin [Hu Hp]]]. exists u. split; [assumption |].
    apply In_findChildren. tauto.
Qed.

Lemma NoDup_map_filter (A B : Type) (f : A -> B) (P : A -> bool) (l : list A) :
  NoDup (map f l) -> NoDup (map f (filter P l)).
Proof.
  induction l as [| a l IH]; simpl; [trivial |].
  intros H. inversion H as [| ? ? Hnotin Hnd]; subst.
  destruct (P a); simpl; [| now apply IH].
  constructor; [| now apply IH].
  intros Hin. apply Hnotin. apply in_map_iff in Hin.
  destruct Hin as [b [Hb Hin]]. apply filter_In in Hin.
  apply in_map_iff. exists b. tauto.
Qed.

Lemma findChildren_ids_nodup (store : Store) (p : ObjectId) :
  NoDup (map _id store) -> NoDup (map _id (findChildren store p)).
Proof.
  intros H. unfold findChildren.
  eapply Permutation_NoDup.
  - apply Permutation_map, Permutation_sym, sortByCreatedAt_perm.
  - now apply NoDup_map_filter.
Qed.

Lemma idParent_functional (ips : list (ObjectId * option ObjectId))
      (x : ObjectId) (a b : option ObjectId) :
  NoDup (map fst ips) -> In (x, a) ips -> In (x, b) ips -> a = b.
Proof.
  induction ips as [| [y o] ips IH]; simpl; [tauto |].
  intros Hnd Ha Hb. inversion Hnd as [| ? ? Hnotin Hnd']; subst.
  destruct Ha as [Ha | Ha], Hb as [Hb | Hb].
  - congruence.
  - injection Ha as -> ->. exfalso. apply Hnotin.
    apply in_map_iff. now exists (x, b).
  - injection Hb as -> ->. exfalso. apply Hnotin.
    apply in_map_iff. now exists (x, a).
  - now apply IH.
Qed.

(** A full node pushes distinct ids of its own children, at least two. *)
Lemma processNode_full_children (store store' : Store) (p : ObjectId)
      (pushed : list ObjectId) :
  NoDup (map _id store) ->
  processNode store p = (Full pushed, store') ->
  NoDup pushed /\
  (forall x, In x pushed -> isChild store p x) /\
  exists l r, l <> r /\ In l pushed /\ In r pushed.
Proof.
  intros Hnd Hp. apply processNode_full in Hp. destruct Hp as [-> [l [r [Hl Hr]]]].
  pose proof (backfilled_pushList store p) as Hperm.
  assert (Hnd' : NoDup (pushList (snd (backfilled store p)))).
  { eapply Permutation_NoDup; [apply Permutation_sym, Hperm |].
    apply scan_pushList_nodup. simpl. now apply findChildren_ids_nodup. }
  split; [exact Hnd' |]. split.
  - intros x Hx. apply In_findChildren_ids.
    eapply Permutation_in in Hx; [| exact Hperm].
    apply scan_pushList_incl in Hx. exact Hx.
  - exists l, r. unfold pushList in *. rewrite Hl, Hr in *. simpl in *.
    inversion Hnd' as [| ? ? Hnotin _]; subst. simpl in Hnotin.
    repeat split; [intros -> | |]; tauto.
Qed.

(** *** A finite set of nodes cannot hold two children for each member *)

Definition parentOf (ips : list (ObjectId * option ObjectId)) (x : ObjectId)
  : option ObjectId :=
  match find (fun ip => fst ip =? x) ips with
  | Some ip => snd ip
  | None => None
  end.

Definition childCount (ips : list (ObjectId * option ObjectId))
           (W : list ObjectId) (v : ObjectId) : nat :=
  length (filter (fun x => isParent v (parentOf ips x)) W).

Lemma parentOf_In (ips : list (ObjectId * option ObjectId)) (x : ObjectId)
      (o : option ObjectId) :
  NoDup (map fst ips) -> In (x, o) ips -> parentOf ips x = o.
Proof.
  unfold parentOf. induction ips as [| [y o'] ips IH]; simpl; [tauto |].
  intros Hnd Hin. inversion Hnd as [| ? ? Hnotin Hnd']; subst.
  destruct (y =? x) eqn:Hyx.
  - apply Nat.eqb_eq in Hyx. subst y. simpl.
    destruct Hin as [Hin | Hin]; [congruence |].
    exfalso. apply Hnotin. apply in_map_iff. now exists (x, o).
  - destruct Hin as [Hin | Hin]; [| now apply IH].
    injection Hin as -> ->. now rewrite Nat.eqb_refl in Hyx.
Qed.

Lemma hits_zero (V : list ObjectId) (o : option ObjectId) :
  (forall q, o = Some q -> ~ In q V) ->
  list_sum (map (fun v => if isParent v o then 1 else 0) V) = 0.
Proof.
  intros H. induction V as [| v V IH]; simpl; [reflexivity |].
  rewrite IH by (intros q Hq Hin; apply (H q Hq); now right).
  destruct o as [q |]; simpl; [| reflexivity].
  destruct (q =? v) eqn:Hqv; [| reflexivity].
  apply Nat.eqb_eq in Hqv. subst. exfalso. apply (H v eq_refl). now left.
Qed.

Lemma hits_le_one (V : list ObjectId) (o : option ObjectId) :
  NoDup V -> list_sum (map (fun v => if isParent v o then 1 else 0) V) <= 1.
Proof.
  induction V as [| v V IH]; simpl; [lia |].
  intros Hnd. inversion Hnd as [| ? ? Hnotin Hnd']; subst.
  destruct (isParent v o) eqn:Hv; [| now apply IH].
  rewrite hits_zero; [lia |].
  intros q -> Hin. simpl in Hv. apply Nat.eqb_eq in Hv. now subst.
Qed.

Lemma list_sum_map_add (A : Type) (f g : A -> nat) (l : list A) :
  list_sum (map (fun a => f a + g a) l) = list_sum (map f l) + list_sum (map g l).
Proof. induction l as [| a l IH]; simpl; [reflexivity | rewrite IH; lia]. Qed.

Lemma childCount_sum (ips : list (ObjectId * option ObjectId)) (V W : list ObjectId) :
  NoDup V -> list_sum (map (childCount ips W) V) <= length W.
Proof.
  intros Hnd. induction W as [| x W IH].
  - unfold childCount. simpl. clear Hnd. induction V; simpl; lia.
  - replace (map (childCount ips (x :: W)) V)
      with (map (fun v => (if isParent v (parentOf ips x) then 1 else 0)
                          + childCount ips W v) V).
    + rewrite list_sum_map_add.
      pose proof (hits_le_one (parentOf ips x) Hnd). simpl. lia.
    + apply map_ext. intros v. unfold childCount. simpl.
      now destruct (isParent v (parentOf ips x)).
Qed.

Lemma two_le_length (A : Type) (a b : A) (l : list A) :
  In a l -> In b l -> a <> b -> 2 <= length l.
Proof.
  destruct l as [| x [| y l]]; simpl; try tauto; try lia.
  intros [-> | []] [-> | []]. congruence.
Qed.

Lemma list_sum_lower (V : list ObjectId) (f : ObjectId -> nat) :
  (forall v, In v V -> 2 <= f v) -> 2 * length V <= list_sum (map f V).
Proof.
  induction V as [| v V IH]; intros H; simpl; [lia |].
  pose proof (H v (or_introl eq_refl)).
  assert (2 * length V <= list_sum (map f V)) by (apply IH; intros; apply H; now right).
  lia.
Qed.

Lemma closed_family_empty (ips : list (ObjectId * option ObjectId)) (V : list ObjectId) :
  NoDup (map fst ips) -> NoDup V ->
  (forall v, In v V ->
     exists l r, l <> r /\ In (l, Some v) ips /\ In (r, Some v) ips /\ In l V /\ In r V) ->
  V = [].
Proof.
  intros Hips HV Hclosed.
  assert (Hlow : 2 * length V <= list_sum (map (childCount ips V) V)).
  { apply list_sum_lower. intros v Hv.
    destruct (Hclosed v Hv) as [l [r [Hlr [Hl [Hr [HlV HrV]]]]]].
    unfold childCount. apply two_le_length with (a := l) (b := r); [| | assumption];
      apply filter_In; (split; [assumption |]).
    - rewrite (parentOf_In ips l (Some v) Hips Hl). simpl. apply Nat.eqb_refl.
    - rewrite (parentOf_In ips r (Some v) Hips Hr). simpl. apply Nat.eqb_refl. }
  pose proof (childCount_sum ips V HV) as Hup.
  destruct V; [reflexivity | simpl in *; lia].
Qed.

(** *** The search never runs out of queue *)

(** Every visited node has two distinct children that are visited or
    queued. *)
Definition twoChildrenAhead (store : Store) (queue visited : list ObjectId) : Prop :=
  forall v, In v visited ->
    exists l r, l <> r /\ isChild store v l /\ isChild store v r /\
                In l (visited ++ queue) /\ In r (visited ++ queue).

Lemma bfs_never_unable (maxVisits : N) (fuel : nat) :
  forall store queue visited log,
    NoDup (map _id store) ->
    NoDup visited ->
    twoChildrenAhead store queue visited ->
    (visited = [] -> queue <> []) ->
    outcome (bfs maxVisits fuel store queue visited log) <> Threw UnableToFind.
Proof.
  induction fuel as [| fuel IH]; intros store queue visited log Hids Hnd Hinv Hne;
    [simpl; discriminate |].
  simpl. destruct queue as [| p queue].
  - exfalso. apply Hne; [| reflexivity].
    apply closed_family_empty with (ips := map idParent store);
      [now rewrite map_fst_idParent | assumption |].
    intros v Hv. destruct (Hinv v Hv) as [l [r H]]. rewrite app_nil_r in H.
    exists l, r. exact H.
  - destruct (setHas p visited) eqn:Hv.
    + apply setHas_true in Hv. apply IH; try assumption.
      * intros v Hin. destruct (Hinv v Hin) as [l [r [Hlr [Hl [Hr [HlV HrV]]]]]].
        exists l, r. repeat split; try assumption.
        -- apply in_app_or in HlV. apply in_or_app.
           destruct HlV as [| [<- |]]; auto.
        -- apply in_app_or in HrV. apply in_or_app.
           destruct HrV as [| [<- |]]; auto.
      * intros ->. destruct Hv.
    + rewrite (setAdd_fresh _ _ Hv).
      destruct (_ <? _)%N; [simpl; discriminate |].
      destruct (processNode store p) as [[missing | pushed] store'] eqn:Hp;
        [simpl; discriminate |].
      pose proof (processNode_idParent store p) as Hip. rewrite Hp in Hip. simpl in Hip.
      destruct (processNode_full_children store p Hids Hp) as [_ [Hch [l [r [Hlr [Hl Hr]]]]]].
      apply IH.
      * rewrite <- map_fst_idParent, Hip, map_fst_idParent. exact Hids.
      * apply NoDup_app; [assumption | repeat constructor; simpl; tauto |].
        intros x Hx [-> | []]. apply setHas_false in Hv. auto.
      * intros v Hin. unfold isChild. rewrite Hip. fold (isChild store v).
        apply in_app_or in Hin. destruct Hin as [Hin | [<- | []]].
        -- destruct (Hinv v Hin) as [l' [r' [Hlr' [Hl' [Hr' [HlV HrV]]]]]].
           exists l', r'. fold (isChild store v l') (isChild store v r').
           repeat split; try assumption.
           ++ apply in_app_or in HlV. rewrite !in_app_iff. simpl in *. intuition.
           ++ apply in_app_or in HrV. rewrite !in_app_iff. simpl in *. intuition.
        -- exists l, r. fold (isChild store p l) (isChild store p r).
           repeat split; auto; rewrite !in_app_iff; auto.
      * intros Habs. now destruct visited.
Qed.

(** *** The unique partial index on [(parent, position)] ([models/User.ts])

    [partialFilterExpression]: only documents whose [parent] is an ObjectId
    and whose [position] is ["left"] or ["right"] carry an index key. *)

Definition indexKey (u : User) : list (ObjectId * BinaryPosition) :=
  match parent u, position u with
  | Some p, Some pos => [(p, pos)]
  | _, _ => []
  end.

Definition indexKeys (store : Store) : list (ObjectId * BinaryPosition) :=
  flat_map indexKey store.

Definition uniqueIndexOk (store : Store) : Prop := NoDup (indexKeys store).

Lemma In_indexKeys (store : Store) (p : ObjectId) (pos : BinaryPosition) :
  In (p, pos) (indexKeys store) <->
  exists u, In u store /\ parent u = Some p /\ position u = Some pos.
Proof.
  unfold indexKeys. rewrite in_flat_map. split.
  - intros [u [Hin Hk]]. exists u. split; [assumption |].
    unfold indexKey in Hk. destruct (parent u), (position u); simpl in Hk; try tauto.
    destruct Hk as [Hk | []]. injection Hk as -> ->. tauto.
  - intros [u [Hin [Hp Hpos]]]. exists u. split; [assumption |].
    unfold indexKey. rewrite Hp, Hpos. now left.
Qed.

Lemma index_count (store : Store) (p : ObjectId) (pos : BinaryPosition) :
  uniqueIndexOk store ->
  length (filter (isPos pos) (filter (hasParent p) store)) <= 1.
Proof.
  unfold uniqueIndexOk. induction store as [| u rest IH]; simpl; [lia |].
  intros Hnd. apply NoDup_app_remove_l in Hnd as Hrest.
  destruct (hasParent p u) eqn:Hp; [| now apply IH]. simpl.
  destruct (isPos pos u) eqn:Hpos; [| now apply IH]. simpl.
  apply hasParent_true in Hp. apply isPos_true in Hpos.
  assert (Hnone : filter (isPos pos) (filter (hasParent p) rest) = []).
  { destruct (filter (isPos pos) (filter (hasParent p) rest)) as [| v l] eqn:Hf;
      [reflexivity |].
    assert (Hv : In v (filter (isPos pos) (filter (hasParent p) rest)))
      by (rewrite Hf; now left).
    rewrite !filter_In in Hv. destruct Hv as [[Hin Hvp] Hvpos].
    apply hasParent_true in Hvp. apply isPos_true in Hvpos.
    unfold indexKey in Hnd. rewrite Hp, Hpos in Hnd. simpl in Hnd.
    inversion Hnd as [| ? ? Hnotin _]; subst. exfalso. apply Hnotin.
    apply In_indexKeys. exists v. tauto. }
  rewrite Hnone. simpl. lia.
Qed.

Lemma Permutation_filter (A : Type) (f : A -> bool) (l l' : list A) :
  Permutation l l' -> Permutation (filter f l) (filter f l').
Proof.
  induction 1 as [| x l l' _ IH | x y l | l l' l'' _ IH1 _ IH2]; simpl.
  - constructor.
  - destruct (f x); [now constructor | assumption].
  - destruct (f x), (f y); try apply Permutation_refl. apply perm_swap.
  - eapply perm_trans; eassumption.
Qed.

Lemma children_one_per_side (store : Store) (p : ObjectId) (pos : BinaryPosition) :
  uniqueIndexOk store ->
  length (filter (isPos pos) (findChildren store p)) <= 1.
Proof.
  intros H. unfold findChildren.
  rewrite (Permutation_length
             (Permutation_filter (isPos pos) (sortByCreatedAt_perm _))).
  now apply index_count.
Qed.

(** *** One iteration, seen from the other nodes *)

Lemma backfillLeft_scan (s1 s2 : Store) (sc : Scan) :
  snd (backfillLeft (s1, sc)) = snd (backfillLeft (s2, sc)).
Proof.
  unfold backfillLeft. now destruct (leftChildId sc), (unpositioned sc).
Qed.

Lemma backfillRight_scan (s1 s2 : Store) (sc : Scan) :
  snd (backfillRight (s1, sc)) = snd (backfillRight (s2, sc)).
Proof.
  unfold backfillRight. now destruct (rightChildId sc), (unpositioned sc).
Qed.

Lemma backfilled_scan (s1 s2 : Store) (p : ObjectId) :
  findChildren s1 p = findChildren s2 p ->
  snd (backfilled s1 p) = snd (backfilled s2 p).
Proof.
  intros H. unfold backfilled. rewrite H.
  set (sc := scanChildren (findChildren s2 p) emptyScan).
  pose proof (backfillLeft_scan s1 s2 sc) as HL.
  destruct (backfillLeft (s1, sc)) as [a sa], (backfillLeft (s2, sc)) as [b sb].
  simpl in HL. subst sb. apply backfillRight_scan.
Qed.

Lemma processNode_result (s1 s2 : Store) (p : ObjectId) :
  findChildren s1 p = findChildren s2 p ->
  fst (processNode s1 p) = fst (processNode s2 p).
Proof.
  intros H. apply backfilled_scan in H. unfold processNode.
  destruct (backfilled s1 p) as [a sa], (backfilled s2 p) as [b sb].
  simpl in H. subst sb. now destruct (pickMissingPosition (positions sa)).
Qed.

Lemma updateOne_other_children (store : Store) (t n : ObjectId) (pos : BinaryPosition) :
  (forall u, In u store -> _id u = t -> parent u <> Some n) ->
  filter (hasParent n) (updateOne store t pos) = filter (hasParent n) store.
Proof.
  induction store as [| u rest IH]; intros H; simpl; [reflexivity |].
  destruct ((_id u =? t) && _) eqn:Htest; simpl.
  - apply andb_true_iff in Htest. destruct Htest as [Hid _].
    apply Nat.eqb_eq in Hid.
    assert (Hu : hasParent n u = false).
    { destruct (hasParent n u) eqn:E; [| reflexivity].
      apply hasParent_true in E. exfalso. exact (H u (or_introl eq_refl) Hid E). }
    unfold hasParent at 1. simpl. fold (hasParent n u). now rewrite Hu.
  - rewrite IH by (intros v Hv; apply H; now right). reflexivity.
Qed.

(** Under unique ids a document named by a child id of [p] is a child of
    [p]: it is not a child of any other node. *)
Lemma child_id_not_elsewhere (store : Store) (p n t : ObjectId) :
  NoDup (map _id store) -> isChild store p t -> n <> p ->
  forall u, In u store -> _id u = t -> parent u <> Some n.
Proof.
  intros Hnd Hch Hn u Hin Hid Hpar.
  assert (Hu : In (t, Some n) (map idParent store)).
  { apply in_map_iff. exists u. unfold idParent. now rewrite Hid, Hpar. }
  rewrite <- map_fst_idParent in Hnd.
  pose proof (@idParent_functional _ _ _ _ Hnd Hch Hu) as Heq. congruence.
Qed.

(** *** The backfill policy, in the words of the design

    "If no child occupies left and an unpositioned child exists, assign
    it left via a conditional update guarded on position == null; same
    for right."  [backfillPlan] lists the conditional updates this policy
    asks for, given the children in creation order; [applyUpdates] runs
    them. *)

Definition backfillPlan (children : list User) : list (ObjectId * BinaryPosition) :=
  let legacy := map _id (filter isUnpositioned children) in
  match existsb (isPos Left) children, existsb (isPos Right) children, legacy with
  | false, false, a :: b :: _ => [(a, Left); (b, Right)]
  | false, _, a :: _ => [(a, Left)]
  | true, false, a :: _ => [(a, Right)]
  | _, _, _ => []
  end.

Definition applyUpdates (plan : list (ObjectId * BinaryPosition)) (store : Store) : Store :=
  fold_left (fun st tp => updateOne st (fst tp) (snd tp)) plan store.

Lemma scan_empty_childId (pos : BinaryPosition) (cs : list User) :
  childIdAt pos (scanChildren cs emptyScan) = None <-> existsb (isPos pos) cs = false.
Proof.
  rewrite scan_childId_none. destruct pos; simpl; tauto.
Qed.

Lemma backfilled_plan (store : Store) (p : ObjectId) :
  fst (backfilled store p) = applyUpdates (backfillPlan (findChildren store p)) store.
Proof.
  unfold backfilled, backfillPlan.
  set (cs := findChildren store p).
  pose proof (scan_empty_childId Left cs) as HL.
  pose proof (scan_empty_childId Right cs) as HR.
  pose proof (scan_unpositioned cs emptyScan) as HU.
  simpl in HL, HR, HU.
  set (sc := scanChildren cs emptyScan) in *.
  unfold backfillLeft, backfillRight.
  destruct (leftChildId sc) as [l |] eqn:El.
  - assert (EL : existsb (isPos Left) cs = true).
    { destruct (existsb (isPos Left) cs); [reflexivity | exfalso].
      destruct HL as [_ HL]. discriminate (HL eq_refl). }
    rewrite EL. destruct (rightChildId sc) as [r |] eqn:Er.
    + assert (ER : existsb (isPos Right) cs = true).
      { destruct (existsb (isPos Right) cs); [reflexivity | exfalso].
      destruct HR as [_ HR]. discriminate (HR eq_refl). }
      rewrite ER. reflexivity.
    + assert (ER : existsb (isPos Right) cs = false) by now apply HR.
      rewrite ER, <- HU. destruct (unpositioned sc); reflexivity.
  - assert (EL : existsb (isPos Left) cs = false) by now apply HL.
    rewrite EL, <- HU. destruct (unpositioned sc) as [| a rest] eqn:Eu.
    + rewrite Eu. now destruct (rightChildId sc), (existsb (isPos Right) cs).
    + simpl. destruct (rightChildId sc) as [r |] eqn:Er.
      * assert (ER : existsb (isPos Right) cs = true).
        { destruct (existsb (isPos Right) cs); [reflexivity | exfalso].
      destruct HR as [_ HR]. discriminate (HR eq_refl). }
        rewrite ER. reflexivity.
      * assert (ER : existsb (isPos Right) cs = false) by now apply HR.
        rewrite ER. destruct rest; reflexivity.
Qed.

Lemma backfillPlan_targets (cs : list User) (t : ObjectId) (pos : BinaryPosition) :
  In (t, pos) (backfillPlan cs) ->
  In t (map _id (filter isUnpositioned cs)) /\ existsb (isPos pos) cs = false.
Proof.
  unfold backfillPlan.
  destruct (existsb (isPos Left) cs) eqn:EL, (existsb (isPos Right) cs) eqn:ER,
           (map _id (filter isUnpositioned cs)) as [| a [| b rest]];
    simpl; intros H;
    repeat match goal with
           | H : _ \/ _ |- _ => destruct H as [H | H]
           | H : (_, _) = (_, _) |- _ => injection H as <- <-
           | H : False |- _ => destruct H
           end; auto.
Qed.

Lemma backfillPlan_length (cs : list User) : length (backfillPlan cs) <= 2.
Proof.
  unfold backfillPlan.
  destruct (existsb (isPos Left) cs), (existsb (isPos Right) cs),
           (map _id (filter isUnpositioned cs)) as [| a [| b rest]]; simpl; lia.
Qed.

Lemma applyUpdates_idParent (plan : list (ObjectId * BinaryPosition)) (store : Store) :
  map idParent (applyUpdates plan store) = map idParent store.
Proof.
  unfold applyUpdates. revert store.
  induction plan as [| [t pos] plan IH]; intros store; simpl; [reflexivity |].
  rewrite IH. apply updateOne_idParent.
Qed.

Lemma applyUpdates_other_children (plan : list (ObjectId * BinaryPosition))
      (store : Store) (n : ObjectId) :
  (forall t pos, In (t, pos) plan -> ~ In (t, Some n) (map idParent store)) ->
  filter (hasParent n) (applyUpdates plan store) = filter (hasParent n) store.
Proof.
  unfold applyUpdates. revert store.
  induction plan as [| [t pos] plan IH]; intros store H; [reflexivity |].
  simpl. rewrite IH.
  - apply updateOne_other_children. intros u Hin Hid Hpar.
    apply (H t pos (or_introl eq_refl)).
    apply in_map_iff. exists u. unfold idParent. now rewrite Hid, Hpar.
  - intros t' pos' Hin. rewrite updateOne_idParent. apply (H t' pos'). now right.
Qed.

Lemma processNode_frame (store : Store) (p n : ObjectId) :
  NoDup (map _id store) -> n <> p ->
  findChildren (snd (processNode store p)) n = findChildren store n.
Proof.
  intros Hnd Hn. rewrite processNode_store, backfilled_plan.
  unfold findChildren at 1 3. f_equal.
  apply applyUpdates_other_children. intros t pos Hin Habs.
  apply backfillPlan_targets in Hin. destruct Hin as [Hin _].
  assert (Hch : isChild store p t).
  { apply In_findChildren_ids. apply in_map_iff in Hin.
    destruct Hin as [c [Hc Hin]]. apply filter_In in Hin.
    apply in_map_iff. exists c. tauto. }
  rewrite <- map_fst_idParent in Hnd.
  pose proof (@idParent_functional _ _ _ _ Hnd Hch Habs) as Heq. congruence.
Qed.

Lemma processNode_ids (store : Store) (p : ObjectId) :
  map _id (snd (processNode store p)) = map _id store.
Proof. rewrite processNode_store. apply backfilled_ids. Qed.

(** A full node whose children respect the index pushes every child. *)
Lemma processNode_full_all_children (store store' : Store) (p : ObjectId)
      (pushed : list ObjectId) :
  (forall pos, length (filter (isPos pos) (findChildren store p)) <= 1) ->
  processNode store p = (Full pushed, store') ->
  forall x, isChild store p x -> In x pushed.
Proof.
  intros Hone Hp x Hx. apply processNode_full in Hp. destruct Hp as [-> _].
  eapply Permutation_in; [apply Permutation_sym, backfilled_pushList |].
  apply scan_pushList_complete.
  - intros pos. specialize (Hone pos). destruct pos; simpl; lia.
  - simpl. now apply In_findChildren_ids.
Qed.

(** *** Depth in the sponsor's subtree and the level-order invariant *)

(** [descends store s d n]: [n] is [d] parent links below [s]. *)
Inductive descends (store : Store) (s : ObjectId) : nat -> ObjectId -> Prop :=
| descends_self : descends store s 0 s
| descends_step (d : nat) (m n : ObjectId) :
    descends store s d m -> isChild store m n -> descends store s (S d) n.

(** [missing], the answer of one run of the loop body at [n].  It is the
    code's answer, used to follow the loop; what a free slot is in the
    collection is [freeSlot] below, and [missingAt_freeSlot] relates the
    two. *)
Definition missingAt (store : Store) (n : ObjectId) : option BinaryPosition :=
  match fst (processNode store n) with
  | Found pos => Some pos
  | Full _ => None
  end.

Section LevelOrder.

Variable store0 : Store.
Variable s : ObjectId.
Hypothesis index0 : uniqueIndexOk store0.

(** The queue is the rest of level [k] followed by the part of level
    [k + 1] found so far. *)
Record levelInv (k : nat) (q1 q2 visited : list ObjectId) : Prop := {
  li_q1 : forall n, In n q1 -> descends store0 s k n;
  li_q2 : forall n, In n q2 -> descends store0 s (S k) n;
  li_below : forall j n, j < k -> descends store0 s j n -> In n visited;
  li_level : forall n, descends store0 s k n -> In n visited \/ In n q1;
  li_succ : forall n m, In n visited -> isChild store0 n m ->
                        In m visited \/ In m (q1 ++ q2);
  li_full : forall n, In n visited -> missingAt store0 n = None
}.

Lemma levelInv_initial : levelInv 0 [s] [] [].
Proof.
  constructor; simpl; try tauto.
  - intros n [<- | []]. constructor.
  - intros j n Hj. lia.
  - intros n Hn. inversion Hn; subst. auto.
Qed.

Lemma levelInv_shift (k : nat) (q2 visited : list ObjectId) :
  levelInv k [] q2 visited -> levelInv (S k) q2 [] visited.
Proof.
  intros [H1 H2 H3 H4 H5 H6]. constructor; simpl.
  - exact H2.
  - tauto.
  - intros j n Hj Hd. destruct (Nat.eq_dec j k) as [-> | Hne].
    + destruct (H4 n Hd) as [? | []]. assumption.
    + apply (H3 j); [lia | assumption].
  - intros n Hd. inversion Hd as [| d m n' Hm Hch]; subst.
    destruct (H4 m Hm) as [Hv | []].
    destruct (H5 m n Hv Hch) as [? | Hin]; [now left | right]. exact Hin.
  - intros n m Hn Hch. rewrite app_nil_r. apply (H5 n m Hn Hch).
  - exact H6.
Qed.

Lemma levelInv_skip (k : nat) (p : ObjectId) (q1 q2 visited : list ObjectId) :
  In p visited -> levelInv k (p :: q1) q2 visited -> levelInv k q1 q2 visited.
Proof.
  intros Hp [H1 H2 H3 H4 H5 H6]. constructor; try assumption.
  - intros n Hn. apply H1. now right.
  - intros n Hd. destruct (H4 n Hd) as [? | [<- | ?]]; auto.
  - intros n m Hn Hch. destruct (H5 n m Hn Hch) as [? | [<- | ?]]; auto.
Qed.

Lemma levelInv_full (k : nat) (p : ObjectId) (q1 q2 visited pushed : list ObjectId) :
  levelInv k (p :: q1) q2 visited ->
  missingAt store0 p = None ->
  (forall x, In x pushed <-> isChild store0 p x) ->
  levelInv k q1 (q2 ++ pushed) (visited ++ [p]).
Proof.
  intros [H1 H2 H3 H4 H5 H6] Hopen Hpushed. constructor.
  - intros n Hn. apply H1. now right.
  - intros n Hn. apply in_app_or in Hn. destruct Hn as [Hn | Hn]; [now apply H2 |].
    apply descends_step with (m := p); [apply H1; now left | now apply Hpushed].
  - intros j n Hj Hd. apply in_or_app. left. now apply (H3 j).
  - intros n Hd. rewrite in_app_iff. simpl.
    destruct (H4 n Hd) as [? | [<- | ?]]; auto.
  - intros n m Hn Hch. rewrite !in_app_iff in *. simpl in *.
    destruct Hn as [Hn | [<- | []]].
    + destruct (H5 n m Hn Hch) as [? | [<- | Hin]]; auto.
      apply in_app_or in Hin. tauto.
    + right. right. right. now apply Hpushed.
  - intros n Hn. apply in_app_or in Hn. destruct Hn as [Hn | [<- | []]]; auto.
Qed.

Lemma bfs_level (maxVisits : N) (fuel : nat) :
  forall store queue visited log,
    NoDup (map _id store) ->
    map idParent store = map idParent store0 ->
    (forall n, ~ In n visited -> findChildren store n = findChildren store0 n) ->
    (exists k q1 q2, queue = q1 ++ q2 /\ levelInv k q1 q2 visited) ->
    forall p pos,
      outcome (bfs maxVisits fuel store queue visited log) = Placed p pos ->
      exists d, descends store0 s d p /\ missingAt store0 p = Some pos /\
                forall j n, j < d -> descends store0 s j n -> missingAt store0 n = None.
Proof.
  induction fuel as [| fuel IH];
    intros store queue visited log Hids Hip Hframe Hinv p pos; [discriminate |].
  simpl. destruct queue as [| x queue]; [discriminate |].
  assert (Hnorm : exists k q1 q2, queue = q1 ++ q2 /\ levelInv k (x :: q1) q2 visited).
  { destruct Hinv as [k [q1 [q2 [Hq Hinv]]]]. destruct q1 as [| y q1].
    - simpl in Hq. subst q2. exists (S k), queue, []. rewrite app_nil_r.
      split; [reflexivity | now apply levelInv_shift].
    - injection Hq as -> ->. now exists k, q1, q2. }
  clear Hinv. destruct Hnorm as [k [q1 [q2 [-> Hinv]]]].
  destruct (setHas x visited) eqn:Hv.
  - apply setHas_true in Hv. apply IH; try assumption.
    exists k, q1, q2. split; [reflexivity | now apply levelInv_skip with (p := x)].
  - rewrite (setAdd_fresh _ _ Hv). apply setHas_false in Hv.
    destruct (_ <? _)%N; [discriminate |].
    pose proof (processNode_result store store0 x (Hframe x Hv)) as Hres.
    pose proof (processNode_idParent store x) as Hip'.
    pose proof (processNode_ids store x) as Hids'.
    pose proof (fun n => @processNode_frame store x n Hids) as Hfr.
    destruct (processNode store x) as [[missing | pushed] store'] eqn:Hp; simpl in *.
    + intros Heq. injection Heq as <- <-. exists k. split; [| split].
      * apply (li_q1 Hinv). now left.
      * unfold missingAt. now rewrite <- Hres.
      * intros j n Hj Hd. apply (li_full Hinv). now apply (li_below Hinv) with (j := j).
    + apply IH.
      * now rewrite Hids'.
      * now rewrite Hip'.
      * intros n Hn. rewrite in_app_iff in Hn. simpl in Hn.
        rewrite Hfr by (intros ->; tauto). apply Hframe. tauto.
      * exists k, q1, (q2 ++ pushed). split; [now rewrite app_assoc |].
        apply levelInv_full; [assumption | unfold missingAt; now rewrite <- Hres |].
        intros y. unfold isChild. rewrite <- Hip. fold (isChild store x y). split.
        -- apply (processNode_full_children store x Hids Hp).
        -- apply (@processNode_full_all_children store store' x pushed); [| exact Hp].
           intros side. rewrite (Hframe x Hv). now apply children_one_per_side.
Qed.

End LevelOrder.

(** *** The backfill writes respect the index *)

Lemma NoDup_app_disjoint (A : Type) (l1 l2 : list A) :
  NoDup (l1 ++ l2) -> forall a, In a l1 -> In a l2 -> False.
Proof.
  induction l1 as [| x l1 IH]; simpl; [tauto |].
  intros Hnd a [<- | Ha] Ha2; inversion Hnd as [| ? ? Hnotin Hnd']; subst.
  - apply Hnotin. apply in_or_app. now right.
  - now apply (IH Hnd' a).
Qed.

Lemma updateOne_index (store : Store) (t p : ObjectId) (pos : BinaryPosition) :
  (forall o, In (t, o) (map idParent store) -> o = Some p) ->
  ~ In (p, pos) (indexKeys store) ->
  uniqueIndexOk store ->
  uniqueIndexOk (updateOne store t pos) /\
  incl (indexKeys (updateOne store t pos)) ((p, pos) :: indexKeys store).
Proof.
  unfold uniqueIndexOk, indexKeys.
  induction store as [| u rest IH]; intros Hpar Hfree Hnd; simpl in *.
  - split; [constructor | intros x []].
  - apply NoDup_app_remove_l in Hnd as Hrest.
    destruct ((_id u =? t) && _) eqn:Htest; simpl.
    + apply andb_true_iff in Htest. destruct Htest as [Hid Hpos].
      apply Nat.eqb_eq in Hid.
      assert (Hp : parent u = Some p).
      { apply Hpar. left. unfold idParent. now rewrite Hid. }
      assert (Hk : indexKey u = []).
      { unfold indexKey. destruct (parent u), (position u); try reflexivity. discriminate. }
      rewrite Hk in *. simpl in *.
      unfold indexKey at 1 3. simpl. rewrite Hp. simpl. split.
      * now constructor.
      * apply incl_refl.
    + destruct IH as [IHnd IHincl]; try assumption.
      * intros o Ho. apply Hpar. now right.
      * intros Hin. apply Hfree. apply in_or_app. now right.
      * split.
        -- apply NoDup_app; [eapply NoDup_app_remove_r; exact Hnd | assumption |].
           intros x Hx Hx'. apply IHincl in Hx'. destruct Hx' as [<- | Hx'].
           ++ apply Hfree. apply in_or_app. now left.
           ++ revert x Hx Hx'. apply NoDup_app_disjoint. exact Hnd.
        -- intros x Hx. apply in_app_or in Hx. destruct Hx as [Hx | Hx].
           ++ right. apply in_or_app. now left.
           ++ apply IHincl in Hx. destruct Hx as [Hx | Hx]; [now left | right].
              apply in_or_app. now right.
Qed.

Lemma applyUpdates_index (plan : list (ObjectId * BinaryPosition))
      (store : Store) (p : ObjectId) :
  NoDup (map snd plan) ->
  (forall t pos o, In (t, pos) plan -> In (t, o) (map idParent store) -> o = Some p) ->
  (forall t pos, In (t, pos) plan -> ~ In (p, pos) (indexKeys store)) ->
  uniqueIndexOk store ->
  uniqueIndexOk (applyUpdates plan store) /\
  incl (indexKeys (applyUpdates plan store))
       (map (fun tp => (p, snd tp)) plan ++ indexKeys store).
Proof.
  unfold applyUpdates. revert store.
  induction plan as [| [t pos] plan IH]; intros store Hsides Hpar Hfree Hnd; simpl.
  - split; [assumption | apply incl_refl].
  - simpl in Hsides. inversion Hsides as [| ? ? Hnotin Hsides']; subst.
    destruct (@updateOne_index store t p pos) as [Hnd1 Hincl1]; try assumption.
    + intros o. apply (Hpar t pos). now left.
    + apply (Hfree t pos). now left.
    + destruct (IH (updateOne store t pos)) as [Hnd2 Hincl2]; try assumption.
      * intros t' pos' o Hin. rewrite updateOne_idParent. apply (Hpar t' pos'). now right.
      * intros t' pos' Hin Habs. apply Hincl1 in Habs. destruct Habs as [Heq | Habs].
        -- injection Heq as <-. apply Hnotin. apply in_map_iff. now exists (t', pos).
        -- revert Habs. apply (Hfree t' pos'). now right.
      * split; [assumption |].
        intros x Hx. apply Hincl2 in Hx. apply in_app_or in Hx.
        destruct Hx as [Hx | Hx]; [right; apply in_or_app; now left |].
        apply Hincl1 in Hx. destruct Hx as [<- | Hx]; [now left |].
        right. apply in_or_app. now right.
Qed.

Lemma backfillPlan_sides (cs : list User) : NoDup (map snd (backfillPlan cs)).
Proof.
  unfold backfillPlan.
  destruct (existsb (isPos Left) cs), (existsb (isPos Right) cs),
           (map _id (filter isUnpositioned cs)) as [| a [| b rest]]; simpl;
    repeat constructor; simpl; intuition discriminate.
Qed.

Lemma existsb_isPos_false (store : Store) (p : ObjectId) (pos : BinaryPosition) :
  existsb (isPos pos) (findChildren store p) = false <->
  ~ In (p, pos) (indexKeys store).
Proof.
  rewrite In_indexKeys. split.
  - intros H [u [Hin [Hp Hpos]]].
    assert (Hex : existsb (isPos pos) (findChildren store p) = true).
    { apply existsb_exists. exists u. split; [apply In_findChildren; tauto |].
      now apply isPos_true. }
    congruence.
  - intros H. destruct (existsb _ _) eqn:E; [| reflexivity].
    apply existsb_exists in E. destruct E as [u [Hin Hpos]].
    apply In_findChildren in Hin. apply isPos_true in Hpos.
    exfalso. apply H. exists u. tauto.
Qed.

Lemma backfilled_index (store : Store) (p : ObjectId) :
  NoDup (map _id store) -> uniqueIndexOk store ->
  uniqueIndexOk (fst (backfilled store p)) /\
  incl (indexKeys (fst (backfilled store p)))
       (map (fun tp => (p, snd tp)) (backfillPlan (findChildren store p))
        ++ indexKeys store).
Proof.
  intros Hids Hnd. rewrite backfilled_plan.
  apply applyUpdates_index; [apply backfillPlan_sides | | | assumption].
  - intros t pos o Hin Ho. apply backfillPlan_targets in Hin. destruct Hin as [Hin _].
    assert (Hch : isChild store p t).
    { apply In_findChildren_ids. apply in_map_iff in Hin.
      destruct Hin as [c [Hc Hin]]. apply filter_In in Hin.
      apply in_map_iff. exists c. tauto. }
    rewrite <- map_fst_idParent in Hids.
    exact (@idParent_functional _ _ _ _ Hids Ho Hch).
  - intros t pos Hin. apply backfillPlan_targets in Hin.
    now apply existsb_isPos_false.
Qed.

Lemma processNode_index (store : Store) (p : ObjectId) :
  NoDup (map _id store) -> uniqueIndexOk store ->
  uniqueIndexOk (snd (processNode store p)).
Proof.
  intros Hids Hnd. rewrite processNode_store. now apply backfilled_index.
Qed.

(** A side is still free after the backfill exactly when no child held it
    and the plan assigned nobody to it. *)
Lemma backfilled_side (store : Store) (p : ObjectId) (pos : BinaryPosition) :
  childIdAt pos (snd (backfilled store p)) = None <->
  existsb (isPos pos) (findChildren store p) = false /\
  forall t, ~ In (t, pos) (backfillPlan (findChildren store p)).
Proof.
  unfold backfilled, backfillPlan.
  set (cs := findChildren store p).
  pose proof (scan_empty_childId Left cs) as HL.
  pose proof (scan_empty_childId Right cs) as HR.
  pose proof (scan_unpositioned cs emptyScan) as HU.
  simpl in HL, HR, HU.
  set (sc := scanChildren cs emptyScan) in *.
  assert (EL : existsb (isPos Left) cs
               = match leftChildId sc with Some _ => true | None => false end).
  { destruct (leftChildId sc), (existsb (isPos Left) cs); try reflexivity; exfalso.
    - destruct HL as [_ HL]. discriminate (HL eq_refl).
    - destruct HL as [HL _]. discriminate (HL eq_refl). }
  assert (ER : existsb (isPos Right) cs
               = match rightChildId sc with Some _ => true | None => false end).
  { destruct (rightChildId sc), (existsb (isPos Right) cs); try reflexivity; exfalso.
    - destruct HR as [_ HR]. discriminate (HR eq_refl).
    - destruct HR as [HR _]. discriminate (HR eq_refl). }
  destruct pos; rewrite EL, ER, <- HU; clear HL HR HU EL ER;
    unfold backfillLeft, backfillRight;
    destruct (leftChildId sc) as [l |] eqn:El, (rightChildId sc) as [r |] eqn:Er,
             (unpositioned sc) as [| a [| b rest]] eqn:Eu;
    simpl; rewrite ?El, ?Er, ?Eu; simpl; rewrite ?El, ?Er, ?Eu;
    (split;
     [ intros H;
       first [ discriminate
             | split; [reflexivity | intros t Ht; simpl in Ht; intuition discriminate] ]
     | intros [H1 H2];
       first [ discriminate | reflexivity
             | exfalso; apply (H2 a); simpl; tauto
             | exfalso; apply (H2 b); simpl; tauto ] ]).
Qed.

Lemma missingAt_spec (store : Store) (p : ObjectId) (pos : BinaryPosition) :
  missingAt store p = Some pos <->
  childIdAt pos (snd (backfilled store p)) = None /\
  (pos = Right -> leftChildId (snd (backfilled store p)) <> None).
Proof.
  rewrite <- (pick_some_iff pos (backfilled_consistent store p)).
  unfold missingAt, processNode. destruct (backfilled store p) as [st sc]. simpl.
  destruct (pickMissingPosition (positions sc)); simpl; split; congruence.
Qed.

(** A node whose children all sit on the right has its left slot open. *)
Lemma missingAt_left (store : Store) (p : ObjectId) :
  (forall u, In u store -> parent u = Some p -> position u = Some Right) ->
  missingAt store p = Some Left.
Proof.
  intros H. apply missingAt_spec. split; [| discriminate].
  apply backfilled_side. split.
  - apply existsb_isPos_false. rewrite In_indexKeys.
    intros [u [Hin [Hp Hpos]]]. rewrite (H u Hin Hp) in Hpos. discriminate.
  - intros t Ht. apply backfillPlan_targets in Ht. destruct Ht as [Ht _].
    apply in_map_iff in Ht. destruct Ht as [c [_ Hc]]. apply filter_In in Hc.
    destruct Hc as [Hc Hun]. apply In_findChildren in Hc.
    unfold isUnpositioned in Hun. rewrite (H c) in Hun; tauto || discriminate.
Qed.

(** The slot a node is found open at is free in the collection the
    search leaves behind. *)
Lemma processNode_slot_free (store store' : Store) (p : ObjectId) (pos : BinaryPosition) :
  NoDup (map _id store) -> uniqueIndexOk store ->
  processNode store p = (Found pos, store') ->
  ~ In (p, pos) (indexKeys store').
Proof.
  intros Hids Hnd Hp Hin.
  assert (Hopen : missingAt store p = Some pos) by (unfold missingAt; now rewrite Hp).
  apply missingAt_spec in Hopen. destruct Hopen as [Hside _].
  apply backfilled_side in Hside. destruct Hside as [Hex Hplan].
  pose proof (processNode_store store p) as Hst. rewrite Hp in Hst. simpl in Hst.
  subst store'. apply (backfilled_index p Hids Hnd) in Hin.
  apply in_app_or in Hin. destruct Hin as [Hin | Hin].
  - apply in_map_iff in Hin. destruct Hin as [[t pos'] [Heq Hin]].
    simpl in Heq. injection Heq as ->. exact (Hplan t Hin).
  - now apply existsb_isPos_false in Hex.
Qed.

(** *** Facts about a whole run *)

Lemma bfs_idParent (maxVisits : N) (fuel : nat) :
  forall store queue visited log,
    map idParent (finalStore (bfs maxVisits fuel store queue visited log))
    = map idParent store.
Proof.
  induction fuel as [| fuel IH]; intros store queue visited log; [reflexivity |].
  simpl. destruct queue as [| p queue]; [reflexivity |].
  destruct (setHas p visited); [apply IH |].
  destruct (_ <? _)%N; [reflexivity |].
  pose proof (processNode_idParent store p) as Hip.
  destruct (processNode store p) as [[missing | pushed] store']; simpl in *;
    [assumption | now rewrite IH].
Qed.

Lemma bfs_index (maxVisits : N) (fuel : nat) :
  forall store queue visited log,
    NoDup (map _id store) -> uniqueIndexOk store ->
    uniqueIndexOk (finalStore (bfs maxVisits fuel store queue visited log)) /\
    forall p pos,
      outcome (bfs maxVisits fuel store queue visited log) = Placed p pos ->
      ~ In (p, pos) (indexKeys (finalStore (bfs maxVisits fuel store queue visited log))).
Proof.
  induction fuel as [| fuel IH]; intros store queue visited log Hids Hnd;
    [split; [assumption | discriminate] |].
  simpl. destruct queue as [| p queue]; [split; [assumption | discriminate] |].
  destruct (setHas p visited); [now apply IH |].
  destruct (_ <? _)%N; [split; [assumption | discriminate] |].
  pose proof (processNode_index p Hids Hnd) as Hnd'.
  pose proof (processNode_ids store p) as Hids'.
  pose proof (@processNode_slot_free store (snd (processNode store p)) p) as Hfree.
  destruct (processNode store p) as [[missing | pushed] store']; simpl in *.
  - split; [assumption |]. intros q pos Heq. injection Heq as <- <-.
    now apply Hfree.
  - apply IH; [now rewrite Hids' | assumption].
Qed.

Lemma bfs_exceeded (maxVisits : N) (fuel : nat) :
  forall store queue visited log,
    outcome (bfs maxVisits fuel store queue visited log) = Threw ExceededSafeLimit ->
    (maxVisits < N.of_nat (length (visitedSet (bfs maxVisits fuel store queue visited log))))%N.
Proof.
  induction fuel as [| fuel IH]; intros store queue visited log; [discriminate |].
  simpl. destruct queue as [| p queue]; [discriminate |].
  destruct (setHas p visited); [apply IH |].
  destruct (_ <? _)%N eqn:Hcap; [intros _; now apply N.ltb_lt |].
  destruct (processNode store p) as [[missing | pushed] store']; [discriminate | apply IH].
Qed.

Lemma processNode_pushed_ids (store store' : Store) (p : ObjectId)
      (pushed : list ObjectId) :
  processNode store p = (Full pushed, store') -> incl pushed (map _id store).
Proof.
  intros Hp x Hx. apply processNode_full in Hp. destruct Hp as [-> _].
  eapply Permutation_in in Hx; [| apply backfilled_pushList].
  apply scan_pushList_incl in Hx. simpl in Hx.
  apply in_map_iff in Hx. destruct Hx as [c [Hc Hin]].
  apply In_findChildren in Hin. apply in_map_iff. exists c. tauto.
Qed.

Lemma bfs_under_cap (maxVisits : N) (universe : list ObjectId) (fuel : nat) :
  (N.of_nat (length universe) <= maxVisits)%N ->
  forall store queue visited log,
    NoDup visited -> incl visited universe -> incl queue universe ->
    incl (map _id store) universe ->
    outcome (bfs maxVisits fuel store queue visited log) <> Threw ExceededSafeLimit.
Proof.
  intros Hsize.
  induction fuel as [| fuel IH]; intros store queue visited log Hnd Hv Hq Hs;
    [discriminate |].
  simpl. destruct queue as [| p queue]; [discriminate |].
  assert (Hq' : incl queue universe) by (intros x Hx; apply Hq; now right).
  destruct (setHas p visited) eqn:Hp; [now apply IH |].
  rewrite (setAdd_fresh _ _ Hp). apply setHas_false in Hp.
  assert (Hnd' : NoDup (visited ++ [p])).
  { apply NoDup_app; [assumption | repeat constructor; simpl; tauto |].
    intros x Hx [-> | []]. auto. }
  assert (Hv' : incl (visited ++ [p]) universe).
  { intros x Hx. apply in_app_or in Hx. destruct Hx as [Hx | [<- | []]]; auto.
    apply Hq. now left. }
  pose proof (NoDup_incl_length Hnd' Hv') as Hlen.
  destruct (_ <? _)%N eqn:Hcap; [apply N.ltb_lt in Hcap; lia |].
  pose proof (processNode_ids store p) as Hids.
  destruct (processNode store p) as [[missing | pushed] store'] eqn:Hproc;
    [discriminate |].
  simpl in Hids. apply IH; try assumption.
  - intros x Hx. apply in_app_or in Hx. destruct Hx as [Hx | Hx]; [auto |].
    apply Hs. eapply processNode_pushed_ids; eassumption.
  - now rewrite Hids.
Qed.

(** *** Creation order and the effect of the conditional updates *)

Definition olderEq (a b : User) : Prop := createdAt a <= createdAt b.

Lemma insertByCreatedAt_sorted (u : User) (l : list User) :
  Sorted olderEq l -> Sorted olderEq (insertByCreatedAt u l).
Proof.
  induction l as [| v l IH]; simpl; intros Hs.
  - repeat constructor.
  - destruct (createdAt u <=? createdAt v) eqn:Hle.
    + apply Nat.leb_le in Hle. constructor; [assumption | now constructor].
    + apply Nat.leb_gt in Hle. inversion Hs as [| ? ? Hs' Hhd]; subst.
      constructor; [now apply IH |].
      destruct l as [| w l]; simpl.
      * constructor. unfold olderEq. lia.
      * destruct (createdAt u <=? createdAt w); constructor.
        -- unfold olderEq. lia.
        -- now inversion Hhd.
Qed.

Lemma sortByCreatedAt_sorted (l : list User) : StronglySorted olderEq (sortByCreatedAt l).
Proof.
  apply Sorted_StronglySorted.
  - intros a b c. unfold olderEq. lia.
  - induction l as [| u l IH]; simpl; [constructor |].
    now apply insertByCreatedAt_sorted.
Qed.

Lemma StronglySorted_filter (A : Type) (R : A -> A -> Prop) (f : A -> bool) (l : list A) :
  StronglySorted R l -> StronglySorted R (filter f l).
Proof.
  induction 1 as [| a l Hs IH Hall]; simpl; [constructor |].
  destruct (f a); [| assumption].
  constructor; [assumption |].
  apply Forall_forall. intros x Hx. apply filter_In in Hx.
  rewrite Forall_forall in Hall. now apply Hall.
Qed.

(** The unpositioned ("legacy") children of [p], oldest first. *)
Definition legacyChildren (store : Store) (p : ObjectId) : list User :=
  filter isUnpositioned (findChildren store p).

Lemma legacyChildren_sorted (store : Store) (p : ObjectId) :
  StronglySorted olderEq (legacyChildren store p).
Proof. apply StronglySorted_filter, sortByCreatedAt_sorted. Qed.

(** What one conditional update does to one document. *)
Definition upd (t : ObjectId) (pos : BinaryPosition) (u : User) : User :=
  if (_id u =? t) && isUnpositioned u then setPosition pos u else u.

(** What the updates of a plan, run in order, do to one document. *)
Definition assign (plan : list (ObjectId * BinaryPosition)) (u : User) : User :=
  fold_left (fun v tp => upd (fst tp) (snd tp) v) plan u.

Lemma upd_id (t : ObjectId) (pos : BinaryPosition) (u : User) : _id (upd t pos u) = _id u.
Proof. unfold upd. now destruct (_ && _). Qed.

Lemma updateOne_map (store : Store) (t : ObjectId) (pos : BinaryPosition) :
  NoDup (map _id store) -> updateOne store t pos = map (upd t pos) store.
Proof.
  induction store as [| u rest IH]; simpl; intros Hnd; [reflexivity |].
  inversion Hnd as [| ? ? Hnotin Hnd']; subst.
  unfold upd at 1. fold (isUnpositioned u).
  destruct ((_id u =? t) && isUnpositioned u) eqn:Htest.
  - f_equal. apply andb_true_iff in Htest. destruct Htest as [Hid _].
    apply Nat.eqb_eq in Hid. rewrite <- (map_id rest) at 1.
    apply map_ext_in. intros v Hv. unfold upd.
    destruct (_id v =? t) eqn:Hvt; [| reflexivity].
    apply Nat.eqb_eq in Hvt. exfalso. apply Hnotin. rewrite Hid, <- Hvt.
    now apply in_map.
  - f_equal. now apply IH.
Qed.

Lemma applyUpdates_map (plan : list (ObjectId * BinaryPosition)) (store : Store) :
  NoDup (map _id store) -> applyUpdates plan store = map (assign plan) store.
Proof.
  unfold applyUpdates, assign. revert store.
  induction plan as [| [t pos] plan IH]; intros store Hnd; simpl.
  - now rewrite map_id.
  - rewrite IH by now rewrite updateOne_ids.
    rewrite updateOne_map by assumption. now rewrite map_map.
Qed.

Lemma assign_positioned (plan : list (ObjectId * BinaryPosition)) (u : User) :
  isUnpositioned u = false -> assign plan u = u.
Proof.
  unfold assign. induction plan as [| [t pos] plan IH]; intros H; simpl; [reflexivity |].
  unfold upd at 2. rewrite H, andb_false_r. now apply IH.
Qed.

Lemma assign_untargeted (plan : list (ObjectId * BinaryPosition)) (u : User) :
  ~ In (_id u) (map fst plan) -> assign plan u = u.
Proof.
  unfold assign. induction plan as [| [t pos] plan IH]; intros H; simpl in *;
    [reflexivity |].
  unfold upd at 2. destruct (_id u =? t) eqn:Hid.
  - apply Nat.eqb_eq in Hid. exfalso. apply H. now left.
  - simpl. apply IH. tauto.
Qed.

Lemma assign_targeted (plan : list (ObjectId * BinaryPosition)) (u : User)
      (pos : BinaryPosition) :
  NoDup (map fst plan) -> In (_id u, pos) plan -> isUnpositioned u = true ->
  assign plan u = setPosition pos u.
Proof.
  unfold assign. induction plan as [| [t q] plan IH]; intros Hnd Hin Hun; simpl in *;
    [tauto |].
  inversion Hnd as [| ? ? Hnotin Hnd']; subst. destruct Hin as [Heq | Hin].
  - injection Heq as -> ->. unfold upd at 2. rewrite Nat.eqb_refl, Hun. simpl.
    now apply (assign_positioned plan (setPosition pos u)).
  - unfold upd at 2. destruct (_id u =? t) eqn:Hid.
    + apply Nat.eqb_eq in Hid. exfalso. apply Hnotin. rewrite <- Hid.
      apply in_map_iff. now exists (_id u, pos).
    + simpl. now apply IH.
Qed.

Lemma backfillPlan_prefix (cs : list User) :
  map fst (backfillPlan cs)
  = firstn (length (backfillPlan cs)) (map _id (filter isUnpositioned cs)).
Proof.
  unfold backfillPlan.
  destruct (existsb (isPos Left) cs), (existsb (isPos Right) cs),
           (map _id (filter isUnpositioned cs)) as [| a [| b rest]]; reflexivity.
Qed.

Lemma backfillPlan_order (cs : list User) :
  In (map snd (backfillPlan cs)) [[]; [Left]; [Right]; [Left; Right]].
Proof.
  unfold backfillPlan.
  destruct (existsb (isPos Left) cs), (existsb (isPos Right) cs),
           (map _id (filter isUnpositioned cs)) as [| a [| b rest]]; simpl; tauto.
Qed.

Lemma NoDup_firstn (A : Type) (n : nat) (l : list A) : NoDup l -> NoDup (firstn n l).
Proof.
  intros H. rewrite <- (firstn_skipn n l) in H. now apply NoDup_app_remove_r in H.
Qed.

Lemma backfillPlan_targets_nodup (store : Store) (p : ObjectId) :
  NoDup (map _id store) -> NoDup (map fst (backfillPlan (findChildren store p))).
Proof.
  intros H. rewrite backfillPlan_prefix. apply NoDup_firstn.
  apply NoDup_map_filter. now apply findChildren_ids_nodup.
Qed.

Lemma bfs_fetched_bound (maxVisits : N) (fuel : nat) :
  forall store queue visited log,
    length log <= length visited ->
    (N.of_nat (length log) <= maxVisits)%N ->
    (N.of_nat (length (fetched (bfs maxVisits fuel store queue visited log)))
     <= maxVisits)%N.
Proof.
  induction fuel as [| fuel IH]; intros store queue visited log Hlen Hcap;
    [exact Hcap |].
  simpl. destruct queue as [| p queue]; [exact Hcap |].
  destruct (setHas p visited) eqn:Hp; [now apply IH |].
  rewrite (setAdd_fresh _ _ Hp).
  destruct (_ <? _)%N eqn:Hcheck; [exact Hcap |].
  apply N.ltb_ge in Hcheck.
  assert (Hlen' : length (log ++ [p]) <= length (visited ++ [p]))
    by (rewrite !length_app; simpl; lia).
  assert (Hcap' : (N.of_nat (length (log ++ [p])) <= maxVisits)%N) by lia.
  destruct (processNode store p) as [[missing | pushed] store']; [exact Hcap' |].
  now apply IH.
Qed.

Lemma missingAt_not_left (store : Store) (p : ObjectId) :
  missingAt store p <> Some Left ->
  exists u, In u store /\ parent u = Some p /\ position u <> Some Right.
Proof.
  intros H.
  destruct (existsb (fun u => hasParent p u && negb (isPos Right u)) store) eqn:E.
  - apply existsb_exists in E. destruct E as [u [Hin Hu]].
    apply andb_true_iff in Hu. destruct Hu as [Hp Hr].
    exists u. split; [assumption |]. split; [now apply hasParent_true |].
    intros Hpos. apply isPos_true in Hpos. rewrite Hpos in Hr. discriminate.
  - exfalso. apply H. apply missingAt_left. intros u Hin Hp.
    apply isPos_true. destruct (isPos Right u) eqn:Hr; [reflexivity |].
    assert (Hex : existsb (fun u => hasParent p u && negb (isPos Right u)) store = true).
    { apply existsb_exists. exists u. split; [assumption |].
      apply hasParent_true in Hp. now rewrite Hp, Hr. }
    congruence.
Qed.

Lemma index_same_document (store : Store) (u v : User) (p : ObjectId)
      (pos : BinaryPosition) :
  uniqueIndexOk store -> In u store -> In v store ->
  parent u = Some p -> position u = Some pos ->
  parent v = Some p -> position v = Some pos -> u = v.
Proof.
  unfold uniqueIndexOk, indexKeys.
  induction store as [| w rest IH]; simpl; [tauto |].
  intros Hnd Hu Hv Hup Hupos Hvp Hvpos.
  assert (Hkey : forall x, In x rest -> parent x = Some p -> position x = Some pos ->
                           In (p, pos) (flat_map indexKey rest)).
  { intros x Hx Hxp Hxpos. apply in_flat_map. exists x. split; [assumption |].
    unfold indexKey. rewrite Hxp, Hxpos. now left. }
  assert (Hhead : forall x, x = w -> parent x = Some p -> position x = Some pos ->
                            In (p, pos) (indexKey w)).
  { intros x -> Hxp Hxpos. unfold indexKey. rewrite Hxp, Hxpos. now left. }
  destruct Hu as [Hu | Hu], Hv as [Hv | Hv].
  - congruence.
  - exfalso. eapply NoDup_app_disjoint; [exact Hnd | |]; eauto.
  - exfalso. eapply NoDup_app_disjoint; [exact Hnd | |]; eauto.
  - apply IH; try assumption. now apply NoDup_app_remove_l in Hnd.
Qed.

(** A node with a left and a right child and no legacy surprise is full
    and pushes its left child first. *)
Lemma processNode_two_children (store : Store) (p : ObjectId) (uL uR : User) :
  uniqueIndexOk store ->
  In uL store -> parent uL = Some p -> position uL = Some Left ->
  In uR store -> parent uR = Some p -> position uR = Some Right ->
  exists rest, fst (processNode store p) = Full (_id uL :: rest).
Proof.
  intros Hidx HuL HpL HposL HuR HpR HposR.
  unfold processNode, backfilled.
  set (cs := findChildren store p).
  set (sc := scanChildren cs emptyScan).
  assert (HinL : In uL cs) by (apply In_findChildren; tauto).
  assert (HinR : In uR cs) by (apply In_findChildren; tauto).
  assert (Hl : exists l, leftChildId sc = Some l).
  { destruct (leftChildId sc) as [l |] eqn:E; [eauto |].
    apply (scan_empty_childId Left cs) in E.
    assert (existsb (isPos Left) cs = true)
      by (apply existsb_exists; exists uL; split; [assumption | now apply isPos_true]).
    congruence. }
  assert (Hr : exists r, rightChildId sc = Some r).
  { destruct (rightChildId sc) as [r |] eqn:E; [eauto |].
    apply (scan_empty_childId Right cs) in E.
    assert (existsb (isPos Right) cs = true)
      by (apply existsb_exists; exists uR; split; [assumption | now apply isPos_true]).
    congruence. }
  destruct Hl as [l Hl], Hr as [r Hr].
  assert (Heq : l = _id uL).
  { destruct (@scan_childId_in Left cs emptyScan l Hl) as [Habs | [c [Hc [Hid Hpos]]]];
      [discriminate |].
    apply In_findChildren in Hc. destruct Hc as [Hc Hcp].
    rewrite <- Hid. f_equal.
    exact (@index_same_document store c uL p Left Hidx Hc HuL Hcp Hpos HpL HposL). }
  pose proof (scan_consistent cs emptyScan_consistent) as Hcons. fold sc in Hcons.
  unfold backfillLeft. rewrite Hl. unfold backfillRight. rewrite Hr.
  assert (Hpick : pickMissingPosition (positions sc) = None).
  { apply pick_none_iff; [assumption | eauto]. }
  rewrite Hpick. simpl. rewrite Hl, Heq. simpl. eauto.
Qed.

(** *** The queue, level by level

    What the loop pushes: a node found full contributes the ids of its
    [queue.push] calls, in the order of the nodes of the level above.
    These are the code's lists; the levels of the tree itself are
    [treeLevel] below, and [pushedLevel_treeLevel] relates the two. *)

Definition pushedAt (store : Store) (n : ObjectId) : list ObjectId :=
  match fst (processNode store n) with
  | Full pushed => pushed
  | Found _ => []
  end.

Fixpoint pushedLevel (store : Store) (s : ObjectId) (k : nat) : list ObjectId :=
  match k with
  | O => [s]
  | S k' => flat_map (pushedAt store) (pushedLevel store s k')
  end.

Lemma pushedAt_children (store : Store) (n c : ObjectId) :
  NoDup (map _id store) -> In c (pushedAt store n) -> isChild store n c.
Proof.
  intros Hids. unfold pushedAt.
  destruct (processNode store n) as [[missing | pushed] store'] eqn:Hp; simpl; [tauto |].
  intros Hc. now apply (processNode_full_children store n Hids Hp).
Qed.

Lemma pushedAt_nodup (store : Store) (n : ObjectId) :
  NoDup (map _id store) -> NoDup (pushedAt store n).
Proof.
  intros Hids. unfold pushedAt.
  destruct (processNode store n) as [[missing | pushed] store'] eqn:Hp; simpl;
    [constructor |].
  now apply (processNode_full_children store n Hids Hp).
Qed.

Lemma pushedLevel_descends (store : Store) (s : ObjectId) (k : nat) (n : ObjectId) :
  NoDup (map _id store) -> In n (pushedLevel store s k) -> descends store s k n.
Proof.
  intros Hids. revert n. induction k as [| k IH]; simpl; intros n Hn.
  - destruct Hn as [<- | []]. constructor.
  - apply in_flat_map in Hn. destruct Hn as [m [Hm Hn]].
    apply descends_step with (m := m); [now apply IH | now apply pushedAt_children].
Qed.

Lemma one_parent (store : Store) (m m' n : ObjectId) :
  NoDup (map _id store) -> isChild store m n -> isChild store m' n -> m = m'.
Proof.
  intros Hids H H'. rewrite <- map_fst_idParent in Hids.
  pose proof (@idParent_functional _ _ _ _ Hids H H') as Heq. congruence.
Qed.

Lemma depth_unique (store : Store) (s : ObjectId) :
  NoDup (map _id store) ->
  (forall d, 0 < d -> ~ descends store s d s) ->
  forall a n b, descends store s a n -> descends store s b n -> a = b.
Proof.
  intros Hids Hacyc. induction a as [| a IH]; intros n b Ha Hb.
  - inversion Ha; subst. destruct b as [| b]; [reflexivity |].
    exfalso. apply (Hacyc (S b)); [lia | assumption].
  - inversion Ha as [| ? m ? Hm Hch]; subst. destruct b as [| b].
    + inversion Hb; subst. exfalso. apply (Hacyc (S a)); [lia | assumption].
    + inversion Hb as [| ? m' ? Hm' Hch']; subst.
      assert (m = m') by (eapply one_parent; eassumption). subst m'.
      f_equal. now apply (IH m).
Qed.

Section FirstInLevelOrder.

Variable store0 : Store.
Variable s : ObjectId.
Hypothesis ids0 : NoDup (map _id store0).
Hypothesis acyclic0 : forall d, 0 < d -> ~ descends store0 s d s.

(** The queue is the rest of level [k] followed by the children of the
    part of level [k] already examined. *)
Record orderInv (k : nat) (pre rest queue visited : list ObjectId) : Prop := {
  oi_level : pushedLevel store0 s k = pre ++ rest;
  oi_queue : queue = rest ++ flat_map (pushedAt store0) pre;
  oi_pre : forall n, In n pre -> In n visited;
  oi_below : forall j n, j < k -> In n (pushedLevel store0 s j) -> In n visited;
  oi_origin : forall n, In n visited ->
                        In n pre \/ exists j, j < k /\ In n (pushedLevel store0 s j);
  oi_full : forall n, In n visited -> missingAt store0 n = None;
  oi_nodup : NoDup (visited ++ queue)
}.

Lemma orderInv_initial : orderInv 0 [] [s] [s] [].
Proof.
  constructor; simpl; try tauto.
  - intros j n Hj. lia.
  - repeat constructor. simpl. tauto.
Qed.

Lemma orderInv_shift (k : nat) (pre queue visited : list ObjectId) :
  orderInv k pre [] queue visited ->
  orderInv (S k) [] queue queue visited.
Proof.
  intros [H1 H2 H3 H4 H5 H6 H7]. rewrite app_nil_r in H1. simpl in H2.
  constructor; simpl.
  - rewrite H1. now rewrite <- H2.
  - now rewrite app_nil_r.
  - tauto.
  - intros j n Hj Hn. destruct (Nat.eq_dec j k) as [-> | Hne].
    + apply H3. now rewrite <- H1.
    + apply (H4 j); [lia | assumption].
  - intros n Hn. right. destruct (H5 n Hn) as [Hpre | [j [Hj Hin]]].
    + exists k. split; [lia | now rewrite H1].
    + exists j. split; [lia | assumption].
  - exact H6.
  - exact H7.
Qed.

Lemma orderInv_head_fresh (k : nat) (x : ObjectId)
      (pre rest queue visited : list ObjectId) :
  orderInv k pre (x :: rest) queue visited -> ~ In x visited.
Proof.
  intros [H1 H2 H3 H4 H5 H6 H7] Hx. subst queue. simpl in H7.
  apply NoDup_remove_2 in H7. apply H7. apply in_or_app. now left.
Qed.

Lemma orderInv_full (k : nat) (x : ObjectId) (pre rest queue visited : list ObjectId) :
  orderInv k pre (x :: rest) (x :: queue) visited ->
  missingAt store0 x = None ->
  orderInv k (pre ++ [x]) rest (queue ++ pushedAt store0 x) (visited ++ [x]).
Proof.
  intros Hinv Hopen. pose proof (orderInv_head_fresh Hinv) as Hfresh.
  destruct Hinv as [H1 H2 H3 H4 H5 H6 H7].
  injection H2 as H2.
  assert (Hx : descends store0 s k x).
  { apply pushedLevel_descends; [assumption |]. rewrite H1. apply in_or_app.
    right. now left. }
  constructor.
  - rewrite H1. now rewrite <- app_assoc.
  - rewrite H2, flat_map_app. simpl. now rewrite app_nil_r, app_assoc.
  - intros n Hn. apply in_app_or in Hn. apply in_or_app.
    destruct Hn as [Hn | [<- | []]]; [left; now apply H3 | right; now left].
  - intros j n Hj Hn. apply in_or_app. left. now apply (H4 j).
  - intros n Hn. apply in_app_or in Hn. destruct Hn as [Hn | [<- | []]].
    + destruct (H5 n Hn) as [Hpre | Hbelow]; [left | now right].
      apply in_or_app. now left.
    + left. apply in_or_app. right. now left.
  - intros n Hn. apply in_app_or in Hn. destruct Hn as [Hn | [<- | []]]; auto.
  - rewrite app_assoc.
    apply NoDup_app.
    + replace ((visited ++ [x]) ++ queue) with (visited ++ x :: queue)
        by (rewrite <- app_assoc; reflexivity).
      exact H7.
    + now apply pushedAt_nodup.
    + intros c Hc Hkid.
      assert (Hcx : isChild store0 x c) by now apply pushedAt_children.
      assert (Hdc : descends store0 s (S k) c) by (eapply descends_step; eassumption).
      apply in_app_or in Hc. destruct Hc as [Hc | Hc].
      * apply in_app_or in Hc.
        assert (Hlow : exists j, j <= k /\ In c (pushedLevel store0 s j)).
        { destruct Hc as [Hc | [<- | []]].
          - destruct (H5 c Hc) as [Hpre | [j [Hj Hin]]].
            + exists k. split; [lia |]. rewrite H1. apply in_or_app. now left.
            + exists j. split; [lia | assumption].
          - exists k. split; [lia |]. rewrite H1. apply in_or_app. right. now left. }
        destruct Hlow as [j [Hj Hin]].
        apply pushedLevel_descends in Hin; [| assumption].
        pose proof (depth_unique ids0 acyclic0 Hin Hdc). lia.
      * rewrite H2 in Hc. apply in_app_or in Hc. destruct Hc as [Hc | Hc].
        -- assert (Hin : In c (pushedLevel store0 s k)).
           { rewrite H1. apply in_or_app. right. now right. }
           apply pushedLevel_descends in Hin; [| assumption].
           pose proof (depth_unique ids0 acyclic0 Hin Hdc). lia.
        -- apply in_flat_map in Hc. destruct Hc as [m [Hm Hc]].
           apply pushedAt_children in Hc; [| assumption].
           assert (m = x) by (eapply one_parent; eassumption). subst m.
           apply Hfresh. now apply H3.
Qed.

Lemma bfs_order (maxVisits : N) (fuel : nat) :
  forall store queue visited log,
    NoDup (map _id store) ->
    (forall n, ~ In n visited -> findChildren store n = findChildren store0 n) ->
    (exists k pre rest, orderInv k pre rest queue visited) ->
    forall p pos,
      outcome (bfs maxVisits fuel store queue visited log) = Placed p pos ->
      exists k pre post,
        pushedLevel store0 s k = pre ++ p :: post /\
        (forall j n, j < k -> In n (pushedLevel store0 s j) -> missingAt store0 n = None) /\
        (forall n, In n pre -> missingAt store0 n = None).
Proof.
  induction fuel as [| fuel IH];
    intros store queue visited log Hids Hframe Hinv p pos; [discriminate |].
  simpl. destruct queue as [| x queue]; [discriminate |].
  assert (Hnorm : exists k pre rest, orderInv k pre (x :: rest) (x :: queue) visited).
  { destruct Hinv as [k [pre [rest Hinv]]]. destruct rest as [| y rest].
    - apply orderInv_shift in Hinv. exists (S k), [], queue.
      pose proof (oi_queue Hinv) as Hq. rewrite app_nil_r in Hq. exact Hinv.
    - pose proof (oi_queue Hinv) as Hq. simpl in Hq. injection Hq as <- _.
      now exists k, pre, rest. }
  clear Hinv. destruct Hnorm as [k [pre [rest Hinv]]].
  pose proof (orderInv_head_fresh Hinv) as Hfresh.
  destruct (setHas x visited) eqn:Hv; [apply setHas_true in Hv; contradiction |].
  rewrite (setAdd_fresh _ _ Hv).
  destruct (_ <? _)%N; [discriminate |].
  pose proof (processNode_result store store0 x (Hframe x Hfresh)) as Hres.
  pose proof (processNode_ids store x) as Hids'.
  pose proof (fun n => @processNode_frame store x n Hids) as Hfr.
  destruct (processNode store x) as [[missing | pushed] store'] eqn:Hp; simpl in *.
  - intros Heq. injection Heq as <- <-. exists k, pre, rest.
    split; [apply (oi_level Hinv) | split].
    + intros j n Hj Hn. apply (oi_full Hinv). now apply (oi_below Hinv) with (j := j).
    + intros n Hn. apply (oi_full Hinv). now apply (oi_pre Hinv).
  - apply IH.
    + now rewrite Hids'.
    + intros n Hn. rewrite in_app_iff in Hn. simpl in Hn.
      rewrite Hfr by (intros ->; tauto). apply Hframe. tauto.
    + exists k, (pre ++ [x]), rest.
      assert (Hkids : pushedAt store0 x = pushed) by (unfold pushedAt; now rewrite <- Hres).
      rewrite <- Hkids. apply orderInv_full; [assumption |].
      unfold missingAt. now rewrite <- Hres.
Qed.

End FirstInLevelOrder.

Lemma bfs_fresh_step (maxVisits : N) (fuel : nat) (store : Store) (p : ObjectId)
      (queue visited log : list ObjectId) :
  setHas p visited = false ->
  (N.of_nat (length (visited ++ [p])) <= maxVisits)%N ->
  bfs maxVisits (S fuel) store (p :: queue) visited log
  = match processNode store p with
    | (Found missing, store') =>
        mkRun (Placed p missing) store' (visited ++ [p]) (log ++ [p])
    | (Full pushed, store') =>
        bfs maxVisits fuel store' (queue ++ pushed) (visited ++ [p]) (log ++ [p])
    end.
Proof.
  intros Hv Hcap. simpl. rewrite Hv, (setAdd_fresh _ _ Hv).
  apply N.ltb_ge in Hcap. now rewrite Hcap.
Qed.

(** The scenario of the design: both slots of the sponsor are taken and
    the left child has its left slot open. *)
Lemma left_child_left_slot (store : Store) (s : ObjectId) (uL uR : User) :
  NoDup (map _id store) -> uniqueIndexOk store ->
  In uL store -> parent uL = Some s -> position uL = Some Left ->
  In uR store -> parent uR = Some s -> position uR = Some Right ->
  _id uL <> s ->
  (forall c, In c store -> parent c = Some (_id uL) -> position c = Some Right) ->
  outcome (findBinaryPlacement store s) = Placed (_id uL) Left.
Proof.
  intros Hids Hidx HuL HpL HposL HuR HpR HposR Hne Hfree.
  destruct (@processNode_two_children store s uL uR) as [rest Hfull]; try assumption.
  unfold findBinaryPlacement, findBinaryPlacementWith, placementFuel.
  rewrite bfs_fresh_step; [| reflexivity | simpl; unfold MAX_VISITS; lia].
  pose proof (@processNode_frame store s (_id uL) Hids Hne) as Hframe.
  destruct (processNode store s) as [res store'] eqn:Hp. simpl in Hfull, Hframe.
  subst res. cbn [app].
  rewrite bfs_fresh_step; [| | simpl; unfold MAX_VISITS; lia].
  - pose proof (processNode_result store' store (_id uL) Hframe) as Hres.
    pose proof (@missingAt_left store (_id uL) Hfree) as Hopen.
    unfold missingAt in Hopen. rewrite <- Hres in Hopen.
    destruct (processNode store' (_id uL)) as [[missing | pushed] store''];
      simpl in *; congruence.
  - simpl. destruct (_id uL =? s) eqn:E; [| reflexivity].
    apply Nat.eqb_eq in E. contradiction.
Qed.

(** *** Slots and levels, read off the collection

    The notions the design speaks of, defined from the documents alone. *)

(** The slot of [n] a new member can take.  A node with two children or
    more has none.  A child without [position] counts for the first side
    that is not taken, left first (the backfill policy), so an only child
    leaves the right slot free unless it sits on the right itself. *)
Definition freeSlot (store : Store) (n : ObjectId) : option BinaryPosition :=
  match findChildren store n with
  | [] => Some Left
  | [c] => if isPos Right c then Some Left else Some Right
  | _ :: _ :: _ => None
  end.

(** The child of [n] stored on side [pos]. *)
Definition sideChild (store : Store) (n : ObjectId) (pos : BinaryPosition)
  : option ObjectId :=
  match filter (isPos pos) (findChildren store n) with
  | c :: _ => Some (_id c)
  | [] => None
  end.

(** The children of [n] from left to right: the left child, the right
    child, the unpositioned children standing in, oldest first, for a side
    without child, and the unpositioned children left over. *)
Definition leftToRight (store : Store) (n : ObjectId) : list ObjectId :=
  let legacy := map _id (legacyChildren store n) in
  match sideChild store n Left, sideChild store n Right with
  | Some l, Some r => l :: r :: legacy
  | Some l, None => l :: legacy
  | None, Some r =>
      match legacy with
      | a :: rest => a :: r :: rest
      | [] => [r]
      end
  | None, None => legacy
  end.

(** Level [k] of the subtree of [s], from left to right. *)
Fixpoint treeLevel (store : Store) (s : ObjectId) (k : nat) : list ObjectId :=
  match k with
  | O => [s]
  | S k' => flat_map (leftToRight store) (treeLevel store s k')
  end.

Lemma children_count (cs : list User) :
  length cs = length (filter (isPos Left) cs) + length (filter (isPos Right) cs)
              + length (filter isUnpositioned cs).
Proof.
  induction cs as [| c cs IH]; simpl; [reflexivity |].
  assert (H : (if isPos Left c then 1 else 0) + (if isPos Right c then 1 else 0)
              + (if isUnpositioned c then 1 else 0) = 1)
    by (unfold isPos, isUnpositioned; destruct (position c) as [[|] |]; reflexivity).
  destruct (isPos Left c), (isPos Right c), (isUnpositioned c); simpl in *; lia.
Qed.

Lemma existsb_filter_nil (A : Type) (f : A -> bool) (l : list A) :
  existsb f l = false -> filter f l = [].
Proof.
  induction l as [| a l IH]; simpl; [reflexivity |].
  destruct (f a); simpl; [discriminate | exact IH].
Qed.

(** With two children or more and at most one child per side, the backfill
    leaves no side without child. *)
Lemma backfillPlan_fills (cs : list User) (pos : BinaryPosition) :
  length (filter (isPos Left) cs) <= 1 ->
  length (filter (isPos Right) cs) <= 1 ->
  2 <= length cs ->
  existsb (isPos pos) cs = true \/ exists t, In (t, pos) (backfillPlan cs).
Proof.
  intros HL HR Hlen. pose proof (children_count cs) as Hcount.
  unfold backfillPlan.
  rewrite <- (length_map _id (filter isUnpositioned cs)) in Hcount.
  destruct (existsb (isPos Left) cs) eqn:EL, (existsb (isPos Right) cs) eqn:ER;
    try (apply existsb_filter_nil in EL; rewrite EL in Hcount);
    try (apply existsb_filter_nil in ER; rewrite ER in Hcount);
    destruct (map _id (filter isUnpositioned cs)) as [| a [| b rest]];
    simpl in *; destruct pos; try (left; reflexivity || assumption); try lia;
    right; eauto.
Qed.

Lemma missingAt_some (store : Store) (n : ObjectId) (pos : BinaryPosition) :
  missingAt store n = Some pos <->
  (existsb (isPos pos) (findChildren store n) = false /\
   forall t, ~ In (t, pos) (backfillPlan (findChildren store n))) /\
  (pos = Right ->
   ~ (existsb (isPos Left) (findChildren store n) = false /\
      forall t, ~ In (t, Left) (backfillPlan (findChildren store n)))).
Proof.
  rewrite missingAt_spec, <- !backfilled_side. simpl. tauto.
Qed.

(** What the loop body answers at a node is the node's free slot. *)
Lemma missingAt_freeSlot (store : Store) (n : ObjectId) :
  uniqueIndexOk store -> missingAt store n = freeSlot store n.
Proof.
  intros Hidx.
  assert (Hiff : forall pos, missingAt store n = Some pos <-> freeSlot store n = Some pos).
  { intros pos. rewrite missingAt_some. unfold freeSlot.
    pose proof (children_one_per_side n Left Hidx) as HL.
    pose proof (children_one_per_side n Right Hidx) as HR.
    destruct (findChildren store n) as [| c [| c2 rest]] eqn:E.
    - simpl. destruct pos; intuition (discriminate || congruence).
    - unfold backfillPlan, isPos, isUnpositioned. simpl.
      destruct (position c) as [[|] |]; simpl; destruct pos; simpl;
        (split;
         [ intros [[Hex Hplan] Hleft];
           first [ reflexivity | discriminate Hex
                 | exfalso; apply (Hplan (_id c)); now left
                 | exfalso; apply Hleft; [reflexivity |];
                   split; [reflexivity | intros t [Ht | []]; discriminate Ht] ]
         | intros Hfree;
           first
             [ discriminate Hfree
             | split;
               [ split; [reflexivity | intros t Ht; simpl in Ht; intuition discriminate]
               | intros Hr; first
                   [ discriminate Hr
                   | intros [Hex Hplan];
                     first [ discriminate Hex | apply (Hplan (_id c)); now left ] ] ] ] ]).
    - split; [| discriminate]. intros [[Hex Hplan] _]. exfalso.
      destruct (@backfillPlan_fills (c :: c2 :: rest) pos HL HR) as [H | [t H]];
        [simpl; lia | congruence | exact (Hplan t H)]. }
  destruct (missingAt store n) as [pos |] eqn:E1.
  - symmetry. now apply Hiff.
  - destruct (freeSlot store n) as [pos |] eqn:E2; [| reflexivity].
    destruct (Hiff pos) as [_ H]. discriminate (H eq_refl).
Qed.

(** A free slot is a slot no document of the collection holds. *)
Lemma freeSlot_unoccupied (store : Store) (n : ObjectId) (pos : BinaryPosition) :
  freeSlot store n = Some pos -> ~ In (n, pos) (indexKeys store).
Proof.
  unfold freeSlot. intros Hfree Hin. apply In_indexKeys in Hin.
  destruct Hin as [u [Hu [Hp Hpos]]].
  assert (Hc : In u (findChildren store n)) by (apply In_findChildren; tauto).
  destruct (findChildren store n) as [| c [| c2 rest]]; [destruct Hc | | discriminate].
  destruct Hc as [-> | []]. apply isPos_true in Hpos.
  destruct pos.
  - destruct (isPos Right u) eqn:ER; [| discriminate].
    unfold isPos in *. destruct (position u) as [[|] |]; discriminate.
  - rewrite Hpos in Hfree. discriminate.
Qed.

Lemma scan_side (pos : BinaryPosition) (cs : list User) :
  forall acc,
    length (filter (isPos pos) cs) <= 1 ->
    childIdAt pos (scanChildren cs acc)
    = match filter (isPos pos) cs with
      | c :: _ => Some (_id c)
      | [] => childIdAt pos acc
      end.
Proof.
  induction cs as [| c cs IH]; intros acc Hlen; simpl; [reflexivity |].
  simpl in Hlen.
  destruct (position c) as [q |] eqn:Hq.
  - assert (Hc : isPos pos c = position_eqb q pos) by (unfold isPos; now rewrite Hq).
    rewrite Hc in *. destruct (position_eqb q pos) eqn:Hqp.
    + simpl in Hlen.
      assert (Hnil : filter (isPos pos) cs = [])
        by (destruct (filter (isPos pos) cs); [reflexivity | simpl in Hlen; lia]).
      rewrite IH by (rewrite Hnil; simpl; lia). rewrite Hnil.
      destruct q, pos; simpl in *; congruence.
    + rewrite IH by exact Hlen.
      destruct (filter (isPos pos) cs); [| reflexivity].
      destruct q, pos; simpl in *; congruence.
  - assert (Hc : isPos pos c = false) by (unfold isPos; now rewrite Hq).
    rewrite Hc in *. rewrite IH by exact Hlen.
    destruct (filter (isPos pos) cs); [| reflexivity]. now destruct pos.
Qed.

(** The ids a full node pushes are its children from left to right. *)
Lemma pushList_leftToRight (store : Store) (n : ObjectId) :
  uniqueIndexOk store ->
  pushList (snd (backfilled store n)) = leftToRight store n.
Proof.
  intros Hidx. unfold leftToRight, sideChild, legacyChildren, backfilled.
  set (cs := findChildren store n).
  pose proof (@scan_side Left cs emptyScan (children_one_per_side n Left Hidx)) as HL.
  pose proof (@scan_side Right cs emptyScan (children_one_per_side n Right Hidx)) as HR.
  pose proof (scan_unpositioned cs emptyScan) as HU.
  simpl in HL, HR, HU. fold cs in HL, HR.
  set (sc := scanChildren cs emptyScan) in *.
  destruct (filter (isPos Left) cs) as [| l ?], (filter (isPos Right) cs) as [| r ?];
    rewrite <- HU; unfold backfillLeft, backfillRight, pushList;
    destruct (unpositioned sc) as [| a [| b rest]] eqn:EU;
    simpl; rewrite ?HL, ?HR, ?EU; simpl; rewrite ?HL, ?HR, ?EU; reflexivity.
Qed.

Lemma pushedAt_leftToRight (store : Store) (n : ObjectId) :
  uniqueIndexOk store -> missingAt store n = None ->
  pushedAt store n = leftToRight store n.
Proof.
  intros Hidx Hfull. rewrite <- pushList_leftToRight by assumption.
  unfold pushedAt, missingAt, processNode, pushList in *.
  destruct (backfilled store n) as [st sc]. simpl in *.
  destruct (pickMissingPosition (positions sc)); [discriminate | reflexivity].
Qed.

Lemma flat_map_agree (A B : Type) (f g : A -> list B) (l : list A) :
  (forall a, In a l -> f a = g a) -> flat_map f l = flat_map g l.
Proof.
  induction l as [| a l IH]; intros H; simpl; [reflexivity |].
  rewrite (H a) by now left. rewrite IH; [reflexivity |].
  intros b Hb. apply H. now right.
Qed.

Lemma pushedLevel_treeLevel (store : Store) (s : ObjectId) (k : nat) :
  uniqueIndexOk store ->
  (forall j n, j < k -> In n (pushedLevel store s j) -> missingAt store n = None) ->
  forall j, j <= k -> pushedLevel store s j = treeLevel store s j.
Proof.
  intros Hidx Hfull. induction j as [| j IH]; intros Hj; [reflexivity |].
  simpl. rewrite <- IH by lia.
  apply flat_map_agree. intros n Hn.
  apply pushedAt_leftToRight; [assumption |]. apply (Hfull j); [lia | assumption].
Qed.

Section WithinBound.

Variable store0 : Store.
Variable s : ObjectId.
Hypothesis index0 : uniqueIndexOk store0.

Variable maxVisits : N.
Variable depth : nat.
Variable open : ObjectId.
Variable universe : list ObjectId.
Hypothesis open_depth : descends store0 s depth open.
Hypothesis open_free : missingAt store0 open <> None.
Hypothesis universe_covers :
  forall j m, j <= depth -> descends store0 s j m -> In m universe.
Hypothesis universe_size : (N.of_nat (length universe) <= maxVisits)%N.

(** While a node with a free slot lies at depth [depth] and the nodes down
    to that depth number at most [maxVisits], the visit cap is not hit. *)
Lemma bfs_within_bound (fuel : nat) :
  forall store queue visited log,
    NoDup (map _id store) ->
    map idParent store = map idParent store0 ->
    (forall n, ~ In n visited -> findChildren store n = findChildren store0 n) ->
    (exists k q1 q2, queue = q1 ++ q2 /\ levelInv store0 s k q1 q2 visited) ->
    NoDup visited ->
    (forall v, In v visited -> exists j, j <= depth /\ descends store0 s j v) ->
    outcome (bfs maxVisits fuel store queue visited log) <> Threw ExceededSafeLimit.
Proof.
  induction fuel as [| fuel IH];
    intros store queue visited log Hids Hip Hframe Hinv Hnd Hshallow; [discriminate |].
  simpl. destruct queue as [| x queue]; [discriminate |].
  assert (Hnorm : exists k q1 q2, queue = q1 ++ q2 /\ levelInv store0 s k (x :: q1) q2 visited).
  { destruct Hinv as [k [q1 [q2 [Hq Hinv]]]]. destruct q1 as [| y q1].
    - simpl in Hq. subst q2. exists (S k), queue, []. rewrite app_nil_r.
      split; [reflexivity | now apply levelInv_shift].
    - injection Hq as -> ->. now exists k, q1, q2. }
  clear Hinv. destruct Hnorm as [k [q1 [q2 [-> Hinv]]]].
  destruct (setHas x visited) eqn:Hv.
  - apply setHas_true in Hv. apply IH; try assumption.
    exists k, q1, q2. split; [reflexivity | now apply levelInv_skip with (p := x)].
  - rewrite (setAdd_fresh _ _ Hv). apply setHas_false in Hv.
    assert (Hk : k <= depth).
    { destruct (le_lt_dec k depth) as [Hle | Hlt]; [assumption |].
      exfalso. apply open_free. apply (li_full Hinv).
      now apply (li_below Hinv) with (j := depth). }
    assert (Hx : descends store0 s k x) by (apply (li_q1 Hinv); now left).
    assert (Hnd' : NoDup (visited ++ [x])).
    { apply NoDup_app; [assumption | repeat constructor; simpl; tauto |].
      intros y Hy [-> | []]. auto. }
    assert (Hshallow' : forall v, In v (visited ++ [x]) ->
                                  exists j, j <= depth /\ descends store0 s j v).
    { intros v Hin. apply in_app_or in Hin. destruct Hin as [Hin | [<- | []]];
        [now apply Hshallow | exists k; tauto]. }
    assert (Hincl : incl (visited ++ [x]) universe).
    { intros v Hin. destruct (Hshallow' v Hin) as [j [Hj Hd]].
      now apply universe_covers with (j := j). }
    pose proof (NoDup_incl_length Hnd' Hincl) as Hlen.
    destruct (_ <? _)%N eqn:Hcap; [apply N.ltb_lt in Hcap; lia |].
    pose proof (processNode_result store store0 x (Hframe x Hv)) as Hres.
    pose proof (processNode_idParent store x) as Hip'.
    pose proof (processNode_ids store x) as Hids'.
    pose proof (fun n => @processNode_frame store x n Hids) as Hfr.
    destruct (processNode store x) as [[missing | pushed] store'] eqn:Hp; simpl in *;
      [discriminate |].
    apply IH; try assumption.
    + now rewrite Hids'.
    + now rewrite Hip'.
    + intros n Hn. rewrite in_app_iff in Hn. simpl in Hn.
      rewrite Hfr by (intros ->; tauto). apply Hframe. tauto.
    + exists k, q1, (q2 ++ pushed). split; [now rewrite app_assoc |].
      apply levelInv_full; [assumption | unfold missingAt; now rewrite <- Hres |].
      intros y. unfold isChild. rewrite <- Hip. fold (isChild store x y). split.
      * apply (processNode_full_children store x Hids Hp).
      * apply (@processNode_full_all_children store store' x pushed); [| exact Hp].
        intros side. rewrite (Hframe x Hv). now apply children_one_per_side.
Qed.

End WithinBound.

(** *** Sample collections *)

Definition member (i : ObjectId) (par : option ObjectId)
           (pos : option BinaryPosition) (t : nat) : User :=
  mkUser i EmptyString EmptyString par pos t.

(** Sponsor 1 with children 2 (left) and 3 (right); 2 has a right child
    only, 3 has a left child only. *)
Definition sampleTree : Store :=
  [ member 1 None None 0;
    member 2 (Some 1) (Some Left) 1;
    member 3 (Some 1) (Some Right) 2;
    member 4 (Some 2) (Some Right) 3;
    member 5 (Some 3) (Some Left) 4 ].

(** Parent 1 with three legacy children, stored out of creation order. *)
Definition legacyFamily : Store :=
  [ member 1 None None 0;
    member 2 (Some 1) None 5;
    member 3 (Some 1) None 3;
    member 4 (Some 1) None 9 ].

(** Two documents under one id, each the other's child: no collection
    with a primary key looks like this. *)
Definition duplicateIds : Store :=
  [ member 1 (Some 1) (Some Left) 0;
    member 1 (Some 1) (Some Right) 1 ].

Example sampleTree_placement :
  outcome (findBinaryPlacement sampleTree 1) = Placed 2 Left.
Proof. reflexivity. Qed.

Example legacyFamily_backfill :
  findBinaryPlacement legacyFamily 1
  = mkRun (Placed 3 Left)
          [ member 1 None None 0;
            member 2 (Some 1) (Some Right) 5;
            member 3 (Some 1) (Some Left) 3;
            member 4 (Some 1) None 9 ]
          [1; 3] [1; 3].
Proof. reflexivity. Qed.

Example cap_is_live :
  outcome (findBinaryPlacementWith 1 legacyFamily 1) = Threw ExceededSafeLimit.
Proof. reflexivity. Qed.

Example duplicate_ids_exhaust_queue :
  outcome (findBinaryPlacement duplicateIds 1) = Threw UnableToFind.
Proof. reflexivity. Qed.

Lemma same_id_same_document (store : Store) (u v : User) :
  NoDup (map _id store) -> In u store -> In v store -> _id u = _id v -> u = v.
Proof.
  induction store as [| w rest IH]; simpl; [tauto |].
  intros Hnd Hu Hv Heq. inversion Hnd as [| ? ? Hnotin Hnd']; subst.
  destruct Hu as [Hu | Hu], Hv as [Hv | Hv].
  - congruence.
  - exfalso. apply Hnotin. subst w. rewrite Heq. now apply in_map.
  - exfalso. apply Hnotin. subst w. rewrite <- Heq. now apply in_map.
  - now apply IH.
Qed.

(** *** A second backfill finds nothing left to do *)

Lemma upd_fields (t : ObjectId) (pos : BinaryPosition) (u : User) :
  parent (upd t pos u) = parent u /\ createdAt (upd t pos u) = createdAt u.
Proof. unfold upd. now destruct (_ && _). Qed.

Lemma assign_fields (plan : list (ObjectId * BinaryPosition)) (u : User) :
  parent (assign plan u) = parent u /\ createdAt (assign plan u) = createdAt u /\
  _id (assign plan u) = _id u.
Proof.
  unfold assign. revert u. induction plan as [| [t pos] plan IH]; intros u; simpl;
    [tauto |].
  destruct (IH (upd t pos u)) as [H1 [H2 H3]].
  destruct (upd_fields t pos u) as [H4 H5]. rewrite H1, H2, H3, H4, H5, upd_id. tauto.
Qed.

Lemma insertByCreatedAt_map (f : User -> User) (u : User) (l : list User) :
  (forall x, createdAt (f x) = createdAt x) ->
  insertByCreatedAt (f u) (map f l) = map f (insertByCreatedAt u l).
Proof.
  intros Hf. induction l as [| v l IH]; simpl; [reflexivity |].
  rewrite !Hf. destruct (createdAt u <=? createdAt v); simpl; [reflexivity |].
  now rewrite IH.
Qed.

Lemma findChildren_map (f : User -> User) (store : Store) (p : ObjectId) :
  (forall x, createdAt (f x) = createdAt x) -> (forall x, parent (f x) = parent x) ->
  findChildren (map f store) p = map f (findChildren store p).
Proof.
  intros Hc Hp. unfold findChildren.
  induction store as [| u rest IH]; simpl; [reflexivity |].
  unfold hasParent at 1 3. rewrite Hp. fold (hasParent p u).
  destruct (hasParent p u); simpl; [| exact IH].
  rewrite IH. now apply insertByCreatedAt_map.
Qed.

Lemma backfillPlan_settled (cs : list User) :
  existsb (isPos Left) cs = true ->
  existsb (isPos Right) cs = true \/ filter isUnpositioned cs = [] ->
  backfillPlan cs = [].
Proof.
  intros HL [HR | Hleg]; unfold backfillPlan; rewrite HL.
  - now rewrite HR.
  - rewrite Hleg. simpl. now destruct (existsb (isPos Right) cs).
Qed.

Lemma assign_keeps_side (plan : list (ObjectId * BinaryPosition)) (cs : list User)
      (pos : BinaryPosition) :
  existsb (isPos pos) cs = true -> existsb (isPos pos) (map (assign plan) cs) = true.
Proof.
  intros H. apply existsb_exists in H. destruct H as [c [Hc Hpos]].
  apply existsb_exists. exists c. split; [| assumption].
  apply in_map_iff. exists c. split; [| assumption].
  apply assign_positioned. unfold isUnpositioned. unfold isPos in Hpos.
  now destruct (position c).
Qed.

Lemma assign_fills_side (plan : list (ObjectId * BinaryPosition)) (cs : list User)
      (t : ObjectId) (pos : BinaryPosition) :
  NoDup (map fst plan) -> In (t, pos) plan ->
  In t (map _id (filter isUnpositioned cs)) ->
  existsb (isPos pos) (map (assign plan) cs) = true.
Proof.
  intros Hnd Hin Ht. apply in_map_iff in Ht. destruct Ht as [c [Hid Hc]].
  apply filter_In in Hc. destruct Hc as [Hc Hun]. subst t.
  apply existsb_exists. exists (setPosition pos c). split.
  - apply in_map_iff. exists c. split; [| assumption]. now apply assign_targeted.
  - apply isPos_true. reflexivity.
Qed.

Lemma assign_no_legacy (plan : list (ObjectId * BinaryPosition)) (cs : list User) :
  NoDup (map fst plan) ->
  (forall c, In c cs -> isUnpositioned c = true -> exists pos, In (_id c, pos) plan) ->
  filter isUnpositioned (map (assign plan) cs) = [].
Proof.
  intros Hnd Hall. induction cs as [| c cs IH]; simpl; [reflexivity |].
  rewrite IH by (intros x Hx; apply Hall; now right).
  destruct (isUnpositioned c) eqn:Hun.
  - destruct (Hall c (or_introl eq_refl) Hun) as [pos Hin].
    now rewrite (@assign_targeted plan c pos Hnd Hin Hun).
  - rewrite (@assign_positioned plan c Hun). now rewrite Hun.
Qed.

Lemma assign_nil_map (cs : list User) : map (assign []) cs = cs.
Proof. induction cs as [| c cs IH]; simpl; [reflexivity | now rewrite IH]. Qed.

Lemma backfill_idempotent (store : Store) (p : ObjectId) :
  NoDup (map _id store) ->
  snd (processNode (snd (processNode store p)) p) = snd (processNode store p).
Proof.
  intros Hids.
  assert (Hids' : NoDup (map _id (snd (processNode store p))))
    by now rewrite processNode_ids.
  rewrite (processNode_store (snd (processNode store p)) p), backfilled_plan.
  assert (Hplan : backfillPlan (findChildren (snd (processNode store p)) p) = []);
    [| now rewrite Hplan].
  rewrite processNode_store, backfilled_plan, applyUpdates_map by assumption.
  set (cs := findChildren store p).
  rewrite findChildren_map by (intros x; apply assign_fields). fold cs.
  pose proof (@backfillPlan_targets_nodup store p Hids) as Hnd. fold cs in Hnd.
  assert (Hcsids : NoDup (map _id cs)) by now apply findChildren_ids_nodup.
  remember (backfillPlan cs) as plan eqn:Hplan.
  unfold backfillPlan in Hplan.
  destruct (existsb (isPos Left) cs) eqn:EL, (existsb (isPos Right) cs) eqn:ER,
           (map _id (filter isUnpositioned cs)) as [| a [| b rest]] eqn:Eleg;
    subst plan;
    try (rewrite assign_nil_map; unfold backfillPlan; cbv zeta;
         rewrite ?EL, ?ER, ?Eleg; reflexivity).
  - apply backfillPlan_settled; [now apply assign_keeps_side | left].
    apply assign_fills_side with (t := a); simpl; auto. rewrite Eleg. now left.
  - apply backfillPlan_settled; [now apply assign_keeps_side | left].
    apply assign_fills_side with (t := a); simpl; auto. rewrite Eleg. now left.
  - apply backfillPlan_settled; [| left; now apply assign_keeps_side].
    apply assign_fills_side with (t := a); simpl; auto. rewrite Eleg. now left.
  - apply backfillPlan_settled; [| left; now apply assign_keeps_side].
    apply assign_fills_side with (t := a); simpl; auto. rewrite Eleg. now left.
  - apply backfillPlan_settled.
    + apply assign_fills_side with (t := a); simpl; auto. rewrite Eleg. now left.
    + right. apply assign_no_legacy; [assumption |].
      intros c Hc Hun. exists Left. left. f_equal.
      assert (Hin : In (_id c) (map _id (filter isUnpositioned cs))).
      { apply in_map. apply filter_In. tauto. }
      rewrite Eleg in Hin. destruct Hin as [-> | []]. reflexivity.
  - apply backfillPlan_settled.
    + apply assign_fills_side with (t := a); simpl; auto. rewrite Eleg. now left.
    + left. apply assign_fills_side with (t := b); simpl; auto.
      rewrite Eleg. right. now left.
Qed.

Lemma sampleTree_ids : NoDup (map _id sampleTree).
Proof. repeat constructor; simpl; lia. Defined.

Lemma sampleTree_index : uniqueIndexOk sampleTree.
Proof.
  unfold uniqueIndexOk. simpl.
  repeat constructor; simpl; intuition discriminate.
Defined.

Lemma legacyFamily_ids : NoDup (map _id legacyFamily).
Proof. repeat constructor; simpl; lia. Defined.

(** *** The claims about [findBinaryPlacement] *)

(** C9 — [findBinaryPlacement] terminates on every finite collection,
    cycles and malformed parent links included: the iteration budget
    [placementFuel] is never used up and any larger budget gives the same
    run; the children of a node are fetched at most once per call; and the
    number of nodes processed never exceeds the visit cap. *)
Theorem findBinaryPlacement_terminates (store : Store) (sponsorId : ObjectId) :
  outcome (findBinaryPlacement store sponsorId) <> OutOfFuel /\
  (forall fuel, placementFuel store <= fuel ->
     bfs MAX_VISITS fuel store [sponsorId] [] [] = findBinaryPlacement store sponsorId) /\
  NoDup (fetched (findBinaryPlacement store sponsorId)) /\
  (N.of_nat (length (fetched (findBinaryPlacement store sponsorId))) <= MAX_VISITS)%N.
Proof.
  assert (Hfuel : outcome (findBinaryPlacement store sponsorId) <> OutOfFuel)
    by apply bfs_fuel_enough, measure_initial.
  split; [exact Hfuel |]. split; [| split].
  - intros fuel Hle. now apply bfs_fuel_mono.
  - apply bfs_fetched_nodup; [constructor | apply incl_refl].
  - apply bfs_fetched_bound; simpl; [lia | unfold MAX_VISITS; lia].
Qed.

(** C5 — on a collection with unique [_id]s a call either returns a
    slot or throws the exceeded-safe-limit error, and it throws only with
    more than 200,000 nodes visited: the "Unable to find binary placement"
    throw after the loop is dead code.  With fewer than 200,000 members a
    slot is always returned. *)
Theorem placement_fails_only_on_cap (store : Store) (sponsorId : ObjectId) :
  NoDup (map _id store) ->
  ((exists p pos, outcome (findBinaryPlacement store sponsorId) = Placed p pos) \/
   (outcome (findBinaryPlacement store sponsorId) = Threw ExceededSafeLimit /\
    (MAX_VISITS < N.of_nat (length (visitedSet (findBinaryPlacement store sponsorId))))%N)) /\
  (forall e, outcome (findBinaryPlacement store sponsorId) = Threw e ->
             e = ExceededSafeLimit) /\
  ((N.of_nat (length store) < MAX_VISITS)%N ->
     exists p pos, outcome (findBinaryPlacement store sponsorId) = Placed p pos).
Proof.
  intros Hids.
  assert (Hunable : outcome (findBinaryPlacement store sponsorId) <> Threw UnableToFind).
  { apply bfs_never_unable; [assumption | constructor | intros v [] | discriminate]. }
  assert (Hfuel : outcome (findBinaryPlacement store sponsorId) <> OutOfFuel)
    by apply bfs_fuel_enough, measure_initial.
  pose proof (@bfs_exceeded MAX_VISITS (placementFuel store) store [sponsorId] [] [])
    as Hsize.
  fold (findBinaryPlacementWith MAX_VISITS store sponsorId) in Hsize.
  fold (findBinaryPlacement store sponsorId) in Hsize.
  split; [| split].
  - destruct (outcome (findBinaryPlacement store sponsorId)) as [p pos | [] |];
      try contradiction; [left; eauto | right; auto].
  - intros [] He; [reflexivity | contradiction].
  - intros Hlt.
    assert (Hcap : outcome (findBinaryPlacement store sponsorId) <> Threw ExceededSafeLimit).
    { apply bfs_under_cap with (universe := sponsorId :: map _id store).
      - simpl. rewrite length_map. lia.
      - constructor.
      - intros x [].
      - intros x [<- | []]. now left.
      - intros x Hx. now right. }
    destruct (outcome (findBinaryPlacement store sponsorId)) as [p pos | [] |];
      try contradiction; eauto.
Qed.

Lemma placement_fails_only_on_cap_witness :
  NoDup (map _id sampleTree) /\
  exists p pos, outcome (findBinaryPlacement sampleTree 1) = Placed p pos.
Proof.
  split; [exact sampleTree_ids |].
  destruct (@placement_fails_only_on_cap sampleTree 1 sampleTree_ids) as [_ [_ H]].
  apply H. reflexivity.
Defined.

(** C3 — on a collection with unique ids that respects the
    [(parent, position)] index.  A returned slot is held by no document,
    neither in the collection as given nor in the collection the search
    leaves behind; it belongs to a descendant of the sponsor at the
    shallowest depth at which a node has a free slot, every node above
    having two children or more; and it is that node's free slot, the left
    one unless the node's only child is on the left or unpositioned.
    Whenever some node of the subtree has a free slot and the nodes down to
    its depth number at most 200,000, a slot is returned.  A sponsor with
    both slots taken whose left child has its left slot free gets the left
    child's left slot.  And, the sponsor not being its own descendant, the
    returned parent is the first node with a free slot in level order,
    left to right: every node of a level above, and every node before it
    on its own level, has none. *)
Theorem placement_shallowest_leftmost (store : Store) (sponsorId : ObjectId) :
  NoDup (map _id store) -> uniqueIndexOk store ->
  (forall p pos,
     outcome (findBinaryPlacement store sponsorId) = Placed p pos ->
     ~ In (p, pos) (indexKeys store) /\
     ~ In (p, pos) (indexKeys (finalStore (findBinaryPlacement store sponsorId))) /\
     exists d,
       descends store sponsorId d p /\
       freeSlot store p = Some pos /\
       (pos = Right ->
        exists u, In u store /\ parent u = Some p /\ position u <> Some Right) /\
       forall j n, j < d -> descends store sponsorId j n -> freeSlot store n = None) /\
  (forall d n universe,
     descends store sponsorId d n -> freeSlot store n <> None ->
     (forall j m, j <= d -> descends store sponsorId j m -> In m universe) ->
     (N.of_nat (length universe) <= MAX_VISITS)%N ->
     exists p pos, outcome (findBinaryPlacement store sponsorId) = Placed p pos) /\
  (forall uL uR,
     In uL store -> parent uL = Some sponsorId -> position uL = Some Left ->
     In uR store -> parent uR = Some sponsorId -> position uR = Some Right ->
     _id uL <> sponsorId ->
     (forall c, In c store -> parent c = Some (_id uL) -> position c = Some Right) ->
     outcome (findBinaryPlacement store sponsorId) = Placed (_id uL) Left) /\
  ((forall d, 0 < d -> ~ descends store sponsorId d sponsorId) ->
   forall p pos,
     outcome (findBinaryPlacement store sponsorId) = Placed p pos ->
     exists k pre post,
       treeLevel store sponsorId k = pre ++ p :: post /\
       (forall j n, j < k -> In n (treeLevel store sponsorId j) ->
                    freeSlot store n = None) /\
       (forall n, In n pre -> freeSlot store n = None)).
Proof.
  intros Hids Hidx. split; [| split; [| split]].
  - intros p pos Hout.
    destruct (@bfs_level store sponsorId Hidx MAX_VISITS (placementFuel store)
                store [sponsorId] [] [] Hids eq_refl (fun _ _ => eq_refl))
      with (p := p) (pos := pos) as [d [Hd [Hopen Hmin]]].
    + exists 0, [sponsorId], []. split; [reflexivity | apply levelInv_initial].
    + exact Hout.
    + pose proof Hopen as Hfree. rewrite missingAt_freeSlot in Hfree by assumption.
      split; [now apply freeSlot_unoccupied |]. split.
      * now apply (@bfs_index MAX_VISITS (placementFuel store) store [sponsorId] [] []
                     Hids Hidx).
      * exists d. split; [assumption |]. split; [assumption |]. split.
        -- intros ->. apply missingAt_not_left. congruence.
        -- intros j n Hj Hn. rewrite <- missingAt_freeSlot by assumption.
           now apply (Hmin j).
  - intros d n universe Hd Hfree Hcover Hsize.
    assert (Hcap : outcome (findBinaryPlacement store sponsorId) <> Threw ExceededSafeLimit).
    { apply (@bfs_within_bound store sponsorId Hidx MAX_VISITS d n universe);
        try assumption; try reflexivity.
      - now rewrite missingAt_freeSlot.
      - exists 0, [sponsorId], []. split; [reflexivity | apply levelInv_initial].
      - constructor.
      - intros v []. }
    assert (Hunable : outcome (findBinaryPlacement store sponsorId) <> Threw UnableToFind).
    { apply bfs_never_unable; [assumption | constructor | intros v [] | discriminate]. }
    assert (Hfuel : outcome (findBinaryPlacement store sponsorId) <> OutOfFuel)
      by apply bfs_fuel_enough, measure_initial.
    destruct (outcome (findBinaryPlacement store sponsorId)) as [p pos | [] |];
      try contradiction; eauto.
  - intros uL uR. now apply left_child_left_slot.
  - intros Hacyc p pos Hout.
    destruct (@bfs_order store sponsorId Hids Hacyc MAX_VISITS (placementFuel store)
                store [sponsorId] [] [] Hids (fun _ _ => eq_refl))
      with (p := p) (pos := pos) as [k [pre [post [Hlevel [Hbelow Hpre]]]]].
    + exists 0, [], [sponsorId]. apply orderInv_initial.
    + exact Hout.
    + pose proof (@pushedLevel_treeLevel store sponsorId k Hidx Hbelow) as Hsame.
      exists k, pre, post. split; [| split].
      * rewrite <- Hsame by lia. exact Hlevel.
      * intros j n Hj Hn. rewrite <- missingAt_freeSlot by assumption.
        apply (Hbelow j); [assumption |]. rewrite Hsame by lia. exact Hn.
      * intros n Hn. rewrite <- missingAt_freeSlot by assumption. now apply Hpre.
Qed.

Lemma sampleTree_acyclic : forall d, 0 < d -> ~ descends sampleTree 1 d 1.
Proof.
  intros d Hd H. inversion H as [| d' m n Hm Hch]; subst; [lia |].
  unfold isChild in Hch. simpl in Hch.
  repeat (destruct Hch as [Hch | Hch]; [discriminate Hch |]). destruct Hch.
Defined.

(** In [sampleTree] the nodes down to depth one are 1, 2 and 3. *)
Lemma sampleTree_top (j : nat) (m : ObjectId) :
  j <= 1 -> descends sampleTree 1 j m -> In m [1; 2; 3].
Proof.
  intros Hj Hd. inversion Hd as [| d m' n Hm Hch]; subst; [now left |].
  assert (d = 0) by lia. subst d. inversion Hm; subst.
  unfold isChild in Hch. simpl in Hch.
  repeat (destruct Hch as [Hch | Hch];
          [try discriminate Hch; injection Hch as <-; simpl; tauto |]).
  destruct Hch.
Defined.

Lemma placement_shallowest_leftmost_witness :
  NoDup (map _id sampleTree) /\ uniqueIndexOk sampleTree /\
  outcome (findBinaryPlacement sampleTree 1) = Placed 2 Left /\
  ~ In (2, Left) (indexKeys sampleTree) /\
  (exists p pos, outcome (findBinaryPlacement sampleTree 1) = Placed p pos) /\
  exists k pre post,
    treeLevel sampleTree 1 k = pre ++ 2 :: post /\
    (forall j n, j < k -> In n (treeLevel sampleTree 1 j) ->
                 freeSlot sampleTree n = None) /\
    (forall n, In n pre -> freeSlot sampleTree n = None).
Proof.
  split; [exact sampleTree_ids |]. split; [exact sampleTree_index |].
  destruct (@placement_shallowest_leftmost sampleTree 1 sampleTree_ids sampleTree_index)
    as [Hslot [Hbound [H Horder]]].
  assert (Hout : outcome (findBinaryPlacement sampleTree 1) = Placed 2 Left).
  { apply (H (member 2 (Some 1) (Some Left) 1) (member 3 (Some 1) (Some Right) 2));
      simpl; try tauto; try lia.
    intros c Hc Hp.
    repeat (destruct Hc as [<- | Hc]; [simpl in *; congruence |]). destruct Hc. }
  split; [exact Hout |].
  split; [exact (proj1 (Hslot 2 Left Hout)) |].
  split.
  - apply (Hbound 1 2 [1; 2; 3]).
    + apply descends_step with (m := 1); [constructor |].
      unfold isChild. simpl. tauto.
    + discriminate.
    + exact sampleTree_top.
    + unfold MAX_VISITS. simpl. lia.
  - exact (Horder sampleTree_acyclic 2 Left Hout).
Defined.

Example sampleTree_levels :
  treeLevel sampleTree 1 0 = [1] /\ treeLevel sampleTree 1 1 = [2; 3] /\
  treeLevel sampleTree 1 2 = [4; 5] /\
  freeSlot sampleTree 1 = None /\ freeSlot sampleTree 2 = Some Left /\
  freeSlot sampleTree 3 = Some Right.
Proof. repeat split; reflexivity. Qed.

(** The free slot of a node with a left child only is the right one; the
    left one is held by the child. *)
Example left_taken_right_free :
  let store := [member 1 None None 0; member 2 (Some 1) (Some Left) 1] in
  In (1, Left) (indexKeys store) /\ freeSlot store 1 = Some Right /\
  outcome (findBinaryPlacement store 1) = Placed 1 Right.
Proof. simpl. split; [now left | split; reflexivity]. Qed.

(** Legacy children: the oldest unpositioned child stands for the left
    side, the next for the right side, and the third is queued after
    them. *)
Example legacyFamily_levels :
  freeSlot legacyFamily 1 = None /\ leftToRight legacyFamily 1 = [3; 2; 4] /\
  treeLevel legacyFamily 1 1 = [3; 2; 4] /\ freeSlot legacyFamily 3 = Some Left.
Proof. repeat split; reflexivity. Qed.

(** C6 — the backfill run while a parent is examined is the design's
    policy: the writes are the conditional updates of [backfillPlan], at
    most two of them; their targets are the oldest unpositioned children
    in creation order, left before right, a side being assigned only when
    no child occupied it; every other document is left as it was, so a
    third legacy child keeps [position = null]; the
    [(parent, position)] index stays respected; and examining the same
    parent again assigns nothing more. *)
Theorem backfill_policy (store : Store) (p : ObjectId) :
  NoDup (map _id store) ->
  let plan := backfillPlan (findChildren store p) in
  let store' := snd (processNode store p) in
  store' = applyUpdates plan store /\
  store' = map (assign plan) store /\
  length plan <= 2 /\
  StronglySorted olderEq (legacyChildren store p) /\
  map fst plan = firstn (length plan) (map _id (legacyChildren store p)) /\
  In (map snd plan) [[]; [Left]; [Right]; [Left; Right]] /\
  (forall t pos, In (t, pos) plan -> ~ In (p, pos) (indexKeys store)) /\
  (forall a b rest,
     ~ In (p, Left) (indexKeys store) -> ~ In (p, Right) (indexKeys store) ->
     map _id (legacyChildren store p) = a :: b :: rest ->
     plan = [(a, Left); (b, Right)]) /\
  (forall u pos,
     In u store -> In (_id u, pos) plan ->
     parent u = Some p /\ position u = None /\ assign plan u = setPosition pos u) /\
  (forall u, In u store -> ~ In (_id u) (map fst plan) -> assign plan u = u) /\
  (uniqueIndexOk store -> uniqueIndexOk store') /\
  snd (processNode store' p) = store'.
Proof.
  intros Hids plan store'. subst plan.
  assert (Hst : store' = fst (backfilled store p)) by apply processNode_store.
  repeat match goal with |- _ /\ _ => split end.
  - rewrite Hst. apply backfilled_plan.
  - rewrite Hst, backfilled_plan. now apply applyUpdates_map.
  - apply backfillPlan_length.
  - apply legacyChildren_sorted.
  - apply backfillPlan_prefix.
  - apply backfillPlan_order.
  - intros t pos Hin. apply backfillPlan_targets in Hin.
    now apply existsb_isPos_false.
  - intros a b rest HL HR Hleg. unfold backfillPlan, legacyChildren in *.
    apply existsb_isPos_false in HL, HR. now rewrite HL, HR, Hleg.
  - intros u pos Hu Hin.
    pose proof Hin as Htarget. apply backfillPlan_targets in Htarget.
    destruct Htarget as [Htarget _]. apply in_map_iff in Htarget.
    destruct Htarget as [c [Hid Hc]]. apply filter_In in Hc.
    destruct Hc as [Hc Hun]. apply In_findChildren in Hc. destruct Hc as [Hc Hcp].
    assert (c = u) by (now apply (same_id_same_document store)). subst c.
    split; [assumption |]. split.
    + unfold isUnpositioned in Hun. now destruct (position u).
    + apply assign_targeted; [now apply backfillPlan_targets_nodup | assumption ..].
  - intros u _ Hu. now apply assign_untargeted.
  - intros Hidx. rewrite Hst. now apply backfilled_index.
  - subst store'. now apply backfill_idempotent.
Qed.

Lemma backfill_policy_witness :
  NoDup (map _id legacyFamily) /\
  snd (processNode legacyFamily 1)
  = [ member 1 None None 0;
      member 2 (Some 1) (Some Right) 5;
      member 3 (Some 1) (Some Left) 3;
      member 4 (Some 1) None 9 ].
Proof.
  split; [exact legacyFamily_ids |].
  destruct (@backfill_policy legacyFamily 1 legacyFamily_ids) as [_ [H _]].
  rewrite H. reflexivity.
Defined.

End Placement.

(** ** Registration ([app/api/auth/register/route.ts] and
       [app.post("/api/auth/register")] in [routes.ts]) *)
Module Registration.

Import Placement.

(** The parsed [registerSchema] body, as far as the database calls of the
    handler read it.  Emails are taken in the lower case the schema stores
    them in. *)
Record RegisterBody : Type := mkBody {
  bodyName : string;
  bodyEmail : string;
  bodyReferralCode : option string
}.

(** What a request takes from outside the collection: the ObjectId the
    driver gives the new document, the codes [randomCode] draws, one per
    attempt of [generateUniqueReferralCode], and the clock. *)
Record Draws : Type := mkDraws {
  newId : ObjectId;
  drawnCodes : list string;
  now : nat
}.

Inductive IndexName : Type :=
| IdIndex | EmailIndex | ReferralCodeIndex | ParentPositionIndex.

Inductive RegisterError : Type :=
| EmailInUse                          (* 409 "Email already in use" *)
| InvalidReferralCode                 (* 400 "Invalid referral code" *)
| PlacementThrew (e : PlacementError) (* 400, the message of the throw *)
| PlacementDidNotFinish               (* the search ran out of iteration budget *)
| CodeGenerationFailed                (* 400 "Unable to generate unique referral code" *)
| DuplicateKey (i : IndexName).       (* 400, E11000 from [UserModel.create] *)

Inductive Response : Type :=
| Created (user : User)
| Rejected (status : nat) (e : RegisterError).

(** [UserModel.findOne({ referralCode })]. *)
Definition findByReferralCode (store : Store) (code : string) : option User :=
  find (fun u => String.eqb (referralCode u) code) store.

(** [UserModel.findOne({ email })]. *)
Definition findByEmail (store : Store) (e : string) : option User :=
  find (fun u => String.eqb (email u) e) store.

(** [generateUniqueReferralCode]: up to ten draws, the first code no user
    has is returned. *)
Definition generateUniqueReferralCode (store : Store) (draws : list string)
  : option string :=
  find (fun c => match findByReferralCode store c with None => true | Some _ => false end)
       (firstn 10 draws).

Definition key_eqb (a b : ObjectId * BinaryPosition) : bool :=
  (fst a =? fst b) && position_eqb (snd a) (snd b).

(** Whether inserting [doc] would break the partial unique index on
    [(parent, position)]. *)
Definition slotTaken (store : Store) (doc : User) : bool :=
  existsb (fun k => existsb (key_eqb k) (indexKeys store)) (indexKey doc).

(** [UserModel.create(doc)]: the insert is refused when a unique index
    already holds the document's key. *)
Definition create (store : Store) (doc : User) : IndexName + Store :=
  if existsb (fun u => _id u =? _id doc) store then inl IdIndex
  else if existsb (fun u => String.eqb (email u) (email doc)) store then inl EmailIndex
  else if existsb (fun u => String.eqb (referralCode u) (referralCode doc)) store
       then inl ReferralCodeIndex
  else if slotTaken store doc then inl ParentPositionIndex
  else inr (store ++ [doc]).

(** The tail of the handler, from [generateUniqueReferralCode] to the
    response. *)
Definition insertUser (store : Store) (body : RegisterBody) (draws : Draws)
           (parentId : option ObjectId) (pos : option BinaryPosition)
  : Response * Store :=
  match generateUniqueReferralCode store (drawnCodes draws) with
  | None => (Rejected 400 CodeGenerationFailed, store)
  | Some code =>
      let doc := mkUser (newId draws) (bodyEmail body) code parentId pos (now draws) in
      match create store doc with
      | inl i => (Rejected 400 (DuplicateKey i), store)
      | inr store' => (Created doc, store')
      end
  end.

(** The handler.  [others] stands for the writes of other requests that
    land between the placement search and the insert; a request that runs
    alone has [others = fun st => st]. *)
Definition registerWith (others : Store -> Store) (store : Store)
           (body : RegisterBody) (draws : Draws) : Response * Store :=
  match findByEmail store (bodyEmail body) with
  | Some _ => (Rejected 409 EmailInUse, store)
  | None =>
      match bodyReferralCode body with
      | None => insertUser (others store) body draws None None
      | Some code =>
          match findByReferralCode store code with
          | None => (Rejected 400 InvalidReferralCode, store)
          | Some sponsor =>
              let run := findBinaryPlacement store (_id sponsor) in
              match outcome run with
              | Placed parentId pos =>
                  insertUser (others (finalStore run)) body draws
                             (Some parentId) (Some pos)
              | Threw e => (Rejected 400 (PlacementThrew e), finalStore run)
              | OutOfFuel => (Rejected 400 PlacementDidNotFinish, finalStore run)
              end
          end
      end
  end.

Definition register : Store -> RegisterBody -> Draws -> Response * Store :=
  registerWith (fun st => st).

(** Requests served one after the other. *)
Fixpoint registerAll (store : Store) (requests : list (RegisterBody * Draws))
  : list Response * Store :=
  match requests with
  | [] => ([], store)
  | (body, draws) :: rest =>
      let (r, store1) := register store body draws in
      let (rs, store2) := registerAll store1 rest in
      (r :: rs, store2)
  end.

(** *** The invariants of the collection *)

(** Unique [_id]s and the unique partial index: what MongoDB maintains on
    the users collection. *)
Definition wellFormed (store : Store) : Prop :=
  NoDup (map _id store) /\ uniqueIndexOk store.

Lemma key_eqb_true (a b : ObjectId * BinaryPosition) : key_eqb a b = true <-> a = b.
Proof.
  destruct a as [p x], b as [q y]. unfold key_eqb. simpl.
  rewrite andb_true_iff, Nat.eqb_eq. destruct x, y; simpl; intuition congruence.
Qed.

Lemma slotTaken_false (store : Store) (doc : User) :
  slotTaken store doc = false ->
  forall k, In k (indexKey doc) -> ~ In k (indexKeys store).
Proof.
  unfold slotTaken. intros H k Hk Hin.
  assert (Htrue : existsb (fun k => existsb (key_eqb k) (indexKeys store)) (indexKey doc)
                  = true).
  { apply existsb_exists. exists k. split; [assumption |].
    apply existsb_exists. exists k. split; [assumption | now apply key_eqb_true]. }
  congruence.
Qed.

Lemma slotTaken_free (store : Store) (doc : User) :
  (forall k, In k (indexKey doc) -> ~ In k (indexKeys store)) ->
  slotTaken store doc = false.
Proof.
  unfold slotTaken. intros H.
  destruct (existsb _ (indexKey doc)) eqn:E; [| reflexivity].
  apply existsb_exists in E. destruct E as [k [Hk Hin]].
  apply existsb_exists in Hin. destruct Hin as [k' [Hk' Heq]].
  apply key_eqb_true in Heq. subst k'. exfalso. exact (H k Hk Hk').
Qed.

Lemma indexKey_nodup (doc : User) : NoDup (indexKey doc).
Proof.
  unfold indexKey. destruct (parent doc), (position doc); repeat constructor; simpl; tauto.
Qed.

Lemma create_wellFormed (store store' : Store) (doc : User) :
  wellFormed store -> create store doc = inr store' -> wellFormed store'.
Proof.
  intros [Hids Hidx]. unfold create.
  destruct (existsb (fun u => _id u =? _id doc) store) eqn:Eid; [discriminate |].
  destruct (existsb (fun u => String.eqb (email u) (email doc)) store); [discriminate |].
  destruct (existsb (fun u => String.eqb (referralCode u) (referralCode doc)) store);
    [discriminate |].
  destruct (slotTaken store doc) eqn:Eslot; [discriminate |].
  intros Heq. injection Heq as <-. split.
  - rewrite map_app. simpl. apply NoDup_app; [assumption | repeat constructor; simpl; tauto |].
    intros x Hx [<- | []]. apply in_map_iff in Hx. destruct Hx as [u [Hu Hin]].
    assert (Htrue : existsb (fun u => _id u =? _id doc) store = true).
    { apply existsb_exists. exists u. split; [assumption | now apply Nat.eqb_eq]. }
    congruence.
  - unfold uniqueIndexOk, indexKeys. rewrite flat_map_app. simpl. rewrite app_nil_r.
    apply NoDup_app; [assumption | apply indexKey_nodup |].
    intros k Hk Hk'. exact (slotTaken_false _ _ Eslot k Hk' Hk).
Qed.

Lemma insertUser_wellFormed (store : Store) (body : RegisterBody) (draws : Draws)
      (parentId : option ObjectId) (pos : option BinaryPosition) :
  wellFormed store -> wellFormed (snd (insertUser store body draws parentId pos)).
Proof.
  intros Hwf. unfold insertUser.
  destruct (generateUniqueReferralCode store (drawnCodes draws)) as [code |];
    [| exact Hwf].
  destruct (create store _) as [i | store'] eqn:Hc; simpl; [exact Hwf |].
  eapply create_wellFormed; eassumption.
Qed.

Lemma insertUser_no_conflict (store : Store) (body : RegisterBody) (draws : Draws)
      (parentId : option ObjectId) (pos : option BinaryPosition) (status : nat) :
  (forall p x, parentId = Some p -> pos = Some x -> ~ In (p, x) (indexKeys store)) ->
  fst (insertUser store body draws parentId pos)
  <> Rejected status (DuplicateKey ParentPositionIndex).
Proof.
  intros Hfree. unfold insertUser.
  destruct (generateUniqueReferralCode store (drawnCodes draws)) as [code |];
    [| discriminate].
  set (doc := mkUser (newId draws) (bodyEmail body) code parentId pos (now draws)).
  assert (Hslot : slotTaken store doc = false).
  { apply slotTaken_free. unfold indexKey, doc. simpl.
    destruct parentId as [p |], pos as [x |]; simpl; try tauto.
    intros k [<- | []]. now apply Hfree. }
  unfold create. rewrite Hslot.
  destruct (existsb (fun u => _id u =? _id doc) store); [discriminate |].
  destruct (existsb (fun u => String.eqb (email u) (email doc)) store); [discriminate |].
  destruct (existsb (fun u => String.eqb (referralCode u) (referralCode doc)) store);
    discriminate.
Qed.

Lemma findBinaryPlacement_wellFormed (store : Store) (sponsorId : ObjectId) :
  wellFormed store ->
  wellFormed (finalStore (findBinaryPlacement store sponsorId)) /\
  forall p pos,
    outcome (findBinaryPlacement store sponsorId) = Placed p pos ->
    ~ In (p, pos) (indexKeys (finalStore (findBinaryPlacement store sponsorId))).
Proof.
  intros [Hids Hidx]. unfold findBinaryPlacement, findBinaryPlacementWith.
  destruct (@bfs_index MAX_VISITS (placementFuel store) store [sponsorId] [] []
                       Hids Hidx) as [Hidx' Hfree].
  split; [split |]; try assumption.
  rewrite <- map_fst_idParent, bfs_idParent, map_fst_idParent. exact Hids.
Qed.

Lemma register_wellFormed (store : Store) (body : RegisterBody) (draws : Draws) :
  wellFormed store -> wellFormed (snd (register store body draws)).
Proof.
  intros Hwf. unfold register, registerWith.
  destruct (findByEmail store (bodyEmail body)); [exact Hwf |].
  destruct (bodyReferralCode body) as [code |];
    [| now apply insertUser_wellFormed].
  destruct (findByReferralCode store code) as [sponsor |]; [| exact Hwf].
  destruct (findBinaryPlacement_wellFormed (_id sponsor) Hwf) as [Hwf' _].
  destruct (outcome (findBinaryPlacement store (_id sponsor)));
    [now apply insertUser_wellFormed | exact Hwf' | exact Hwf'].
Qed.

Lemma register_no_conflict (store : Store) (body : RegisterBody) (draws : Draws)
      (status : nat) :
  wellFormed store ->
  fst (register store body draws) <> Rejected status (DuplicateKey ParentPositionIndex).
Proof.
  intros Hwf. unfold register, registerWith.
  destruct (findByEmail store (bodyEmail body)); [discriminate |].
  destruct (bodyReferralCode body) as [code |].
  - destruct (findByReferralCode store code) as [sponsor |]; [| discriminate].
    destruct (findBinaryPlacement_wellFormed (_id sponsor) Hwf) as [_ Hfree].
    destruct (outcome (findBinaryPlacement store (_id sponsor))) as [p x | e |];
      [| discriminate | discriminate].
    apply insertUser_no_conflict. intros p' x' Hp Hx.
    injection Hp as <-. injection Hx as <-. now apply Hfree.
  - apply insertUser_no_conflict. discriminate.
Qed.

Lemma registerAll_wellFormed (requests : list (RegisterBody * Draws)) :
  forall store,
    wellFormed store ->
    wellFormed (snd (registerAll store requests)) /\
    forall status,
      ~ In (Rejected status (DuplicateKey ParentPositionIndex))
           (fst (registerAll store requests)).
Proof.
  induction requests as [| [body draws] rest IH]; intros store Hwf; simpl.
  - split; [exact Hwf | tauto].
  - pose proof (register_wellFormed body draws Hwf) as Hwf1.
    pose proof (fun st => @register_no_conflict store body draws st Hwf) as Hno.
    destruct (register store body draws) as [r store1]. simpl in *.
    destruct (IH store1 Hwf1) as [Hwf2 Hno2].
    destruct (registerAll store1 rest) as [rs store2]. simpl in *.
    split; [exact Hwf2 |]. intros status [Heq | Hin].
    + exact (Hno status Heq).
    + exact (Hno2 status Hin).
Qed.

(** *** Sample requests *)

Definition sponsorOnly : Store :=
  [ mkUser 1 "root@x" "SPONSOR" None None 0 ].

Definition joinRequest (mail : string) (i : ObjectId) (code : string) (t : nat)
  : RegisterBody * Draws :=
  (mkBody "member" mail (Some "SPONSOR"%string), mkDraws i [code] t).

Definition threeJoins : list (RegisterBody * Draws) :=
  [ joinRequest "a@x" 2 "A" 1; joinRequest "b@x" 3 "B" 2; joinRequest "c@x" 4 "C" 3 ].

(** Another request takes the sponsor's left slot while this one is between
    its search and its insert. *)
Definition rival : User := mkUser 9 "z@x" "Z" (Some 1) (Some Left) 1.

Definition race (st : Store) : Store := st ++ [rival].

Lemma sponsorOnly_wellFormed : wellFormed sponsorOnly.
Proof.
  split.
  - repeat constructor; simpl; tauto.
  - unfold uniqueIndexOk. simpl. constructor.
Defined.

Example threeJoins_fill_level_order :
  map (fun u => (_id u, parent u, position u)) (snd (registerAll sponsorOnly threeJoins))
  = [ (1, None, None); (2, Some 1, Some Left); (3, Some 1, Some Right);
      (4, Some 2, Some Left) ].
Proof. reflexivity. Qed.

(** *** The claims about registration *)

(** C7 — requests served one after the other, whatever their number and
    sponsor, leave every parent with at most one left and at most one
    right child: the collection keeps unique ids and the unique partial
    index on [(parent, position)], no insert is ever refused by that
    index, and documents without a parent carry no index key, so any
    number of roots coexist. *)
Theorem sequential_placements_keep_binary
        (store : Store) (requests : list (RegisterBody * Draws)) :
  wellFormed store ->
  wellFormed (snd (registerAll store requests)) /\
  (forall p pos,
     length (filter (isPos pos)
                    (filter (hasParent p) (snd (registerAll store requests)))) <= 1) /\
  (forall status,
     ~ In (Rejected status (DuplicateKey ParentPositionIndex))
          (fst (registerAll store requests))) /\
  (forall st doc, parent doc = None -> slotTaken st doc = false) /\
  (forall roots,
     (forall r, In r roots -> parent r = None) ->
     uniqueIndexOk (snd (registerAll store requests) ++ roots)).
Proof.
  intros Hwf. destruct (registerAll_wellFormed requests Hwf) as [Hwf' Hno].
  split; [exact Hwf' |]. split; [| split; [exact Hno | split]].
  - intros p pos. apply index_count. apply Hwf'.
  - intros st doc Hp. apply slotTaken_free. unfold indexKey. rewrite Hp. simpl. tauto.
  - intros roots Hroots. unfold uniqueIndexOk, indexKeys. rewrite flat_map_app.
    replace (flat_map indexKey roots) with (@nil (ObjectId * BinaryPosition)).
    + rewrite app_nil_r. apply Hwf'.
    + induction roots as [| r roots IH]; simpl; [reflexivity |].
      unfold indexKey at 1. rewrite (Hroots r (or_introl eq_refl)). simpl.
      apply IH. intros x Hx. apply Hroots. now right.
Qed.

Lemma sequential_placements_keep_binary_witness :
  wellFormed sponsorOnly /\
  wellFormed (snd (registerAll sponsorOnly threeJoins)) /\
  length (snd (registerAll sponsorOnly threeJoins)) = 4.
Proof.
  split; [exact sponsorOnly_wellFormed |]. split.
  - apply (@sequential_placements_keep_binary sponsorOnly threeJoins
             sponsorOnly_wellFormed).
  - reflexivity.
Defined.

(** The reading of the design under test for C8: a request whose insert
    is refused by the [(parent, position)] index searches again before it
    answers, so a request that would succeed on a second attempt is not
    answered with that refusal. *)
Definition retriesOnConflict (others : Store -> Store) (store : Store)
           (body : RegisterBody) (draws : Draws) : Prop :=
  (exists user st,
      register (snd (registerWith others store body draws)) body draws
      = (Created user, st)) ->
  fst (registerWith others store body draws)
  <> Rejected 400 (DuplicateKey ParentPositionIndex).

(** C8, as stated, fails: with the sponsor's left slot taken by a rival
    between the search and the insert, the handler answers 400 with the
    duplicate-key error although a second attempt would have placed the
    member on the right. *)
Lemma first_conflict_is_surfaced :
  ~ retriesOnConflict race sponsorOnly
      (fst (joinRequest "a@x" 2 "A" 1)) (snd (joinRequest "a@x" 2 "A" 1)).
Proof.
  unfold retriesOnConflict. intros H. apply H; [| reflexivity].
  eexists. eexists. reflexivity.
Qed.

(** C8, amended — the handler makes one placement search and one insert:
    when the insert is refused by the [(parent, position)] index it
    answers 400 with that error at once and leaves the collection as the
    search and the other requests left it. *)
Theorem register_surfaces_first_conflict
        (others : Store -> Store) (store : Store) (body : RegisterBody) (draws : Draws)
        (code newCode : string) (sponsor : User) (p : ObjectId) (pos : BinaryPosition) :
  findByEmail store (bodyEmail body) = None ->
  bodyReferralCode body = Some code ->
  findByReferralCode store code = Some sponsor ->
  outcome (findBinaryPlacement store (_id sponsor)) = Placed p pos ->
  generateUniqueReferralCode
    (others (finalStore (findBinaryPlacement store (_id sponsor)))) (drawnCodes draws)
  = Some newCode ->
  create (others (finalStore (findBinaryPlacement store (_id sponsor))))
         (mkUser (newId draws) (bodyEmail body) newCode (Some p) (Some pos) (now draws))
  = inl ParentPositionIndex ->
  registerWith others store body draws
  = (Rejected 400 (DuplicateKey ParentPositionIndex),
     others (finalStore (findBinaryPlacement store (_id sponsor)))).
Proof.
  intros Hmail Hcode Hsponsor Hout Hgen Hcreate.
  unfold registerWith. rewrite Hmail, Hcode, Hsponsor, Hout.
  unfold insertUser. now rewrite Hgen, Hcreate.
Qed.

Lemma register_surfaces_first_conflict_witness :
  registerWith race sponsorOnly
    (fst (joinRequest "a@x" 2 "A" 1)) (snd (joinRequest "a@x" 2 "A" 1))
  = (Rejected 400 (DuplicateKey ParentPositionIndex), sponsorOnly ++ [rival]).
Proof.
  apply (@register_surfaces_first_conflict race sponsorOnly _ _
           "SPONSOR"%string "A"%string (mkUser 1 "root@x" "SPONSOR" None None 0) 1 Left);
    reflexivity.
Defined.

End Registration.

From Stdlib Require Import QArith.
Close Scope Q_scope.

(** ** Distribution rules ([app/api/admin/rules/route.ts],
       [app/api/admin/rules/[id]/route.ts] and the same routes in
       [routes.ts], after [requireRole("admin")] has passed) *)
Module Rules.

Definition ObjectId := nat.

Record DistributionRule : Type := mkRule {
  ruleId : ObjectId;
  basePercentage : Q;
  decayEnabled : bool;
  isActive : bool
}.

Definition RuleStore := list DistributionRule.

(** The request bodies before parsing: an absent field is [None]. *)
Record UpsertBody : Type := mkUpsert {
  upBase : Q;
  upDecay : bool;
  upActive : option bool
}.

Record UpdateBody : Type := mkUpdate {
  updBase : option Q;
  updDecay : option bool;
  updActive : option bool
}.

Inductive RuleError : Type :=
| BadRequest          (* zod refused the body *)
| CastFailed          (* the [:id] segment is not an ObjectId; the query throws *)
| NotFound            (* 404 *)
| DuplicateId.        (* E11000 on [_id] *)

Inductive RuleResponse : Type :=
| RuleOk (status : nat) (rule : DistributionRule)
| Deleted
| RuleFailed (status : nat) (e : RuleError).

(** [.transform((v) => (v > 1 ? v / 100 : v))
     .refine((v) => v >= 0 && v <= 1)] after [.min(0)]. *)
Definition parseBase (v : Q) : option Q :=
  if Qle_bool 0 v then
    let w := if Qle_bool v 1 then v else (v / 100)%Q in
    if Qle_bool 0 w && Qle_bool w 1 then Some w else None
  else None.

(** [DistributionRuleModel.updateMany({ isActive: true },
                                      { $set: { isActive: false } })]. *)
Definition deactivateAll (rules : RuleStore) : RuleStore :=
  map (fun r => if isActive r
                then mkRule (ruleId r) (basePercentage r) (decayEnabled r) false
                else r) rules.

(** [$set] of the fields the parsed body carries. *)
Definition applyBody (base : option Q) (body : UpdateBody) (r : DistributionRule)
  : DistributionRule :=
  mkRule (ruleId r)
         (match base with Some b => b | None => basePercentage r end)
         (match updDecay body with Some d => d | None => decayEnabled r end)
         (match updActive body with Some a => a | None => isActive r end).

(** [findByIdAndUpdate(id, body, { new: true })]: the first rule with that
    id is rewritten and returned. *)
Fixpoint findByIdAndUpdate (rules : RuleStore) (id : ObjectId)
         (f : DistributionRule -> DistributionRule)
  : option DistributionRule * RuleStore :=
  match rules with
  | [] => (None, [])
  | r :: rest =>
      if ruleId r =? id then (Some (f r), f r :: rest)
      else let (found, rest') := findByIdAndUpdate rest id f in (found, r :: rest')
  end.

(** [findByIdAndDelete(id)]. *)
Fixpoint findByIdAndDelete (rules : RuleStore) (id : ObjectId)
  : option DistributionRule * RuleStore :=
  match rules with
  | [] => (None, [])
  | r :: rest =>
      if ruleId r =? id then (Some r, rest)
      else let (found, rest') := findByIdAndDelete rest id in (found, r :: rest')
  end.

(** [POST /api/admin/rules]; [fresh] is the ObjectId of the new rule. *)
Definition rulesPOST (rules : RuleStore) (body : UpsertBody) (fresh : ObjectId)
  : RuleResponse * RuleStore :=
  match parseBase (upBase body) with
  | None => (RuleFailed 400 BadRequest, rules)
  | Some base =>
      let active := match upActive body with Some a => a | None => true end in
      let rules1 := if active then deactivateAll rules else rules in
      if existsb (fun r => ruleId r =? fresh) rules1
      then (RuleFailed 400 DuplicateId, rules1)
      else
        let rule := mkRule fresh base (upDecay body) active in
        (RuleOk 201 rule, rules1 ++ [rule])
  end.

Definition parseUpdateBase (body : UpdateBody) : option (option Q) :=
  match updBase body with
  | None => Some None
  | Some v => match parseBase v with Some w => Some (Some w) | None => None end
  end.

Definition noFields (body : UpdateBody) : bool :=
  match updBase body, updDecay body, updActive body with
  | None, None, None => true
  | _, _, _ => false
  end.

(** [PUT /api/admin/rules/:id]; [id = None] is an [:id] segment that is
    not an ObjectId. *)
Definition rulesPUT (rules : RuleStore) (id : option ObjectId) (body : UpdateBody)
  : RuleResponse * RuleStore :=
  if noFields body then (RuleFailed 400 BadRequest, rules)
  else
    match parseUpdateBase body with
    | None => (RuleFailed 400 BadRequest, rules)
    | Some base =>
        let rules1 := match updActive body with
                      | Some true => deactivateAll rules
                      | _ => rules
                      end in
        match id with
        | None => (RuleFailed 400 CastFailed, rules1)
        | Some i =>
            match findByIdAndUpdate rules1 i (applyBody base body) with
            | (None, rules2) => (RuleFailed 404 NotFound, rules2)
            | (Some rule, rules2) => (RuleOk 200 rule, rules2)
            end
        end
    end.

(** [DELETE /api/admin/rules/:id]. *)
Definition rulesDELETE (rules : RuleStore) (id : option ObjectId)
  : RuleResponse * RuleStore :=
  match id with
  | None => (RuleFailed 400 CastFailed, rules)
  | Some i =>
      match findByIdAndDelete rules i with
      | (None, rules') => (RuleFailed 404 NotFound, rules')
      | (Some _, rules') => (Deleted, rules')
      end
  end.

Inductive RuleRequest : Type :=
| Post (body : UpsertBody) (fresh : ObjectId)
| Put (id : option ObjectId) (body : UpdateBody)
| Delete (id : option ObjectId).

Definition serve (rules : RuleStore) (req : RuleRequest) : RuleResponse * RuleStore :=
  match req with
  | Post body fresh => rulesPOST rules body fresh
  | Put id body => rulesPUT rules id body
  | Delete id => rulesDELETE rules id
  end.

(** Requests served one after the other. *)
Definition serveAll (rules : RuleStore) (reqs : list RuleRequest) : RuleStore :=
  fold_left (fun st req => snd (serve st req)) reqs rules.

Definition activeRules (rules : RuleStore) : RuleStore := filter isActive rules.

Definition atMostOneActive (rules : RuleStore) : Prop := length (activeRules rules) <= 1.

(** The body of an activation: [{ isActive: true }]. *)
Definition activation : UpdateBody := mkUpdate None None (Some true).

(** *** Counting active rules *)

Lemma deactivateAll_none (rules : RuleStore) : activeRules (deactivateAll rules) = [].
Proof.
  unfold activeRules, deactivateAll.
  induction rules as [| r rest IH]; simpl; [reflexivity |].
  destruct (isActive r) eqn:E; simpl; [exact IH |]. now rewrite E.
Qed.

Lemma update_active_le_S (rules : RuleStore) (id : ObjectId)
      (f : DistributionRule -> DistributionRule) :
  length (activeRules (snd (findByIdAndUpdate rules id f)))
  <= S (length (activeRules rules)).
Proof.
  unfold activeRules. induction rules as [| r rest IH]; simpl; [lia |].
  destruct (ruleId r =? id); simpl.
  - destruct (isActive (f r)), (isActive r); simpl; lia.
  - destruct (findByIdAndUpdate rest id f) as [found rest']. simpl in *.
    destruct (isActive r); simpl; lia.
Qed.

Lemma update_active_le (rules : RuleStore) (id : ObjectId)
      (f : DistributionRule -> DistributionRule) :
  (forall r, isActive (f r) = true -> isActive r = true) ->
  length (activeRules (snd (findByIdAndUpdate rules id f)))
  <= length (activeRules rules).
Proof.
  intros Hf. unfold activeRules. induction rules as [| r rest IH]; simpl; [lia |].
  destruct (ruleId r =? id); simpl.
  - destruct (isActive (f r)) eqn:E; simpl.
    + rewrite (Hf r E). simpl. lia.
    + destruct (isActive r); simpl; lia.
  - destruct (findByIdAndUpdate rest id f) as [found rest']. simpl in *.
    destruct (isActive r); simpl; lia.
Qed.

Lemma delete_active_le (rules : RuleStore) (id : ObjectId) :
  length (activeRules (snd (findByIdAndDelete rules id))) <= length (activeRules rules).
Proof.
  unfold activeRules. induction rules as [| r rest IH]; simpl; [lia |].
  destruct (ruleId r =? id); simpl.
  - destruct (isActive r); simpl; lia.
  - destruct (findByIdAndDelete rest id) as [found rest']. simpl in *.
    destruct (isActive r); simpl; lia.
Qed.

Lemma update_found (rules : RuleStore) (id : ObjectId)
      (f : DistributionRule -> DistributionRule) (rule : DistributionRule) :
  activeRules rules = [] ->
  (forall r, isActive (f r) = true) -> (forall r, ruleId (f r) = ruleId r) ->
  fst (findByIdAndUpdate rules id f) = Some rule ->
  activeRules (snd (findByIdAndUpdate rules id f)) = [rule] /\
  isActive rule = true /\ ruleId rule = id.
Proof.
  intros Hnone Hf Hid. unfold activeRules in *.
  induction rules as [| r rest IH]; simpl; [discriminate |].
  simpl in Hnone. destruct (isActive r) eqn:Er; [discriminate |].
  destruct (ruleId r =? id) eqn:E; simpl.
  - intros Heq. injection Heq as <-. rewrite Hf, Hnone, Hid.
    apply Nat.eqb_eq in E. auto.
  - destruct (findByIdAndUpdate rest id f) as [found rest']. simpl in *.
    rewrite Er. now apply IH.
Qed.

Lemma update_missing (rules : RuleStore) (id : ObjectId)
      (f : DistributionRule -> DistributionRule) :
  fst (findByIdAndUpdate rules id f) = None ->
  snd (findByIdAndUpdate rules id f) = rules.
Proof.
  induction rules as [| r rest IH]; simpl; [reflexivity |].
  destruct (ruleId r =? id); simpl; [discriminate |].
  destruct (findByIdAndUpdate rest id f) as [found rest']. simpl in *.
  intros H. now rewrite IH.
Qed.

Lemma serve_keeps_one (rules : RuleStore) (req : RuleRequest) :
  atMostOneActive rules -> atMostOneActive (snd (serve rules req)).
Proof.
  unfold atMostOneActive. intros H. destruct req as [body fresh | id body | id]; simpl.
  - unfold rulesPOST. destruct (parseBase (upBase body)) as [base |]; [| exact H].
    destruct (match upActive body with Some a => a | None => true end) eqn:Ea.
    + destruct (existsb _ (deactivateAll rules)); simpl.
      * rewrite deactivateAll_none. simpl. lia.
      * unfold activeRules. rewrite filter_app. fold (activeRules (deactivateAll rules)).
        rewrite deactivateAll_none. simpl. lia.
    + destruct (existsb _ rules); simpl; [exact H |].
      unfold activeRules. rewrite filter_app. simpl. rewrite app_nil_r. exact H.
  - unfold rulesPUT. destruct (noFields body); [exact H |].
    destruct (parseUpdateBase body) as [base |]; [| exact H].
    destruct (updActive body) as [[|] |] eqn:Ea.
    + pose proof (update_active_le_S (deactivateAll rules)) as Hle.
      rewrite deactivateAll_none in Hle. simpl in Hle.
      destruct id as [i |]; simpl; [| rewrite deactivateAll_none; simpl; lia].
      specialize (Hle i (applyBody base body)).
      destruct (findByIdAndUpdate (deactivateAll rules) i (applyBody base body))
        as [[rule |] rules2]; simpl in *; exact Hle.
    + destruct id as [i |]; simpl; [| exact H].
      pose proof (@update_active_le rules i (applyBody base body)) as Hle.
      destruct (findByIdAndUpdate rules i (applyBody base body))
        as [[rule |] rules2]; simpl in *;
        (eapply Nat.le_trans; [apply Hle | exact H]);
        intros r; unfold applyBody; simpl; rewrite Ea; discriminate.
    + destruct id as [i |]; simpl; [| exact H].
      pose proof (@update_active_le rules i (applyBody base body)) as Hle.
      destruct (findByIdAndUpdate rules i (applyBody base body))
        as [[rule |] rules2]; simpl in *;
        (eapply Nat.le_trans; [apply Hle | exact H]);
        intros r; unfold applyBody; simpl; now rewrite Ea.
  - unfold rulesDELETE. destruct id as [i |]; [| exact H].
    pose proof (delete_active_le rules i) as Hle.
    destruct (findByIdAndDelete rules i) as [[rule |] rules']; simpl in *; lia.
Qed.

Lemma serveAll_keeps_one (reqs : list RuleRequest) :
  forall rules, atMostOneActive rules -> atMostOneActive (serveAll rules reqs).
Proof.
  unfold serveAll. induction reqs as [| req reqs IH]; intros rules H; simpl;
    [exact H |].
  apply IH. now apply serve_keeps_one.
Qed.

(** *** Sample rules *)

Definition tenPercent : DistributionRule := mkRule 1 0.1%Q true true.

Definition flatFive : UpsertBody := mkUpsert 5%Q false None.

(** The reading of "in the same transaction" under test for C4: an
    activation request that fails leaves the rules as they were. *)
Definition activatesInOneTransaction (rules : RuleStore) (id : option ObjectId) : Prop :=
  forall status e,
    fst (rulesPUT rules id activation) = RuleFailed status e ->
    snd (rulesPUT rules id activation) = rules.

(** C4, as stated, fails: the two writes of an activation are not one
    transaction.  An activation whose [:id] is not an ObjectId is answered
    400, yet the rule that was active has been switched off. *)
Lemma activation_is_two_writes : ~ activatesInOneTransaction [tenPercent] None.
Proof.
  unfold activatesInOneTransaction. intros H.
  specialize (H 400 CastFailed eq_refl). discriminate H.
Qed.

(** C4, amended — after any sequence of create, update (activation
    included) and delete requests served one after the other, at most one
    rule is active.  An activation switches every active rule off and then
    rewrites its target, as two writes of one request: when the target
    exists it ends up the only active rule, and when the request fails (the
    id is malformed or names no rule) no rule is active afterwards.  A rule
    created active ends up the only active rule. *)
Theorem rule_activation_invariant (rules : RuleStore) (reqs : list RuleRequest) :
  atMostOneActive rules ->
  atMostOneActive (serveAll rules reqs) /\
  (forall id rule rules',
     rulesPUT rules (Some id) activation = (RuleOk 200 rule, rules') ->
     activeRules rules' = [rule] /\ isActive rule = true /\ ruleId rule = id) /\
  (forall id status e,
     fst (rulesPUT rules id activation) = RuleFailed status e ->
     activeRules (snd (rulesPUT rules id activation)) = []) /\
  (forall body fresh rule rules',
     upActive body <> Some false ->
     rulesPOST rules body fresh = (RuleOk 201 rule, rules') ->
     activeRules rules' = [rule]).
Proof.
  intros H. split; [now apply serveAll_keeps_one |]. split; [| split].
  - intros id rule rules'. unfold rulesPUT. simpl.
    pose proof (@update_found (deactivateAll rules) id (applyBody None activation) rule
                  (deactivateAll_none rules) (fun _ => eq_refl) (fun _ => eq_refl)) as Hf.
    destruct (findByIdAndUpdate (deactivateAll rules) id (applyBody None activation))
      as [[found |] rules2]; simpl in *; [| discriminate].
    intros Heq. injection Heq as <- <-. now apply Hf.
  - intros id status e. unfold rulesPUT. simpl.
    destruct id as [i |]; simpl; [| intros _; apply deactivateAll_none].
    pose proof (@update_missing (deactivateAll rules) i (applyBody None activation)) as Hm.
    destruct (findByIdAndUpdate (deactivateAll rules) i (applyBody None activation))
      as [[found |] rules2]; simpl in *; [discriminate |].
    intros _. rewrite Hm by reflexivity. apply deactivateAll_none.
  - intros body fresh rule rules' Hact. unfold rulesPOST.
    destruct (parseBase (upBase body)) as [base |]; [| discriminate].
    assert (Ha : match upActive body with Some a => a | None => true end = true).
    { destruct (upActive body) as [[|] |]; try reflexivity. now elim Hact. }
    rewrite Ha. destruct (existsb _ (deactivateAll rules)); [discriminate |].
    intros Heq. injection Heq as <- <-.
    unfold activeRules. rewrite filter_app. fold (activeRules (deactivateAll rules)).
    now rewrite deactivateAll_none.
Qed.

Lemma rule_activation_invariant_witness :
  atMostOneActive [tenPercent] /\
  atMostOneActive
    (serveAll [tenPercent]
       [ Post flatFive 2; Put (Some 1) activation; Delete (Some 2); Put None activation ]).
Proof.
  assert (H : atMostOneActive [tenPercent]) by (unfold atMostOneActive; simpl; lia).
  split; [exact H |].
  apply (@rule_activation_invariant [tenPercent]
           [ Post flatFive 2; Put (Some 1) activation; Delete (Some 2);
             Put None activation ] H).
Defined.

End Rules.

(** ** The Service model ([models/Service.ts]) *)
Module Service.

(** The paths of [serviceSchema] on a document once it is built, the state
    the hook and the validators see.  [None] is [null] or [undefined]; the
    numbers are rationals. *)
Record ServiceDoc : Type := mkService {
  name : option string;
  price : option Q;
  businessVolume : option Q;
  bv : option Q;
  status : option string;
  isActive : option bool
}.

(** JavaScript truthiness of a string-or-null value. *)
Definition truthy (s : option string) : bool :=
  match s with
  | Some EmptyString => false
  | Some _ => true
  | None => false
  end.

Definition isSome (A : Type) (o : option A) : bool :=
  match o with
  | Some _ => true
  | None => false
  end.

(** [doc.status === "active"]. *)
Definition statusIsActive (s : option string) : bool :=
  match s with
  | Some v => String.eqb v "active"
  | None => false
  end.

(** [serviceSchema.pre("validate", function syncLegacyFields() { ... })],
    one [if] after the other. *)
Definition syncLegacyFields (doc : ServiceDoc) : ServiceDoc :=
  let d1 :=
    if negb (isSome (businessVolume doc)) && isSome (bv doc)
    then mkService (name doc) (price doc) (bv doc) (bv doc) (status doc) (isActive doc)
    else doc in
  let d2 :=
    match isActive d1 with
    | Some b =>
        if negb (truthy (status d1))
        then mkService (name d1) (price d1) (businessVolume d1) (bv d1)
                       (Some (if b then "active" else "inactive")%string) (isActive d1)
        else d1
    | None => d1
    end in
  let d3 :=
    if isSome (businessVolume d2)
    then mkService (name d2) (price d2) (businessVolume d2) (businessVolume d2)
                   (status d2) (isActive d2)
    else d2 in
  if truthy (status d3)
  then mkService (name d3) (price d3) (businessVolume d3) (bv d3) (status d3)
                 (Some (statusIsActive (status d3)))
  else d3.

Definition nonNegative (o : option Q) : bool :=
  match o with
  | Some v => Qle_bool 0 v
  | None => true
  end.

(** The validators of the schema: [required], [min: 0] and [enum]; a
    validator other than [required] passes on an absent value. *)
Definition schemaValid (doc : ServiceDoc) : bool :=
  truthy (name doc)
  && isSome (price doc) && nonNegative (price doc)
  && isSome (businessVolume doc) && nonNegative (businessVolume doc)
  && nonNegative (bv doc)
  && match status doc with
     | Some s => String.eqb s "active" || String.eqb s "inactive"
     | None => true
     end.

(** [doc.validate()]: the pre-validate hook, then the validators. *)
Definition validate (doc : ServiceDoc) : option ServiceDoc :=
  let d := syncLegacyFields doc in
  if schemaValid d then Some d else None.

(** What a caller supplies for [status]: nothing, [null], or a string. *)
Inductive StatusInput : Type :=
| StatusAbsent
| StatusNull
| StatusValue (s : string).

(** The object handed to [new ServiceModel(...)] or [ServiceModel.create]. *)
Record ServiceInput : Type := mkInput {
  inName : option string;
  inPrice : option Q;
  inBusinessVolume : option Q;
  inBv : option Q;
  inStatus : StatusInput;
  inIsActive : option bool
}.

(** [status: { ..., default: "active" }]: a default is applied where the
    path is [undefined]; an explicit [null] is kept.  [isActive] has
    [default: undefined] and the other paths have no default. *)
Definition statusDefault (s : StatusInput) : option string :=
  match s with
  | StatusAbsent => Some "active"%string
  | StatusNull => None
  | StatusValue v => Some v
  end.

(** [new ServiceModel(input)]: the document with the schema defaults
    applied. *)
Definition newServiceModel (i : ServiceInput) : ServiceDoc :=
  mkService (inName i) (inPrice i) (inBusinessVolume i) (inBv i)
            (statusDefault (inStatus i)) (inIsActive i).

(** [ServiceModel.create(input)] up to validation: build, then validate. *)
Definition create (i : ServiceInput) : option ServiceDoc :=
  validate (newServiceModel i).

(** The synchronisation C10 states for a validated document. *)
Definition legacySynced (d : ServiceDoc) : Prop :=
  bv d = businessVolume d /\ isActive d = Some (statusIsActive (status d)).

(** A legacy service, switched off: only [bv] and [isActive] are supplied,
    [businessVolume] and [status] are absent. *)
Definition legacyGold : ServiceInput :=
  mkInput (Some "Gold"%string) (Some 100%Q) None (Some 40%Q) StatusAbsent (Some false).

(** The same service with an explicit [status: null]. *)
Definition legacyGoldNull : ServiceInput :=
  mkInput (Some "Gold"%string) (Some 100%Q) None (Some 40%Q) StatusNull (Some false).

(** A document with [status: null] and no [isActive]. *)
Definition bareSilver : ServiceInput :=
  mkInput (Some "Silver"%string) (Some 50%Q) (Some 5%Q) None StatusNull None.

(** A stored service that is switched off, both pairs of fields in step. *)
Definition goldSynced : ServiceDoc :=
  mkService (Some "Gold"%string) (Some 100%Q) (Some 40%Q) (Some 40%Q)
            (Some "inactive"%string) (Some false).

Definition goldActive : ServiceDoc :=
  mkService (Some "Gold"%string) (Some 100%Q) (Some 40%Q) (Some 40%Q)
            (Some "active"%string) (Some true).

(** Only an explicit [null] lets the hook derive [status] from
    [isActive]. *)
Example legacyGoldNull_created : create legacyGoldNull = Some goldSynced.
Proof. reflexivity. Qed.

(** With an explicit [status: null] and no boolean [isActive] the document
    passes validation with [isActive] still unset. *)
Lemma unset_status_is_not_synced :
  exists d, create bareSilver = Some d /\ ~ legacySynced d.
Proof.
  eexists. split; [reflexivity |].
  unfold legacySynced. simpl. intros [_ H]. discriminate H.
Qed.

(** What the hook guarantees for a document state, defaults already
    applied: a document that passes validation has [bv] equal to
    [businessVolume] and, when its [status] is set, [isActive] equal to
    [status === "active"]; with no [status] its [isActive] is unset too.
    [businessVolume] is taken from [bv] when only [bv] is there, and
    [status] from [isActive] when the document's [status] is falsy and
    [isActive] is a boolean. *)
Lemma validated_service_is_synced (doc d : ServiceDoc) :
  validate doc = Some d ->
  bv d = businessVolume d /\
  (forall s, status d = Some s -> isActive d = Some (String.eqb s "active")) /\
  (status d = None -> isActive d = None) /\
  (businessVolume doc = None -> forall v, bv doc = Some v -> businessVolume d = Some v) /\
  (truthy (status doc) = false ->
   forall b, isActive doc = Some b ->
             status d = Some (if b then "active" else "inactive")%string).
Proof.
  unfold validate. destruct (schemaValid (syncLegacyFields doc)) eqn:Hvalid;
    [| discriminate].
  intros Heq. injection Heq as <-.
  destruct doc as [n p bvol b st act].
  destruct bvol as [v |], b as [w |], act as [[|] |], st as [[| c s] |];
    cbn -[String.eqb Qle_bool] in *;
    try (unfold schemaValid in Hvalid; simpl in Hvalid;
         rewrite ?andb_false_r in Hvalid; discriminate Hvalid);
    repeat split; try reflexivity; try discriminate;
    try (intros s0 Hs; injection Hs as <-; reflexivity);
    try (intros _ b0 Hb; injection Hb as <-; reflexivity);
    try (intros _ v0 Hv; injection Hv as <-; reflexivity).
Qed.

(** A document built without [status] never reaches the hook with a falsy
    [status]. *)
Lemma absent_status_is_defaulted (i : ServiceInput) :
  inStatus i = StatusAbsent -> truthy (status (newServiceModel i)) = true.
Proof. intros H. unfold newServiceModel. simpl. now rewrite H. Qed.

(** C10 — the code on a legacy document.  For the service supplied with
    [bv: 40] and [isActive: false] only, [businessVolume] is taken from
    [bv], but [status] is not taken from [isActive]: the schema default has
    made it ["active"] before the hook runs, the hook's second [if] is
    skipped, and its last [if] overwrites [isActive] with [true].  The
    same holds of every input without [status]: whatever [isActive] it
    carries, the validated document is active. *)
Theorem legacy_inactive_service_becomes_active :
  create legacyGold = Some goldActive /\
  inIsActive legacyGold = Some false /\
  isActive goldActive = Some true /\
  status goldActive <> Some "inactive"%string /\
  (forall i d, inStatus i = StatusAbsent -> create i = Some d ->
               status d = Some "active"%string /\ isActive d = Some true /\
               bv d = businessVolume d /\
               (inBusinessVolume i = None -> forall v, inBv i = Some v ->
                                             businessVolume d = Some v)).
Proof.
  split; [reflexivity |]. split; [reflexivity |]. split; [reflexivity |].
  split; [discriminate |].
  intros i d Habsent Hcreate. unfold create in Hcreate.
  pose proof (validated_service_is_synced _ Hcreate) as [Hbv [_ [_ [Hback _]]]].
  assert (Hst : status d = Some "active"%string /\ isActive d = Some true).
  { unfold validate in Hcreate.
    destruct (schemaValid (syncLegacyFields (newServiceModel i))); [| discriminate].
    injection Hcreate as <-. destruct i as [n p bvol b st act]. simpl in Habsent.
    subst st. destruct bvol as [v |], b as [w |], act as [[|] |]; split; reflexivity. }
  destruct Hst as [Hs Ha]. split; [exact Hs |]. split; [exact Ha |].
  split; [exact Hbv |]. exact Hback.
Qed.

End Service.

(** ** Purchases and the distribution of business volume
       ([app/api/purchases/route.ts], [app.post("/api/purchases")]) *)
Module Purchases.

Definition ObjectId := nat.

Record Purchase : Type := mkPurchase {
  purchaseId : ObjectId;
  buyer : ObjectId;
  purchasedService : ObjectId;
  purchaseBv : Q
}.

(** One ledger entry: one credit of one ancestor for one purchase. *)
Record Income : Type := mkIncome {
  toUser : ObjectId;
  fromUser : ObjectId;
  incomePurchase : ObjectId;
  level : nat;
  amount : Q;
  percentage : Q
}.

(** The audit record written next to each [Income]. *)
Record IncomeLog : Type := mkIncomeLog {
  logPurchase : ObjectId;
  logToUser : ObjectId;
  logLevel : nat;
  incomeAmount : Q
}.

(** The collections the purchase route touches. *)
Record DB : Type := mkDB {
  users : Placement.Store;
  services : list (ObjectId * Service.ServiceDoc);
  rules : Rules.RuleStore;
  purchases : list Purchase;
  incomes : list Income;
  incomeLogs : list IncomeLog
}.

Inductive TxError : Type :=
| ServiceNotFound
| NoActiveRule
| WriteFailed (atLevel : nat).

(** A computation over a state that may throw.  The state it has reached
    is there whether it returns or throws: what was written before a
    throw has been written. *)
Definition Comp (S A : Type) : Type := S -> (TxError + A) * S.

Definition ret (S A : Type) (a : A) : Comp S A := fun st => (inr a, st).

Definition bind (S A B : Type) (m : Comp S A) (k : A -> Comp S B) : Comp S B :=
  fun st =>
    match m st with
    | (inl e, st') => (inl e, st')
    | (inr a, st') => k a st'
    end.

Definition throw (S A : Type) (e : TxError) : Comp S A := fun st => (inl e, st).

Arguments ret {S A} a.
Arguments throw {S A} e.

Notation "x <- m ;; k" := (bind m (fun x => k))
  (at level 61, m at next level, right associativity).
Notation "m ;;; k" := (bind m (fun _ => k))
  (at level 61, right associativity).

(** A database operation, as a computation on one copy of the
    collections.  Which copy it runs on is decided where it is issued, by
    its [session] option: see [issue]. *)
Definition Txn (A : Type) : Type := Comp DB A.

(** [mongoose.startSession()]: the handlers open one session per
    request. *)
Inductive ClientSession : Type := session.

(** The database server as one request sees it: the committed
    collections and, while the session has a transaction open, the
    transaction's working copy. *)
Record Server : Type := mkServer {
  committed : DB;
  working : option DB
}.

(** A step of a handler. *)
Definition Op (A : Type) : Type := Comp Server A.

(** An operation issued with the options [{ session }] runs on the
    working copy of the session's open transaction and leaves the
    committed collections alone.  Issued without a session, or with a
    session that has no transaction open, it runs on the committed
    collections. *)
Definition issue (A : Type) (m : Txn A) (options : option ClientSession) : Op A :=
  fun srv =>
    match options, working srv with
    | Some _, Some work =>
        let (r, work') := m work in (r, mkServer (committed srv) (Some work'))
    | _, _ =>
        let (r, db') := m (committed srv) in (r, mkServer db' (working srv))
    end.

(** [session.withTransaction(callback)]: a transaction is started on the
    committed collections and the callback is run; when it returns, the
    transaction is committed, its working copy becoming the committed
    collections; when it throws, the transaction is aborted, the working
    copy is dropped and the error is thrown again.  An operation the
    callback issued without the session has gone to the committed
    collections and is not undone by the abort. *)
Definition withTransaction (A : Type) (callback : Op A) : Op A :=
  fun srv =>
    match callback (mkServer (committed srv) (Some (committed srv))) with
    | (inr a, after) =>
        (inr a, mkServer (match working after with
                          | Some work => work
                          | None => committed after
                          end) None)
    | (inl e, after) => (inl e, mkServer (committed after) None)
    end.

(** [PurchaseModel.create([{ user, service, bv: 0 }], options)]. *)
Definition createPurchase (p : Purchase) : Txn Purchase :=
  fun db => (inr p, mkDB (users db) (services db) (rules db) (purchases db ++ [p])
                         (incomes db) (incomeLogs db)).

(** [PurchaseModel.updateOne({ _id }, { $set: { bv } }, options)]. *)
Definition setPurchaseBv (id : ObjectId) (v : Q) : Txn unit :=
  fun db =>
    (inr tt, mkDB (users db) (services db) (rules db)
                  (map (fun p => if purchaseId p =? id
                                 then mkPurchase (purchaseId p) (buyer p)
                                                 (purchasedService p) v
                                 else p) (purchases db))
                  (incomes db) (incomeLogs db)).

Record Distribution : Type := mkDistribution {
  bv : Q;
  logsCreated : nat;
  levelsPaid : nat
}.

Section Engine.

(** Whether an amount rounds to zero in the currency's minimal unit; the
    design names the test and leaves the unit open. *)
Variable roundsToZero : Q -> bool.

(** The write of the credit at a level that is forced to fail. *)
Variable failsAt : nat -> bool.

Definition parentOf (us : Placement.Store) (id : ObjectId) : option ObjectId :=
  match find (fun u => Placement._id u =? id) us with
  | Some u => Placement.parent u
  | None => None
  end.

(** The ancestors of a member, nearest first: the [parent] links are
    followed until a root, for at most as many steps as there are
    members. *)
Fixpoint ancestorsFrom (us : Placement.Store) (fuel : nat) (current : option ObjectId)
  : list ObjectId :=
  match fuel, current with
  | S fuel', Some a => a :: ancestorsFrom us fuel' (parentOf us a)
  | _, _ => []
  end.

Definition ancestorChain (us : Placement.Store) (member : ObjectId) : list ObjectId :=
  ancestorsFrom us (length us) (parentOf us member).

Definition writeIncome (row : Income) : Txn unit :=
  fun db =>
    if failsAt (level row) then (inl (WriteFailed (level row)), db)
    else (inr tt, mkDB (users db) (services db) (rules db) (purchases db)
                       (incomes db ++ [row]) (incomeLogs db)).

Definition writeIncomeLog (row : IncomeLog) : Txn unit :=
  fun db =>
    (inr tt, mkDB (users db) (services db) (rules db) (purchases db)
                  (incomes db) (incomeLogs db ++ [row])).

(** Modelled from the spec: the walk of [distributeBusinessVolumeWithSession]
    ([lib/bvDistribution.ts], not among the sources).  "For each ancestor
    at each level, compute amount = bvAmount * percentage; write one Income
    entry and one IncomeLog entry"; an amount that rounds to zero ends the
    walk; "every level from 5 onward continues halving the immediately
    preceding level; if decayEnabled is false, every level instead receives
    the flat basePercentage". *)
Fixpoint creditChain (purchaser purchase : ObjectId) (bvAmount : Q) (decay : bool)
         (chain : list ObjectId) (lvl : nat) (pct : Q) (paid : nat) : Txn nat :=
  match chain with
  | [] => ret paid
  | ancestor :: rest =>
      let amt := (bvAmount * pct)%Q in
      if roundsToZero amt then ret paid
      else
        writeIncome (mkIncome ancestor purchaser purchase lvl amt pct) ;;;
        writeIncomeLog (mkIncomeLog purchase ancestor lvl amt) ;;;
        creditChain purchaser purchase bvAmount decay rest (S lvl)
                    (if decay then (pct / 2)%Q else pct) (S paid)
  end.

Definition findService (id : ObjectId) : Txn Q :=
  fun db =>
    match find (fun s => fst s =? id) (services db) with
    | Some (_, doc) =>
        match Service.businessVolume doc with
        | Some v => (inr v, db)
        | None => (inl ServiceNotFound, db)
        end
    | None => (inl ServiceNotFound, db)
    end.

Definition activeRule : Txn Rules.DistributionRule :=
  fun db =>
    match find Rules.isActive (rules db) with
    | Some r => (inr r, db)
    | None => (inl NoActiveRule, db)
    end.

(** Modelled from the spec: [distributeBusinessVolumeWithSession]
    ([lib/bvDistribution.ts], not among the sources), called with
    [{ userId, serviceId, purchaseId, session }] and returning
    [{ bv, logsCreated, levelsPaid }].  The BV is the one of the service;
    "read the single currently-active DistributionRule; fail with
    NoActiveRule if none exists"; the walk starts "from the purchaser's
    parent"; the counts returned are those "of levels actually paid and
    ledger rows written".  All its reads and writes are one operation on
    one copy of the collections: the function issues them with the session
    it is handed ("any write failure anywhere in the walk aborts the whole
    transaction"), which the caller expresses by [issue]. *)
Definition distributeBusinessVolumeWithSession
           (userId serviceId purchase : ObjectId) : Txn Distribution :=
  bvAmount <- findService serviceId ;;
  rule <- activeRule ;;
  chain <- (fun db => (inr (ancestorChain (users db) userId), db)) ;;
  paid <- creditChain userId purchase bvAmount (Rules.decayEnabled rule) chain 1
                      (Rules.basePercentage rule) 0 ;;
  ret (mkDistribution bvAmount paid paid).

Inductive PurchaseResponse : Type :=
| PurchaseCreated (id : ObjectId) (d : Distribution)   (* 201 *)
| PurchaseFailed (status : nat) (e : TxError)          (* caught and answered *)
| PurchaseThrew (e : TxError).                         (* left the handler *)

(** The callback handed to [session.withTransaction]: each of its three
    calls carries [{ session }] (or [session]). *)
Definition purchaseCallback (userId serviceId fresh : ObjectId)
  : Op (ObjectId * Distribution) :=
  purchase <- issue (createPurchase (mkPurchase fresh userId serviceId 0))
                    (Some session) ;;
  distribution <- issue (distributeBusinessVolumeWithSession userId serviceId
                           (purchaseId purchase))
                        (Some session) ;;
  issue (setPurchaseBv (purchaseId purchase) (bv distribution)) (Some session) ;;;
  ret (purchaseId purchase, distribution).

(** [app.post("/api/purchases")] in [routes.ts], once the caller is
    authenticated and the body parsed; [fresh] is the ObjectId of the new
    purchase.  The [catch] answers 400. *)
Definition purchasesPOST (srv : Server) (userId serviceId fresh : ObjectId)
  : PurchaseResponse * Server :=
  match withTransaction (purchaseCallback userId serviceId fresh) srv with
  | (inr (id, d), srv') => (PurchaseCreated id d, srv')
  | (inl e, srv') => (PurchaseFailed 400 e, srv')
  end.

(** [composedPOST] in [app/api/purchases/route.ts], past [withRateLimit],
    [withAuth] and [withValidatedBody]: [try { ... } finally { ... }]
    without a [catch], so an error of the transaction leaves the
    handler. *)
Definition composedPOST (srv : Server) (userId serviceId fresh : ObjectId)
  : PurchaseResponse * Server :=
  match withTransaction (purchaseCallback userId serviceId fresh) srv with
  | (inr (id, d), srv') => (PurchaseCreated id d, srv')
  | (inl e, srv') => (PurchaseThrew e, srv')
  end.

End Engine.

(** *** The transaction *)

(** A server between two requests: no transaction is open. *)
Definition idle (db : DB) : Server := mkServer db None.

Definition withPlaceholder (db : DB) (userId serviceId fresh : ObjectId) : DB :=
  mkDB (users db) (services db) (rules db)
       (purchases db ++ [mkPurchase fresh userId serviceId 0])
       (incomes db) (incomeLogs db).

(** An operation issued with the session while its transaction is open
    does not touch the committed collections, and the transaction stays
    open. *)
Lemma issue_in_transaction (A : Type) (m : Txn A) (db work : DB) :
  issue m (Some session) (mkServer db (Some work))
  = (fst (m work), mkServer db (Some (snd (m work)))).
Proof. unfold issue. simpl. now destruct (m work). Qed.

(** The same operation issued without the session goes to the committed
    collections at once. *)
Lemma issue_outside_transaction (A : Type) (m : Txn A) (db : DB) (work : option DB) :
  issue m None (mkServer db work) = (fst (m db), mkServer (snd (m db)) work).
Proof. unfold issue. simpl. now destruct (m db). Qed.

(** Issuing a sequence of operations with one [options] value is issuing
    each of them with it: the walk issued with the session is the walk
    whose every read and write carries the session. *)
Lemma issue_bind (A B : Type) (m : Txn A) (k : A -> Txn B)
      (options : option ClientSession) (srv : Server) :
  issue (x <- m ;; k x) options srv
  = (x <- issue m options ;; issue (k x) options) srv.
Proof.
  unfold issue, bind. destruct srv as [db [work |]], options as [s |]; simpl.
  - destruct (m work) as [[e | a] work']; simpl; [reflexivity |].
    now destruct (k a work').
  - destruct (m db) as [[e | a] db']; simpl; [reflexivity |].
    now destruct (k a db').
  - destruct (m db) as [[e | a] db']; simpl; [reflexivity |].
    now destruct (k a db').
  - destruct (m db) as [[e | a] db']; simpl; [reflexivity |].
    now destruct (k a db').
Qed.

Lemma issue_ret (A : Type) (a : A) (options : option ClientSession) (srv : Server) :
  issue (ret a) options srv = ret a srv.
Proof. unfold issue, ret. now destruct srv as [db [work |]], options as [s |]. Qed.

(** An abort undoes what went through the session and nothing else: a
    purchase created without [{ session }] is still there after the
    transaction has aborted. *)
Lemma write_outside_session_survives_abort (db : DB) (p : Purchase) (e : TxError) :
  withTransaction (issue (createPurchase p) None ;;; @throw Server unit e) (idle db)
  = (inl e, idle (mkDB (users db) (services db) (rules db) (purchases db ++ [p])
                       (incomes db) (incomeLogs db))) /\
  withTransaction (issue (createPurchase p) (Some session) ;;; @throw Server unit e)
                  (idle db)
  = (inl e, idle db).
Proof. split; reflexivity. Qed.

(** What the callback does, step by step, on a server whose transaction
    has just been started. *)
Lemma purchaseCallback_run (roundsToZero : Q -> bool) (failsAt : nat -> bool)
      (db work : DB) (userId serviceId fresh : ObjectId) :
  purchaseCallback roundsToZero failsAt userId serviceId fresh (mkServer db (Some work))
  = match distributeBusinessVolumeWithSession roundsToZero failsAt userId serviceId fresh
            (withPlaceholder work userId serviceId fresh) with
    | (inl e, partial) => (inl e, mkServer db (Some partial))
    | (inr d, credited) =>
        (inr (fresh, d),
         mkServer db (Some (snd (setPurchaseBv fresh (bv d) credited))))
    end.
Proof.
  unfold purchaseCallback, bind, issue. simpl.
  fold (withPlaceholder work userId serviceId fresh).
  destruct (distributeBusinessVolumeWithSession roundsToZero failsAt userId serviceId fresh
              (withPlaceholder work userId serviceId fresh)) as [[e | d] st]; simpl;
    reflexivity.
Qed.

(** The callback writes through the session only: whatever it does and
    however it ends, the committed collections are as they were. *)
Lemma purchaseCallback_keeps_committed (roundsToZero : Q -> bool) (failsAt : nat -> bool)
      (db work : DB) (userId serviceId fresh : ObjectId) :
  committed (snd (purchaseCallback roundsToZero failsAt userId serviceId fresh
                    (mkServer db (Some work)))) = db.
Proof.
  rewrite purchaseCallback_run.
  now destruct (distributeBusinessVolumeWithSession roundsToZero failsAt userId serviceId
                  fresh (withPlaceholder work userId serviceId fresh)) as [[e | d] st].
Qed.

Lemma failed_request_changes_nothing (roundsToZero : Q -> bool) (failsAt : nat -> bool)
      (db : DB) (userId serviceId fresh : ObjectId) :
  (forall id d, fst (purchasesPOST roundsToZero failsAt (idle db) userId serviceId fresh)
                <> PurchaseCreated id d) ->
  snd (purchasesPOST roundsToZero failsAt (idle db) userId serviceId fresh) = idle db /\
  snd (composedPOST roundsToZero failsAt (idle db) userId serviceId fresh) = idle db.
Proof.
  unfold purchasesPOST, composedPOST, withTransaction, idle. simpl.
  pose proof (purchaseCallback_keeps_committed roundsToZero failsAt db db
                userId serviceId fresh) as Hkeep.
  destruct (purchaseCallback roundsToZero failsAt userId serviceId fresh
              (mkServer db (Some db))) as [[e | [id d]] after]; simpl in *.
  - intros _. now subst.
  - intros H. now elim (H id d).
Qed.

(** The rows written by a walk that stops at a failing write: one per
    level below the failing one, all for the purchase at hand; nothing
    else has changed but the log. *)
Lemma creditChain_failure (roundsToZero : Q -> bool) (failsAt : nat -> bool)
      (purchaser purchase : ObjectId) (bvAmount : Q) (decay : bool)
      (chain : list ObjectId) :
  forall lvl pct paid db e db',
    creditChain roundsToZero failsAt purchaser purchase bvAmount decay chain lvl pct paid db
    = (inl e, db') ->
    exists rows,
      e = WriteFailed (lvl + length rows) /\
      incomes db' = incomes db ++ rows /\
      Forall (fun row => incomePurchase row = purchase) rows /\
      length (incomeLogs db') = length (incomeLogs db) + length rows /\
      purchases db' = purchases db /\ users db' = users db /\
      services db' = services db /\ rules db' = rules db.
Proof.
  induction chain as [| a rest IH]; intros lvl pct paid db e db' Hrun; simpl in Hrun.
  - discriminate Hrun.
  - destruct (roundsToZero (bvAmount * pct)%Q); [discriminate Hrun |].
    unfold bind, writeIncome, writeIncomeLog in Hrun. simpl in Hrun.
    destruct (failsAt lvl).
    + injection Hrun as <- <-. exists []. rewrite Nat.add_0_r, app_nil_r.
      repeat split; try reflexivity; [constructor | simpl; lia].
    + apply IH in Hrun. simpl in Hrun.
      destruct Hrun as [rows [He [Hinc [Hall [Hlog [Hp [Hu [Hs Hr]]]]]]]].
      exists (mkIncome a purchaser purchase lvl (bvAmount * pct)%Q pct :: rows).
      rewrite length_app in Hlog. simpl in *.
      split; [rewrite He; f_equal; lia |].
      split; [now rewrite Hinc, <- app_assoc |].
      split; [constructor; [reflexivity | assumption] |].
      split; [lia |]. tauto.
Qed.

Lemma findService_reads (id : ObjectId) (db : DB) :
  snd (findService id db) = db /\
  forall e, fst (findService id db) = inl e -> e = ServiceNotFound.
Proof.
  unfold findService. destruct (find _ _) as [[i doc] |]; simpl.
  - destruct (Service.businessVolume doc); simpl; split; congruence.
  - split; congruence.
Qed.

Lemma activeRule_reads (db : DB) :
  snd (activeRule db) = db /\
  forall e, fst (activeRule db) = inl e -> e = NoActiveRule.
Proof.
  unfold activeRule. destruct (find _ _); simpl; split; congruence.
Qed.

(** A distribution that stops at a failing write at level [k] has
    written one Income row of the purchase per level below [k] and
    touched no purchase record. *)
Lemma distribution_failure (roundsToZero : Q -> bool) (failsAt : nat -> bool)
      (userId serviceId purchase : ObjectId) (db partial : DB) (k : nat) :
  distributeBusinessVolumeWithSession roundsToZero failsAt userId serviceId purchase db
  = (inl (WriteFailed k), partial) ->
  exists rows,
    incomes partial = incomes db ++ rows /\ S (length rows) = k /\
    Forall (fun row => incomePurchase row = purchase) rows /\
    purchases partial = purchases db.
Proof.
  unfold distributeBusinessVolumeWithSession, bind.
  destruct (findService_reads serviceId db) as [Hs1 He1].
  destruct (findService serviceId db) as [[e1 | bvAmount] st1]; simpl in *.
  - intros H. injection H as H _. specialize (He1 e1 eq_refl). congruence.
  - subst st1. destruct (activeRule_reads db) as [Hs2 He2].
    destruct (activeRule db) as [[e2 | rule] st2]; simpl in *.
    + intros H. injection H as H _. specialize (He2 e2 eq_refl). congruence.
    + subst st2.
      destruct (creditChain roundsToZero failsAt userId purchase bvAmount
                  (Rules.decayEnabled rule) (ancestorChain (users db) userId)
                  1 (Rules.basePercentage rule) 0 db)
        as [[e3 | paid] st3] eqn:Hchain; [| discriminate].
      intros H. injection H as -> ->.
      apply creditChain_failure in Hchain.
      destruct Hchain as [rows [He [Hinc [Hall [_ [Hp _]]]]]].
      exists rows. injection He as ->. tauto.
Qed.

(** *** A sample database: member 6 under a chain of five ancestors *)

Definition link (i : ObjectId) (par : option ObjectId) : Placement.User :=
  Placement.mkUser i EmptyString EmptyString par None i.

Definition fiveAncestors : DB :=
  mkDB [ link 1 None; link 2 (Some 1); link 3 (Some 2); link 4 (Some 3);
         link 5 (Some 4); link 6 (Some 5) ]
       [ (10, Service.mkService (Some "Gold"%string) (Some 2000%Q) (Some 1000%Q)
                                (Some 1000%Q) (Some "active"%string) (Some true)) ]
       [ Rules.tenPercent ]
       [] [] [].

(** Amounts under half a cent round to zero. *)
Definition underHalfCent (a : Q) : bool := negb (Qle_bool 0.005 a).

Definition thirdWriteFails (lvl : nat) : bool := lvl =? 3.

Definition noFault (lvl : nat) : bool := false.

Example fiveAncestors_chain : ancestorChain (users fiveAncestors) 6 = [5; 4; 3; 2; 1].
Proof. reflexivity. Qed.

Example fiveAncestors_paid :
  fst (purchasesPOST underHalfCent noFault (idle fiveAncestors) 6 10 77)
  = PurchaseCreated 77 (mkDistribution 1000 5 5).
Proof. reflexivity. Qed.

(** The third write fails: when the callback throws, the working copy of
    the transaction holds the purchase with its placeholder BV and the
    credits of levels 1 and 2, and the committed collections hold none of
    them. *)
Example thirdWriteFails_partial :
  let (r, after) :=
    purchaseCallback underHalfCent thirdWriteFails 6 10 77
                     (mkServer fiveAncestors (Some fiveAncestors)) in
  r = inl (WriteFailed 3) /\ committed after = fiveAncestors /\
  option_map purchases (working after) = Some [mkPurchase 77 6 10 0] /\
  option_map (fun w => map (fun row => (toUser row, level row, Qred (amount row)))
                           (incomes w)) (working after)
  = Some [(5, 1, 100%Q); (4, 2, 50%Q)].
Proof. repeat split; reflexivity. Qed.

(** C1 — the purchase and its distribution are one transaction.  Suppose
    the walk, run after the purchase has been created, stops at a failing
    write at level [k].  At that moment the callback has written, through
    the session, the purchase record with its placeholder BV and one
    Income row of the purchase per level below [k]; the committed
    collections hold none of it.  Both purchase routes then fail with that
    error (the Express route answers 400, the Next.js route lets it leave
    the handler), the transaction is aborted and the server is as it was
    before the request: no Income row exists for the purchase and no
    purchase record, so no BV has been finalized. *)
Theorem purchase_is_atomic (roundsToZero : Q -> bool) (failsAt : nat -> bool)
        (db : DB) (userId serviceId fresh : ObjectId) (k : nat) :
  fst (distributeBusinessVolumeWithSession roundsToZero failsAt userId serviceId fresh
         (withPlaceholder db userId serviceId fresh)) = inl (WriteFailed k) ->
  (exists partial rows,
     purchaseCallback roundsToZero failsAt userId serviceId fresh (mkServer db (Some db))
     = (inl (WriteFailed k), mkServer db (Some partial)) /\
     purchases partial = purchases db ++ [mkPurchase fresh userId serviceId 0] /\
     incomes partial = incomes db ++ rows /\
     S (length rows) = k /\
     Forall (fun row => incomePurchase row = fresh) rows) /\
  purchasesPOST roundsToZero failsAt (idle db) userId serviceId fresh
  = (PurchaseFailed 400 (WriteFailed k), idle db) /\
  composedPOST roundsToZero failsAt (idle db) userId serviceId fresh
  = (PurchaseThrew (WriteFailed k), idle db) /\
  ((forall row, In row (incomes db) -> incomePurchase row <> fresh) ->
   filter (fun row => incomePurchase row =? fresh)
          (incomes (committed (snd (purchasesPOST roundsToZero failsAt (idle db)
                                      userId serviceId fresh))))
   = [] /\
   filter (fun row => incomePurchase row =? fresh)
          (incomes (committed (snd (composedPOST roundsToZero failsAt (idle db)
                                      userId serviceId fresh))))
   = []) /\
  ((forall p, In p (purchases db) -> purchaseId p <> fresh) ->
   forall p,
     In p (purchases (committed (snd (purchasesPOST roundsToZero failsAt (idle db)
                                        userId serviceId fresh))))
     \/ In p (purchases (committed (snd (composedPOST roundsToZero failsAt (idle db)
                                           userId serviceId fresh))))
     -> purchaseId p <> fresh).
Proof.
  intros Hfail.
  pose proof (purchaseCallback_run roundsToZero failsAt db db userId serviceId fresh)
    as Hrun.
  destruct (distributeBusinessVolumeWithSession roundsToZero failsAt userId serviceId fresh
              (withPlaceholder db userId serviceId fresh)) as [[e | d] partial] eqn:Hwalk;
    simpl in Hfail; [| discriminate Hfail].
  injection Hfail as ->.
  assert (Hposts :
            purchasesPOST roundsToZero failsAt (idle db) userId serviceId fresh
            = (PurchaseFailed 400 (WriteFailed k), idle db) /\
            composedPOST roundsToZero failsAt (idle db) userId serviceId fresh
            = (PurchaseThrew (WriteFailed k), idle db)).
  { unfold purchasesPOST, composedPOST, withTransaction, idle. simpl.
    rewrite Hrun. split; reflexivity. }
  destruct Hposts as [Hexpress Hnext].
  split; [| split; [exact Hexpress | split; [exact Hnext | split]]].
  - apply distribution_failure in Hwalk.
    destruct Hwalk as [rows [Hinc [Hlen [Hall Hp]]]].
    exists partial, rows. split; [exact Hrun |]. split; [exact Hp |].
    split; [exact Hinc |]. split; [exact Hlen | exact Hall].
  - intros Hfresh. rewrite Hexpress, Hnext. simpl.
    assert (Hnone : filter (fun row => incomePurchase row =? fresh) (incomes db) = []).
    { induction (incomes db) as [| row rows IH]; simpl; [reflexivity |].
      destruct (incomePurchase row =? fresh) eqn:E.
      - apply Nat.eqb_eq in E. exfalso. apply (Hfresh row); [now left | exact E].
      - apply IH. intros r Hr. apply Hfresh. now right. }
    now split.
  - intros Hfresh p. rewrite Hexpress, Hnext. simpl.
    intros [Hp | Hp]; now apply Hfresh.
Qed.

Lemma purchase_is_atomic_witness :
  purchasesPOST underHalfCent thirdWriteFails (idle fiveAncestors) 6 10 77
  = (PurchaseFailed 400 (WriteFailed 3), idle fiveAncestors) /\
  composedPOST underHalfCent thirdWriteFails (idle fiveAncestors) 6 10 77
  = (PurchaseThrew (WriteFailed 3), idle fiveAncestors) /\
  exists partial rows,
    purchaseCallback underHalfCent thirdWriteFails 6 10 77
                     (mkServer fiveAncestors (Some fiveAncestors))
    = (inl (WriteFailed 3), mkServer fiveAncestors (Some partial)) /\
    purchases partial = [mkPurchase 77 6 10 0] /\
    incomes partial = rows /\ length rows = 2.
Proof.
  destruct (@purchase_is_atomic underHalfCent thirdWriteFails fiveAncestors 6 10 77 3
              eq_refl) as [[partial [rows [Hcb [Hp [Hi [Hlen _]]]]]] [H1 [H2 _]]].
  split; [exact H1 |]. split; [exact H2 |].
  exists partial, rows. split; [exact Hcb |]. split; [exact Hp |].
  split; [exact Hi |]. now injection Hlen.
Defined.

(** *** The percentage schedule *)

(** The ledger rows a walk writes when no amount rounds to zero and no
    write fails. *)
Fixpoint rowsFor (purchaser purchase : ObjectId) (bvAmount : Q) (decay : bool)
         (chain : list ObjectId) (lvl : nat) (pct : Q) : list Income :=
  match chain with
  | [] => []
  | ancestor :: rest =>
      mkIncome ancestor purchaser purchase lvl (bvAmount * pct)%Q pct
      :: rowsFor purchaser purchase bvAmount decay rest (S lvl)
                 (if decay then (pct / 2)%Q else pct)
  end.

Definition logOf (row : Income) : IncomeLog :=
  mkIncomeLog (incomePurchase row) (toUser row) (level row) (amount row).

Definition sumQ (l : list Q) : Q := fold_right Qplus 0%Q l.

Lemma creditChain_all_paid (roundsToZero : Q -> bool)
      (purchaser purchase : ObjectId) (bvAmount : Q) (decay : bool)
      (chain : list ObjectId) :
  forall lvl pct paid db,
    Forall (fun row => roundsToZero (amount row) = false)
           (rowsFor purchaser purchase bvAmount decay chain lvl pct) ->
    creditChain roundsToZero noFault purchaser purchase bvAmount decay chain lvl pct paid db
    = (inr (paid + length chain),
       mkDB (users db) (services db) (rules db) (purchases db)
            (incomes db ++ rowsFor purchaser purchase bvAmount decay chain lvl pct)
            (incomeLogs db
             ++ map logOf (rowsFor purchaser purchase bvAmount decay chain lvl pct))).
Proof.
  induction chain as [| a rest IH]; intros lvl pct paid db Hall; simpl.
  - unfold ret. rewrite Nat.add_0_r, !app_nil_r. now destruct db.
  - inversion Hall as [| ? ? Hhead Htail]; subst. simpl in Hhead. rewrite Hhead.
    unfold bind, writeIncome, writeIncomeLog, noFault. simpl.
    rewrite IH by assumption. simpl.
    rewrite <- !app_assoc, <- plus_n_Sm. reflexivity.
Qed.

(** C2 — under an active rule with base percentage 0.10, a purchase of a
    member with six ancestors, none of whose amounts rounds to zero, is
    credited level by level.  With decay the six rows carry BV x 0.10,
    0.05, 0.025, 0.0125, 0.00625 and 0.003125, each percentage half of the
    one before, they sum to BV times the sum of that schedule, and
    [levelsPaid] is 6; without decay every level carries BV x 0.10. *)
Theorem decay_schedule_six_levels (roundsToZero : Q -> bool) (db : DB)
        (userId serviceId purchase : ObjectId) (bvAmount : Q)
        (rule : Rules.DistributionRule) (a1 a2 a3 a4 a5 a6 : ObjectId) :
  (forall x y, (x == y)%Q -> roundsToZero x = roundsToZero y) ->
  findService serviceId db = (inr bvAmount, db) ->
  activeRule db = (inr rule, db) ->
  Rules.basePercentage rule = 0.1%Q ->
  ancestorChain (users db) userId = [a1; a2; a3; a4; a5; a6] ->
  (Rules.decayEnabled rule = true ->
   Forall (fun pct => roundsToZero (bvAmount * pct)%Q = false)
          [0.1; 0.05; 0.025; 0.0125; 0.00625; 0.003125]%Q ->
   exists rows db',
     distributeBusinessVolumeWithSession roundsToZero noFault userId serviceId purchase db
     = (inr (mkDistribution bvAmount 6 6), db') /\
     incomes db' = incomes db ++ rows /\
     map toUser rows = [a1; a2; a3; a4; a5; a6] /\
     map level rows = [1; 2; 3; 4; 5; 6] /\
     Forall (fun row => incomePurchase row = purchase /\ fromUser row = userId) rows /\
     Forall2 Qeq (map percentage rows)
             [0.1; 0.05; 0.025; 0.0125; 0.00625; 0.003125]%Q /\
     Forall2 Qeq (map amount rows)
             [bvAmount * 0.1; bvAmount * 0.05; bvAmount * 0.025;
              bvAmount * 0.0125; bvAmount * 0.00625; bvAmount * 0.003125]%Q /\
     (sumQ (map amount rows)
      == bvAmount * (0.1 + 0.05 + 0.025 + 0.0125 + 0.00625 + 0.003125))%Q) /\
  (Rules.decayEnabled rule = false ->
   roundsToZero (bvAmount * 0.1)%Q = false ->
   exists rows db',
     distributeBusinessVolumeWithSession roundsToZero noFault userId serviceId purchase db
     = (inr (mkDistribution bvAmount 6 6), db') /\
     incomes db' = incomes db ++ rows /\
     map toUser rows = [a1; a2; a3; a4; a5; a6] /\
     Forall (fun row => percentage row = 0.1%Q /\ amount row = (bvAmount * 0.1)%Q) rows).
Proof.
  intros Hcompat Hservice Hrule Hbase Hchain. split.
  - intros Hdecay Hpaid.
    set (rows := rowsFor userId purchase bvAmount true [a1; a2; a3; a4; a5; a6] 1 0.1%Q).
    assert (Hall : Forall (fun row => roundsToZero (amount row) = false) rows).
    { repeat match goal with
             | H : Forall _ (_ :: _) |- _ => inversion H; clear H; subst
             end.
      assert (Hrow : forall p q, (p == q)%Q ->
                                 roundsToZero (bvAmount * q)%Q = false ->
                                 roundsToZero (bvAmount * p)%Q = false).
      { intros p q Hpq Hq. rewrite <- Hq. apply Hcompat.
        apply Qmult_comp; [reflexivity | exact Hpq]. }
      subst rows. simpl.
      repeat (constructor;
              [ simpl;
                match goal with
                | H : roundsToZero (bvAmount * ?q)%Q = false |- _ =>
                    apply (Hrow _ q); [vm_compute; reflexivity | exact H]
                end |]).
      constructor. }
    exists rows. eexists. split; [| split; [| split; [| split; [| split; [| split]]]]].
    + unfold distributeBusinessVolumeWithSession, bind.
      rewrite Hservice, Hrule, Hchain, Hbase, Hdecay.
      rewrite (creditChain_all_paid roundsToZero userId purchase bvAmount true _ _ _ _ _ Hall).
      reflexivity.
    + reflexivity.
    + reflexivity.
    + reflexivity.
    + subst rows. simpl. repeat constructor.
    + subst rows. simpl. repeat (constructor; [vm_compute; reflexivity |]). constructor.
    + split.
      * subst rows. simpl.
        repeat (constructor;
                [apply Qmult_comp; [reflexivity | vm_compute; reflexivity] |]).
        constructor.
      * subst rows. unfold sumQ. simpl. field.
  - intros Hdecay Hpaid.
    set (rows := rowsFor userId purchase bvAmount false [a1; a2; a3; a4; a5; a6] 1 0.1%Q).
    assert (Hall : Forall (fun row => roundsToZero (amount row) = false) rows).
    { subst rows. simpl. repeat (constructor; [exact Hpaid |]). constructor. }
    exists rows. eexists. split; [| split; [| split]].
    + unfold distributeBusinessVolumeWithSession, bind.
      rewrite Hservice, Hrule, Hchain, Hbase, Hdecay.
      rewrite (creditChain_all_paid roundsToZero userId purchase bvAmount false _ _ _ _ _ Hall).
      reflexivity.
    + reflexivity.
    + reflexivity.
    + subst rows. simpl. repeat constructor.
Qed.

(** Member 7 under a chain of six ancestors. *)
Definition sixAncestors : DB :=
  mkDB (users fiveAncestors ++ [link 7 (Some 6)])
       (services fiveAncestors) (rules fiveAncestors) [] [] [].

Lemma underHalfCent_compat (x y : Q) : (x == y)%Q -> underHalfCent x = underHalfCent y.
Proof. intros H. unfold underHalfCent. now rewrite H. Qed.

Example sixAncestors_amounts :
  map (fun row => (toUser row, level row, Qred (amount row)))
      (incomes (committed (snd (purchasesPOST underHalfCent noFault (idle sixAncestors)
                                  7 10 77))))
  = [ (6, 1, 100%Q); (5, 2, 50%Q); (4, 3, 25%Q); (3, 4, (25 # 2)%Q);
      (2, 5, (25 # 4)%Q); (1, 6, (25 # 8)%Q) ].
Proof. reflexivity. Qed.

Lemma decay_schedule_six_levels_witness :
  exists rows db',
    distributeBusinessVolumeWithSession underHalfCent noFault 7 10 77 sixAncestors
    = (inr (mkDistribution 1000 6 6), db') /\
    incomes db' = incomes sixAncestors ++ rows /\
    (sumQ (map amount rows)
     == 1000 * (0.1 + 0.05 + 0.025 + 0.0125 + 0.00625 + 0.003125))%Q.
Proof.
  destruct (@decay_schedule_six_levels underHalfCent sixAncestors 7 10 77 1000
              Rules.tenPercent 6 5 4 3 2 1 underHalfCent_compat
              eq_refl eq_refl eq_refl eq_refl) as [Hdecay _].
  destruct (Hdecay eq_refl) as [rows [db' [H1 [H2 [_ [_ [_ [_ [_ H8]]]]]]]]].
  - repeat constructor.
  - exists rows, db'. repeat split; assumption.
Defined.

End Purchases.

(** ** What a placement search does to the collection
       ([findBinaryPlacement] in [lib/binaryPlacement.ts]) *)
Module PlacementSearch.

Import Placement.

(** What a search may do to a stored document: nothing, or give a position
    to a document that had none. *)
Definition filledIn (u v : User) : Prop :=
  _id v = _id u /\ email v = email u /\ referralCode v = referralCode u /\
  parent v = parent u /\ createdAt v = createdAt u /\
  (position v = position u \/ (position u = None /\ position v <> None)).

(** A collection without legacy documents: every document under a parent
    has its position. *)
Definition noLegacy (store : Store) : Prop :=
  forall u, In u store -> parent u <> None -> position u <> None.

(** The write a search makes to [u] when it fetches the children of [p]. *)
Definition writtenUnder (store : Store) (s : ObjectId) (log : list ObjectId)
           (u v : User) : Prop :=
  v = u \/
  (position u = None /\
   exists p pos d, parent u = Some p /\ descends store s d p /\ In p log /\
                   v = setPosition pos u).

Lemma filledIn_refl (u : User) : filledIn u u.
Proof. unfold filledIn. tauto. Qed.

Lemma filledIn_trans (u v w : User) : filledIn u v -> filledIn v w -> filledIn u w.
Proof.
  unfold filledIn. intros (A1 & A2 & A3 & A4 & A5 & A6) (B1 & B2 & B3 & B4 & B5 & B6).
  repeat split; try congruence.
  destruct A6 as [A6 | [A6 A7]], B6 as [B6 | [B6 B7]]; try (left; congruence);
    right; split; congruence.
Qed.

Lemma Forall2_refl_on (A : Type) (R : A -> A -> Prop) (l : list A) :
  (forall a, R a a) -> Forall2 R l l.
Proof. intros H. induction l; constructor; auto. Qed.

Lemma Forall2_trans_on (A : Type) (R : A -> A -> Prop) :
  (forall a b c, R a b -> R b c -> R a c) ->
  forall l1 l2 l3, Forall2 R l1 l2 -> Forall2 R l2 l3 -> Forall2 R l1 l3.
Proof.
  intros HR l1 l2 l3 H12. revert l3.
  induction H12; intros l3 H23; inversion H23; subst; constructor; eauto.
Qed.

Lemma setPosition_filledIn (pos : BinaryPosition) (u : User) :
  position u = None -> filledIn u (setPosition pos u).
Proof.
  intros H. unfold filledIn. simpl. repeat split; try reflexivity.
  right. split; [exact H | discriminate].
Qed.

Lemma updateOne_filledIn (store : Store) (t : ObjectId) (pos : BinaryPosition) :
  Forall2 filledIn store (updateOne store t pos).
Proof.
  induction store as [| u rest IH]; simpl; [constructor |].
  destruct (position u) eqn:Ep.
  - rewrite andb_false_r. constructor; [apply filledIn_refl | exact IH].
  - rewrite andb_true_r. destruct (_id u =? t).
    + constructor; [now apply setPosition_filledIn |].
      apply Forall2_refl_on, filledIn_refl.
    + constructor; [apply filledIn_refl | exact IH].
Qed.

Lemma applyUpdates_filledIn (plan : list (ObjectId * BinaryPosition)) :
  forall store, Forall2 filledIn store (applyUpdates plan store).
Proof.
  unfold applyUpdates. induction plan as [| [t pos] plan IH]; intros store; simpl.
  - apply Forall2_refl_on, filledIn_refl.
  - eapply Forall2_trans_on; [exact filledIn_trans | apply updateOne_filledIn | apply IH].
Qed.

Lemma processNode_filledIn (store : Store) (p : ObjectId) :
  Forall2 filledIn store (snd (processNode store p)).
Proof. rewrite processNode_store, backfilled_plan. apply applyUpdates_filledIn. Qed.

Lemma bfs_filledIn (maxVisits : N) (fuel : nat) :
  forall store queue visited log,
    Forall2 filledIn store (finalStore (bfs maxVisits fuel store queue visited log)).
Proof.
  induction fuel as [| fuel IH]; intros store queue visited log; simpl.
  - apply Forall2_refl_on, filledIn_refl.
  - destruct queue as [| p queue]; simpl; [apply Forall2_refl_on, filledIn_refl |].
    destruct (setHas p visited); [apply IH |].
    destruct (maxVisits <? _)%N; simpl; [apply Forall2_refl_on, filledIn_refl |].
    pose proof (processNode_filledIn store p) as Hp.
    destruct (processNode store p) as [[missing | pushed] store']; simpl in *.
    + exact Hp.
    + eapply Forall2_trans_on; [exact filledIn_trans | exact Hp | apply IH].
Qed.

Lemma findChildren_none (store : Store) (p : ObjectId) :
  (forall u, In u store -> parent u <> Some p) -> findChildren store p = [].
Proof.
  intros H. unfold findChildren.
  assert (E : filter (hasParent p) store = []).
  { induction store as [| u rest IH]; simpl; [reflexivity |].
    destruct (hasParent p u) eqn:Eu.
    - apply hasParent_true in Eu. elim (H u); simpl; auto.
    - apply IH. intros v Hv. apply H. now right. }
  now rewrite E.
Qed.

Lemma noLegacy_plan (store : Store) (p : ObjectId) :
  noLegacy store -> backfillPlan (findChildren store p) = [].
Proof.
  intros H.
  assert (E : filter isUnpositioned (findChildren store p) = []).
  { destruct (filter isUnpositioned (findChildren store p)) as [| c cs] eqn:Ef;
      [reflexivity |].
    assert (Hc : In c (filter isUnpositioned (findChildren store p)))
      by (rewrite Ef; now left).
    apply filter_In in Hc. destruct Hc as [Hc Hu].
    apply In_findChildren in Hc. destruct Hc as [Hc Hp].
    unfold isUnpositioned in Hu. destruct (position c) eqn:Epos; [discriminate |].
    elim (H c Hc); [congruence | exact Epos]. }
  unfold backfillPlan. rewrite E. simpl.
  destruct (existsb (isPos Left) _), (existsb (isPos Right) _); reflexivity.
Qed.

Lemma noLegacy_processNode (store : Store) (p : ObjectId) :
  noLegacy store -> snd (processNode store p) = store.
Proof.
  intros H. rewrite processNode_store, backfilled_plan, (noLegacy_plan p H). reflexivity.
Qed.

Lemma noLegacy_bfs (maxVisits : N) (fuel : nat) :
  forall store queue visited log,
    noLegacy store ->
    finalStore (bfs maxVisits fuel store queue visited log) = store.
Proof.
  induction fuel as [| fuel IH]; intros store queue visited log H; simpl; [reflexivity |].
  destruct queue as [| p queue]; simpl; [reflexivity |].
  destruct (setHas p visited); [now apply IH |].
  destruct (maxVisits <? _)%N; simpl; [reflexivity |].
  pose proof (noLegacy_processNode p H) as Hp.
  destruct (processNode store p) as [[missing | pushed] store']; simpl in *; subst store'.
  - reflexivity.
  - now apply IH.
Qed.

Lemma Forall2_map_r (A : Type) (R : A -> A -> Prop) (f : A -> A) (l : list A) :
  (forall a, In a l -> R a (f a)) -> Forall2 R l (map f l).
Proof.
  induction l as [| a l IH]; intros H; simpl; constructor.
  - apply H. now left.
  - apply IH. intros b Hb. apply H. now right.
Qed.

Lemma Forall2_In_l (A B : Type) (R : A -> B -> Prop) (l : list A) (l' : list B) (a : A) :
  Forall2 R l l' -> In a l -> exists b, In b l' /\ R a b.
Proof.
  induction 1 as [| x y l l' Hxy HF IH]; intros Hin; [destruct Hin |].
  destruct Hin as [<- | Hin].
  - exists y. split; [now left | exact Hxy].
  - destruct (IH Hin) as [b [Hb Hr]]. exists b. split; [now right | exact Hr].
Qed.

Lemma Forall2_compose (A : Type) (R1 R2 R3 : A -> A -> Prop) :
  (forall a b c, R1 a b -> R2 b c -> R3 a c) ->
  forall l1 l2 l3, Forall2 R1 l1 l2 -> Forall2 R2 l2 l3 -> Forall2 R3 l1 l3.
Proof.
  intros HR l1 l2 l3 H12. revert l3.
  induction H12; intros l3 H23; inversion H23; subst; constructor; eauto.
Qed.

(** The writes of one loop body: only children of the fetched node that had
    no position are written, and only their position. *)
Lemma processNode_written (store : Store) (p : ObjectId) :
  NoDup (map _id store) ->
  Forall2 (fun u v => v = u \/
                      (position u = None /\ parent u = Some p /\
                       exists pos, v = setPosition pos u))
          store (snd (processNode store p)).
Proof.
  intros Hids. rewrite processNode_store, backfilled_plan, applyUpdates_map by exact Hids.
  apply Forall2_map_r. intros u Hu.
  set (plan := backfillPlan (findChildren store p)).
  destruct (isUnpositioned u) eqn:Eu; [| left; now apply assign_positioned].
  destruct (in_dec Nat.eq_dec (_id u) (map fst plan)) as [Hin | Hout];
    [| left; now apply assign_untargeted].
  apply in_map_iff in Hin. destruct Hin as [[t pos] [Ht Hin]]. simpl in Ht. subst t.
  right. split; [| split].
  - unfold isUnpositioned in Eu. destruct (position u); [discriminate | reflexivity].
  - destruct (@backfillPlan_targets (findChildren store p) (_id u) pos Hin) as [Hleg _].
    apply in_map_iff in Hleg. destruct Hleg as [c [Hc Hcin]].
    apply filter_In in Hcin. destruct Hcin as [Hcin _].
    apply In_findChildren in Hcin. destruct Hcin as [Hcin Hcp].
    now rewrite <- (@same_id_same_document store c u Hids Hcin Hu Hc).
  - exists pos. apply assign_targeted; [| exact Hin | exact Eu].
    now apply backfillPlan_targets_nodup.
Qed.

Lemma bfs_log_incl (maxVisits : N) (fuel : nat) :
  forall store queue visited log,
    incl log (fetched (bfs maxVisits fuel store queue visited log)).
Proof.
  induction fuel as [| fuel IH]; intros store queue visited log; simpl;
    [apply incl_refl |].
  destruct queue as [| p queue]; simpl; [apply incl_refl |].
  destruct (setHas p visited); [apply IH |].
  destruct (maxVisits <? _)%N; simpl; [apply incl_refl |].
  destruct (processNode store p) as [[missing | pushed] store']; simpl.
  - apply incl_appl, incl_refl.
  - intros x Hx. apply IH. apply in_or_app. now left.
Qed.

Section Locality.

Variable store0 : Store.
Variable s : ObjectId.

Lemma written_step (p : ObjectId) (d : nat) (L : list ObjectId) (u v w : User) :
  descends store0 s d p -> In p L ->
  (v = u \/ (position u = None /\ parent u = Some p /\
             exists pos, v = setPosition pos u)) ->
  writtenUnder store0 s L v w ->
  writtenUnder store0 s L u w.
Proof.
  intros Hd Hp [-> | (Hu & Hpar & pos & ->)] Hw; [exact Hw |].
  destruct Hw as [-> | [Hnone _]]; [| discriminate Hnone].
  right. split; [exact Hu |]. exists p, pos, d. auto.
Qed.

Lemma bfs_written (maxVisits : N) (fuel : nat) :
  forall store queue visited log,
    NoDup (map _id store) ->
    map idParent store = map idParent store0 ->
    (forall n, In n queue -> exists d, descends store0 s d n) ->
    Forall2 (writtenUnder store0 s (fetched (bfs maxVisits fuel store queue visited log)))
            store (finalStore (bfs maxVisits fuel store queue visited log)).
Proof.
  induction fuel as [| fuel IH]; intros store queue visited log Hids Hmap Hq; simpl.
  - apply Forall2_refl_on. intros a. red. auto.
  - destruct queue as [| p queue]; simpl; [apply Forall2_refl_on; intros a; red; auto |].
    destruct (setHas p visited).
    { apply IH; try assumption. intros n Hn. apply Hq. now right. }
    destruct (maxVisits <? _)%N; simpl; [apply Forall2_refl_on; intros a; red; auto |].
    destruct (Hq p (or_introl eq_refl)) as [d Hd].
    pose proof (@processNode_written store p Hids) as Hw.
    pose proof (processNode_ids store p) as Hids'.
    pose proof (processNode_idParent store p) as Hmap'.
    destruct (processNode store p) as [[missing | pushed] store'] eqn:Hproc; simpl in *.
    + apply Forall2_compose
        with (R1 := fun u v => v = u \/
                               (position u = None /\ parent u = Some p /\
                                exists pos, v = setPosition pos u))
             (R2 := writtenUnder store0 s (log ++ [p])) (l2 := store');
        [| exact Hw | apply Forall2_refl_on; intros a; red; auto].
      intros a b c Hab Hbc. eapply written_step; try eassumption.
      apply in_or_app. right. now left.
    + apply Forall2_compose
        with (R1 := fun u v => v = u \/
                               (position u = None /\ parent u = Some p /\
                                exists pos, v = setPosition pos u))
             (R2 := writtenUnder store0 s
                      (fetched (bfs maxVisits fuel store' (queue ++ pushed)
                                    (setAdd p visited) (log ++ [p]))))
             (l2 := store');
        [| exact Hw | apply IH].
      * intros a b c Hab Hbc. eapply written_step; try eassumption.
        apply bfs_log_incl. apply in_or_app. right. now left.
      * now rewrite Hids'.
      * now rewrite Hmap'.
      * intros n Hn. apply in_app_or in Hn. destruct Hn as [Hn | Hn];
          [apply Hq; now right |].
        destruct (@processNode_full_children store store' p pushed Hids Hproc) as [_ [Hch _]].
        exists (S d). econstructor; [exact Hd |].
        unfold isChild. rewrite <- Hmap. now apply Hch.
Qed.

End Locality.

(** X1 — a sponsor under whom no document is stored gets its own left
    slot: the search fetches one node, writes nothing and returns
    [(sponsorId, left)].  The sponsor's own document is never read, so this
    holds for an id no document carries as well. *)
Theorem sponsor_without_children (store : Store) (sponsorId : ObjectId) :
  (forall u, In u store -> parent u <> Some sponsorId) ->
  findBinaryPlacement store sponsorId
  = mkRun (Placed sponsorId Left) store [sponsorId] [sponsorId].
Proof.
  intros H. unfold findBinaryPlacement, findBinaryPlacementWith, placementFuel.
  rewrite bfs_fresh_step; [| reflexivity | simpl; unfold MAX_VISITS; lia].
  unfold processNode, backfilled. rewrite (findChildren_none _ H). reflexivity.
Qed.

Lemma sponsor_without_children_witness :
  findBinaryPlacement [member 1 None None 0] 7
  = mkRun (Placed 7 Left) [member 1 None None 0] [7] [7].
Proof.
  apply (@sponsor_without_children [member 1 None None 0] 7).
  intros u [<- | []]; discriminate.
Defined.

(** X2 — whatever the collection and the sponsor, a search keeps the
    documents in place and in number, never touches an [_id], [email],
    [referralCode], [parent] or [createdAt], and never changes or clears a
    position that is set: the only write is to give a position to a
    document that had none. *)
Theorem search_preserves_documents (store : Store) (sponsorId : ObjectId) :
  Forall2 filledIn store (finalStore (findBinaryPlacement store sponsorId)) /\
  length (finalStore (findBinaryPlacement store sponsorId)) = length store.
Proof.
  pose proof (@bfs_filledIn MAX_VISITS (placementFuel store) store [sponsorId] [] []) as H.
  split; [exact H |]. symmetry. eapply Forall2_length. exact H.
Qed.

(** X3 — on a collection without legacy documents (every document under a
    parent has its position) a search writes nothing: the collection after
    the call is the collection before it. *)
Theorem search_is_read_only_without_legacy (store : Store) (sponsorId : ObjectId) :
  noLegacy store ->
  finalStore (findBinaryPlacement store sponsorId) = store.
Proof. intros H. now apply noLegacy_bfs. Qed.

Lemma search_is_read_only_without_legacy_witness :
  finalStore (findBinaryPlacement sampleTree 1) = sampleTree.
Proof.
  apply (@search_is_read_only_without_legacy sampleTree 1).
  intros u Hu Hp.
  repeat (destruct Hu as [<- | Hu]; [simpl in *; congruence |]). destruct Hu.
Defined.

(** X4 — on a collection with unique ids every write of a search stays
    inside the sponsor's subtree: a document is either left as it was or it
    had no position, its parent is the sponsor or a descendant of the
    sponsor whose children the search fetched, and the write sets its
    position and nothing else.  Documents whose parent is not in the
    subtree are found unchanged after the call. *)
Theorem search_writes_stay_in_subtree (store : Store) (sponsorId : ObjectId) :
  NoDup (map _id store) ->
  Forall2 (writtenUnder store sponsorId
             (fetched (findBinaryPlacement store sponsorId)))
          store (finalStore (findBinaryPlacement store sponsorId)) /\
  (forall u, In u store ->
     (forall p d, parent u = Some p -> ~ descends store sponsorId d p) ->
     In u (finalStore (findBinaryPlacement store sponsorId))).
Proof.
  intros Hids.
  assert (H : Forall2 (writtenUnder store sponsorId
                         (fetched (findBinaryPlacement store sponsorId)))
                      store (finalStore (findBinaryPlacement store sponsorId))).
  { apply (@bfs_written store sponsorId MAX_VISITS (placementFuel store));
      [exact Hids | reflexivity |].
    intros n [<- | []]. exists 0. constructor. }
  split; [exact H |].
  intros u Hu Hout. destruct (@Forall2_In_l _ _ _ _ _ u H Hu) as [v [Hv Hw]].
  destruct Hw as [-> | [_ (p & pos & d & Hp & Hd & _)]]; [exact Hv |].
  elim (Hout p d Hp Hd).
Qed.

Lemma search_writes_stay_in_subtree_witness :
  Forall2 (writtenUnder legacyFamily 1 (fetched (findBinaryPlacement legacyFamily 1)))
          legacyFamily (finalStore (findBinaryPlacement legacyFamily 1)).
Proof.
  exact (proj1 (@search_writes_stay_in_subtree legacyFamily 1 legacyFamily_ids)).
Defined.

End PlacementSearch.

From Stdlib Require Import Ascii Qround.

(** ** Referral codes and the registration handler
       ([lib/referral.ts], [app/api/auth/register/route.ts],
       [app.post("/api/auth/register")] in [routes.ts]) *)
Module RegistrationFacts.

Import Placement Registration PlacementSearch.

Definition ALPHABET : string := "ABCDEFGHJKLMNPQRSTUVWXYZ23456789".

(** [ALPHABET[i]] as [out +=] appends it: the character at [i], and the
    text of [undefined] for an index outside the string. *)
Definition alphabetAt (i : Z) : string :=
  match (if (i <? 0)%Z then None else String.get (Z.to_nat i) ALPHABET) with
  | Some c => String c EmptyString
  | None => "undefined"
  end.

(** [randomCode(length)]; [random k] is what the [k]-th call of
    [Math.random()] of this run returns, and [pick random k] is
    [ALPHABET[Math.floor(Math.random() * ALPHABET.length)]] at that call. *)
Definition pick (random : nat -> Q) (k : nat) : string :=
  alphabetAt (Qfloor (random k * inject_Z (Z.of_nat (String.length ALPHABET)))).

Definition randomCode (random : nat -> Q) (len : nat) : string :=
  fold_left (fun out i => (out ++ pick random i)%string) (seq 0 len) EmptyString.

(** The characters the alphabet leaves out as ambiguous. *)
Definition ambiguous : list ascii := ["0"; "O"; "1"; "I"]%char.

Definition taken (store : Store) (code : string) : Prop :=
  exists u, In u store /\ referralCode u = code.

Lemma string_length_app (a b : string) :
  String.length (a ++ b) = String.length a + String.length b.
Proof. induction a as [| c a IH]; simpl; [reflexivity | now rewrite IH]. Qed.

Lemma chars_app (a b : string) :
  list_ascii_of_string (a ++ b) = list_ascii_of_string a ++ list_ascii_of_string b.
Proof. induction a as [| c a IH]; simpl; [reflexivity | now rewrite IH]. Qed.

Lemma alphabet_get (n : nat) :
  n < 32 -> exists c, String.get n ALPHABET = Some c /\
                      In c (list_ascii_of_string ALPHABET).
Proof.
  intros H.
  do 32 (destruct n as [| n]; [eexists; split; [reflexivity | simpl; tauto] |]).
  lia.
Qed.

Lemma pick_char (random : nat -> Q) (k : nat) :
  (0 <= random k)%Q -> (random k < 1)%Q ->
  exists c, pick random k = String c EmptyString /\
            In c (list_ascii_of_string ALPHABET).
Proof.
  intros H0 H1. unfold pick. change (Z.of_nat (String.length ALPHABET)) with 32%Z.
  set (j := Qfloor (random k * inject_Z 32)).
  assert (Hlo : (0 <= j)%Z).
  { change 0%Z with (Qfloor (inject_Z 0)). apply Qfloor_resp_le.
    change (inject_Z 0) with 0%Q. apply Qmult_le_0_compat; [exact H0 | discriminate]. }
  assert (Hhi : (j < 32)%Z).
  { rewrite Zlt_Qlt. apply Qle_lt_trans with (random k * inject_Z 32)%Q;
      [apply Qfloor_le |].
    apply Qlt_le_trans with (1 * inject_Z 32)%Q; [| apply Qle_refl].
    apply Qmult_lt_compat_r; [reflexivity | exact H1]. }
  unfold alphabetAt.
  destruct (j <? 0)%Z eqn:E; [apply Z.ltb_lt in E; lia |].
  destruct (@alphabet_get (Z.to_nat j)) as [c [Hc Hin]]; [lia |].
  exists c. now rewrite Hc.
Qed.

Lemma randomCode_from (random : nat -> Q) (len : nat) :
  forall start acc,
    (forall i, start <= i < start + len -> (0 <= random i)%Q /\ (random i < 1)%Q) ->
    let out := fold_left (fun out i => (out ++ pick random i)%string)
                         (seq start len) acc in
    String.length out = String.length acc + len /\
    forall c, In c (list_ascii_of_string out) ->
              In c (list_ascii_of_string acc) \/ In c (list_ascii_of_string ALPHABET).
Proof.
  induction len as [| len IH]; intros start acc Hr; simpl.
  - split; [lia | tauto].
  - destruct (Hr start) as [H0 H1]; [lia |].
    destruct (pick_char random start H0 H1) as [c [Hc Hin]].
    destruct (IH (S start) (acc ++ pick random start)%string) as [Hlen Hchars].
    { intros i Hi. apply Hr. lia. }
    split.
    + rewrite Hlen, string_length_app, Hc. simpl. lia.
    + intros x Hx. destruct (Hchars x Hx) as [Hacc | Halpha]; [| now right].
      rewrite chars_app, Hc in Hacc. apply in_app_or in Hacc.
      destruct Hacc as [Hacc | [<- | []]]; [now left | now right].
Qed.

Lemma find_split (A : Type) (f : A -> bool) (l : list A) (a : A) :
  find f l = Some a ->
  exists pre post, l = pre ++ a :: post /\ f a = true /\
                   forall b, In b pre -> f b = false.
Proof.
  induction l as [| x l IH]; simpl; [discriminate |].
  destruct (f x) eqn:E.
  - intros Heq. injection Heq as <-. exists [], l. simpl. tauto.
  - intros H. destruct (IH H) as (pre & post & -> & Hf & Hpre).
    exists (x :: pre), post. simpl. repeat split; try assumption.
    intros b [<- | Hb]; auto.
Qed.

Lemma findByReferralCode_none (store : Store) (code : string) :
  findByReferralCode store code = None <-> ~ taken store code.
Proof.
  unfold findByReferralCode, taken. split.
  - intros H [u [Hu Hc]]. apply (find_none _ _ H) in Hu.
    apply String.eqb_neq in Hu. contradiction.
  - intros H. destruct (find _ store) as [u |] eqn:E; [| reflexivity].
    apply find_some in E. destruct E as [Hu Hc]. apply String.eqb_eq in Hc.
    elim H. eauto.
Qed.

Lemma findByEmail_none (store : Store) (e : string) :
  findByEmail store e = None <-> ~ In e (map email store).
Proof.
  unfold findByEmail. split.
  - intros H Hin. apply in_map_iff in Hin. destruct Hin as [u [He Hu]].
    apply (find_none _ _ H) in Hu. apply String.eqb_neq in Hu. contradiction.
  - intros H. destruct (find _ store) as [u |] eqn:E; [| reflexivity].
    apply find_some in E. destruct E as [Hu Hc]. apply String.eqb_eq in Hc.
    elim H. apply in_map_iff. eauto.
Qed.

Lemma find_last (A : Type) (f : A -> bool) (l : list A) (a : A) :
  (forall b, In b l -> f b = false) -> f a = true -> find f (l ++ [a]) = Some a.
Proof.
  induction l as [| x l IH]; intros Hl Ha; simpl.
  - now rewrite Ha.
  - rewrite (Hl x) by now left. apply IH; [| exact Ha].
    intros b Hb. apply Hl. now right.
Qed.

Lemma filledIn_maps (l l' : Store) :
  Forall2 filledIn l l' ->
  map _id l' = map _id l /\ map email l' = map email l /\
  map referralCode l' = map referralCode l.
Proof.
  induction 1 as [| u v l l' (A1 & A2 & A3 & _) HF (I1 & I2 & I3)]; simpl;
    [auto |].
  repeat split; congruence.
Qed.

Lemma existsb_false_map (A B : Type) (key : A -> B) (eqb : B -> B -> bool)
      (l : list A) (k : B) :
  (forall x y, eqb x y = true <-> x = y) ->
  existsb (fun a => eqb (key a) k) l = false -> ~ In k (map key l).
Proof.
  intros Heq H Hin. apply in_map_iff in Hin. destruct Hin as [a [Ha Hin]].
  assert (Ht : existsb (fun a => eqb (key a) k) l = true).
  { apply existsb_exists. exists a. split; [exact Hin | now apply Heq]. }
  congruence.
Qed.

(** What a successful [create] says about the new document. *)
Lemma create_fresh (store store' : Store) (doc : User) :
  create store doc = inr store' ->
  store' = store ++ [doc] /\
  ~ In (_id doc) (map _id store) /\ ~ In (email doc) (map email store) /\
  ~ In (referralCode doc) (map referralCode store).
Proof.
  unfold create.
  destruct (existsb (fun u => _id u =? _id doc) store) eqn:E1; [discriminate |].
  destruct (existsb (fun u => String.eqb (email u) (email doc)) store) eqn:E2;
    [discriminate |].
  destruct (existsb (fun u => String.eqb (referralCode u) (referralCode doc)) store) eqn:E3;
    [discriminate |].
  destruct (slotTaken store doc); [discriminate |].
  intros Heq. injection Heq as <-. repeat split.
  - exact (@existsb_false_map _ _ _id Nat.eqb store (_id doc) Nat.eqb_eq E1).
  - exact (@existsb_false_map _ _ email String.eqb store (email doc) String.eqb_eq E2).
  - exact (@existsb_false_map _ _ referralCode String.eqb store (referralCode doc)
                              String.eqb_eq E3).
Qed.

Lemma generate_in_draws (store : Store) (draws : list string) (code : string) :
  generateUniqueReferralCode store draws = Some code -> In code (firstn 10 draws).
Proof. unfold generateUniqueReferralCode. intros H. now apply find_some in H. Qed.

Lemma insertUser_created (store store' : Store) (body : RegisterBody) (draws : Draws)
      (parentId : option ObjectId) (pos : option BinaryPosition) (u : User) :
  insertUser store body draws parentId pos = (Created u, store') ->
  store' = store ++ [u] /\
  _id u = newId draws /\ email u = bodyEmail body /\ createdAt u = now draws /\
  parent u = parentId /\ position u = pos /\
  In (referralCode u) (firstn 10 (drawnCodes draws)) /\
  ~ In (_id u) (map _id store) /\ ~ In (email u) (map email store) /\
  ~ In (referralCode u) (map referralCode store).
Proof.
  unfold insertUser.
  destruct (generateUniqueReferralCode store (drawnCodes draws)) as [code |] eqn:Eg;
    [| discriminate].
  destruct (create store _) as [i | st] eqn:Ec; [discriminate |].
  intros Heq. injection Heq as <- <-.
  apply create_fresh in Ec. destruct Ec as (-> & H1 & H2 & H3). simpl in *.
  repeat split; try assumption.
  now apply (@generate_in_draws store (drawnCodes draws) code).
Qed.

Lemma insertUser_rejected (store store' : Store) (body : RegisterBody) (draws : Draws)
      (parentId : option ObjectId) (pos : option BinaryPosition)
      (status : nat) (e : RegisterError) :
  insertUser store body draws parentId pos = (Rejected status e, store') ->
  store' = store /\ status = 400 /\
  (e = CodeGenerationFailed \/ exists i, e = DuplicateKey i).
Proof.
  unfold insertUser.
  destruct (generateUniqueReferralCode store (drawnCodes draws)) as [code |].
  - destruct (create store _) as [i | st]; [| discriminate].
    intros Heq. injection Heq as <- <- <-. repeat split. right. now exists i.
  - intros Heq. injection Heq as <- <- <-. repeat split. now left.
Qed.

(** One request keeps the three unique keys of the collection unique. *)
Definition uniqueKeys (store : Store) : Prop :=
  NoDup (map _id store) /\ NoDup (map email store) /\ NoDup (map referralCode store).

Lemma NoDup_snoc (A : Type) (l : list A) (a : A) :
  NoDup l -> ~ In a l -> NoDup (l ++ [a]).
Proof.
  intros Hl Ha. apply NoDup_app; [exact Hl | repeat constructor; simpl; tauto |].
  intros x Hx [<- | []]. contradiction.
Qed.

Lemma insertUser_uniqueKeys (store : Store) (body : RegisterBody) (draws : Draws)
      (parentId : option ObjectId) (pos : option BinaryPosition) :
  uniqueKeys store -> uniqueKeys (snd (insertUser store body draws parentId pos)).
Proof.
  intros (H1 & H2 & H3).
  destruct (insertUser store body draws parentId pos) as [[u | status e] store'] eqn:E;
    simpl.
  - apply insertUser_created in E.
    destruct E as (-> & _ & _ & _ & _ & _ & _ & F1 & F2 & F3).
    unfold uniqueKeys. rewrite !map_app. simpl.
    repeat split; now apply NoDup_snoc.
  - apply insertUser_rejected in E. destruct E as (-> & _). now repeat split.
Qed.

Lemma search_uniqueKeys (store : Store) (sponsorId : ObjectId) :
  uniqueKeys store -> uniqueKeys (finalStore (findBinaryPlacement store sponsorId)).
Proof.
  intros (H1 & H2 & H3).
  destruct (@filledIn_maps _ _
              (@bfs_filledIn MAX_VISITS (placementFuel store) store [sponsorId] [] []))
    as (E1 & E2 & E3).
  unfold uniqueKeys, findBinaryPlacement, findBinaryPlacementWith.
  now rewrite E1, E2, E3.
Qed.

Lemma register_uniqueKeys (store : Store) (body : RegisterBody) (draws : Draws) :
  uniqueKeys store -> uniqueKeys (snd (register store body draws)).
Proof.
  intros H. unfold register, registerWith.
  destruct (findByEmail store (bodyEmail body)); [exact H |].
  destruct (bodyReferralCode body) as [code |]; [| now apply insertUser_uniqueKeys].
  destruct (findByReferralCode store code) as [sponsor |]; [| exact H].
  pose proof (@search_uniqueKeys store (_id sponsor) H) as H'.
  destruct (outcome (findBinaryPlacement store (_id sponsor)));
    [now apply insertUser_uniqueKeys | exact H' | exact H'].
Qed.

(** X5 — [randomCode(length)] returns exactly [length] characters, each
    one of the 32 of the alphabet, so never one of the look-alikes 0, O,
    1, I; [Math.random()] returning numbers in [0, 1) is all it needs. *)
Theorem randomCode_stays_in_alphabet (random : nat -> Q) (len : nat) :
  (forall i, i < len -> (0 <= random i)%Q /\ (random i < 1)%Q) ->
  String.length (randomCode random len) = len /\
  (forall c, In c (list_ascii_of_string (randomCode random len)) ->
             In c (list_ascii_of_string ALPHABET)) /\
  (forall c, In c (list_ascii_of_string (randomCode random len)) ->
             ~ In c ambiguous).
Proof.
  intros Hr.
  destruct (@randomCode_from random len 0 EmptyString) as [Hlen Hchars].
  { intros i Hi. apply Hr. lia. }
  assert (Ha : forall c, In c (list_ascii_of_string (randomCode random len)) ->
                         In c (list_ascii_of_string ALPHABET)).
  { intros c Hc. destruct (Hchars c Hc) as [[] | H]. exact H. }
  split; [exact Hlen |]. split; [exact Ha |].
  intros c Hc Hamb. apply Ha in Hc. unfold ambiguous in Hamb. simpl in Hc, Hamb.
  repeat (destruct Hamb as [<- | Hamb];
          [repeat (destruct Hc as [Hc | Hc]; [discriminate Hc |]); exact Hc |]).
  exact Hamb.
Qed.

Lemma randomCode_stays_in_alphabet_witness :
  String.length (randomCode (fun i => inject_Z (Z.of_nat i) / 8)%Q 8) = 8.
Proof.
  apply (@randomCode_stays_in_alphabet (fun i => inject_Z (Z.of_nat i) / 8)%Q 8).
  intros i Hi.
  do 8 (destruct i as [| i]; [split; [discriminate | reflexivity] |]). lia.
Defined.

(** X6 — [generateUniqueReferralCode] returns the first of its ten draws
    that no user carries; every draw before it is taken.  It throws exactly
    when all ten draws are taken. *)
Theorem generated_code_is_first_free_draw (store : Store) (draws : list string) :
  (forall code,
     generateUniqueReferralCode store draws = Some code ->
     ~ taken store code /\
     exists pre post,
       firstn 10 draws = pre ++ code :: post /\
       forall c, In c pre -> taken store c) /\
  (generateUniqueReferralCode store draws = None <->
   forall c, In c (firstn 10 draws) -> taken store c).
Proof.
  unfold generateUniqueReferralCode. split.
  - intros code H. apply find_split in H.
    destruct H as (pre & post & Heq & Hfree & Hpre). split.
    + apply findByReferralCode_none.
      destruct (findByReferralCode store code); [discriminate | reflexivity].
    + exists pre, post. split; [exact Heq |]. intros c Hc. specialize (Hpre c Hc).
      destruct (findByReferralCode store c) as [u |] eqn:E; [| discriminate].
      apply find_some in E. destruct E as [Hu Hcode]. apply String.eqb_eq in Hcode.
      exists u. auto.
  - split.
    + intros H c Hc. pose proof (find_none _ _ H c Hc) as Hf. simpl in Hf.
      destruct (findByReferralCode store c) as [u |] eqn:E; [| discriminate Hf].
      apply find_some in E. destruct E as [Hu Hcode]. apply String.eqb_eq in Hcode.
      exists u. auto.
    + intros H. destruct (find _ (firstn 10 draws)) as [c |] eqn:E; [| reflexivity].
      apply find_some in E. destruct E as [Hc Hfree].
      destruct (findByReferralCode store c) eqn:En; [discriminate |].
      apply findByReferralCode_none in En. elim En. now apply H.
Qed.

Lemma register_created (store store' : Store) (body : RegisterBody) (draws : Draws)
      (u : User) :
  register store body draws = (Created u, store') ->
  exists base,
    Forall2 filledIn store base /\
    insertUser base body draws (parent u) (position u) = (Created u, store') /\
    (bodyReferralCode body = None -> base = store /\ parent u = None /\ position u = None) /\
    (forall code, bodyReferralCode body = Some code ->
       exists sponsor p pos,
         findByReferralCode store code = Some sponsor /\
         outcome (findBinaryPlacement store (_id sponsor)) = Placed p pos /\
         base = finalStore (findBinaryPlacement store (_id sponsor)) /\
         parent u = Some p /\ position u = Some pos).
Proof.
  unfold register, registerWith.
  destruct (findByEmail store (bodyEmail body)); [discriminate |].
  destruct (bodyReferralCode body) as [code |].
  - destruct (findByReferralCode store code) as [sponsor |] eqn:Ef; [| discriminate].
    destruct (outcome (findBinaryPlacement store (_id sponsor))) as [p pos | e |] eqn:Eo;
      try discriminate.
    intros H. pose proof H as H'. apply insertUser_created in H'.
    destruct H' as (_ & _ & _ & _ & Hp & Hpos & _).
    exists (finalStore (findBinaryPlacement store (_id sponsor))). split; [| split; [| split]].
    + apply bfs_filledIn.
    + now rewrite Hp, Hpos.
    + discriminate.
    + intros c Hc. injection Hc as <-. exists sponsor, p, pos. repeat split; auto.
  - intros H. pose proof H as H'. apply insertUser_created in H'.
    destruct H' as (_ & _ & _ & _ & Hp & Hpos & _).
    exists store. split; [| split; [| split]].
    + apply Forall2_refl_on, filledIn_refl.
    + now rewrite Hp, Hpos.
    + auto.
    + discriminate.
Qed.

(** X7 — a registration answered with the new user has added exactly
    that one document, at the end of the collection, and has otherwise only
    filled in positions: its id, email and referral code are carried by no
    earlier document, its code is one of the first ten draws, and without a
    referral code it is a root.  With a referral code its parent is the
    sponsor or a descendant of the sponsor, and no other document shares
    its [(parent, position)] slot. *)
Theorem created_member_joins_sponsor_subtree
        (store store' : Store) (body : RegisterBody) (draws : Draws) (u : User) :
  wellFormed store ->
  register store body draws = (Created u, store') ->
  (exists base, store' = base ++ [u] /\ Forall2 filledIn store base) /\
  (_id u = newId draws /\ email u = bodyEmail body /\ createdAt u = now draws /\
   In (referralCode u) (firstn 10 (drawnCodes draws))) /\
  (~ In (_id u) (map _id store) /\ ~ In (email u) (map email store) /\
   ~ In (referralCode u) (map referralCode store)) /\
  match bodyReferralCode body with
  | None => parent u = None /\ position u = None /\ store' = store ++ [u]
  | Some code =>
      exists sponsor p pos d,
        findByReferralCode store code = Some sponsor /\
        parent u = Some p /\ position u = Some pos /\
        descends store (_id sponsor) d p /\
        forall v, In v store' -> parent v = Some p -> position v = Some pos -> v = u
  end.
Proof.
  intros Hwf H.
  pose proof (@register_wellFormed store body draws Hwf) as Hwf'.
  rewrite H in Hwf'. simpl in Hwf'.
  destruct (register_created _ _ _ H) as (base & Hbase & Hins & Hroot & Hspons).
  apply insertUser_created in Hins.
  destruct Hins as (-> & Hid & Hmail & Ht & _ & _ & Hcode & F1 & F2 & F3).
  destruct (@filledIn_maps _ _ Hbase) as (E1 & E2 & E3).
  rewrite E1 in F1. rewrite E2 in F2. rewrite E3 in F3.
  split; [exists base; auto |]. split; [auto |]. split; [auto |].
  destruct (bodyReferralCode body) as [code |].
  - destruct (Hspons code eq_refl) as (sponsor & p & pos & Hfind & Hout & _ & Hp & Hpos).
    destruct Hwf as [Hids Hidx].
    destruct (@bfs_level store (_id sponsor) Hidx MAX_VISITS (placementFuel store)
                store [_id sponsor] [] [] Hids eq_refl (fun _ _ => eq_refl))
      with (p := p) (pos := pos) as [d [Hd _]].
    { exists 0, [_id sponsor], []. split; [reflexivity | apply levelInv_initial]. }
    { exact Hout. }
    exists sponsor, p, pos, d. repeat split; try assumption.
    intros v Hv Hvp Hvpos. destruct Hwf' as [_ Hidx'].
    apply (@index_same_document (base ++ [u]) v u p pos Hidx'); try assumption.
    apply in_or_app. right. now left.
  - destruct (Hroot eq_refl) as (-> & Hp & Hpos). auto.
Qed.

Lemma created_member_joins_sponsor_subtree_witness :
  exists u store',
    register sponsorOnly (fst (joinRequest "a@x" 2 "A" 1)) (snd (joinRequest "a@x" 2 "A" 1))
    = (Created u, store') /\
    ~ In (_id u) (map _id sponsorOnly).
Proof.
  eexists. eexists. split; [reflexivity |].
  apply (@created_member_joins_sponsor_subtree sponsorOnly _
           (fst (joinRequest "a@x" 2 "A" 1)) (snd (joinRequest "a@x" 2 "A" 1)) _
           sponsorOnly_wellFormed eq_refl).
Defined.

(** X8 — a registration that is refused adds no document: the
    collection keeps its documents in place and in number, with at most
    some missing positions filled in by the search that ran before the
    refusal.  The status is 409 exactly for an email in use and 400
    otherwise, and when no search ran (no referral code, an email in use, an
    unknown referral code) the collection is left exactly as it was. *)
Theorem rejected_registration_adds_no_document
        (store store' : Store) (body : RegisterBody) (draws : Draws)
        (status : nat) (e : RegisterError) :
  register store body draws = (Rejected status e, store') ->
  Forall2 filledIn store store' /\
  (status = 409 <-> e = EmailInUse) /\
  (status = 409 \/ status = 400) /\
  (bodyReferralCode body = None \/ e = EmailInUse \/ e = InvalidReferralCode ->
   store' = store).
Proof.
  unfold register, registerWith.
  destruct (findByEmail store (bodyEmail body)).
  { intros H. injection H as <- <- <-. repeat split; auto.
    apply Forall2_refl_on, filledIn_refl. }
  destruct (bodyReferralCode body) as [code |].
  - destruct (findByReferralCode store code) as [sponsor |].
    + pose proof (@bfs_filledIn MAX_VISITS (placementFuel store) store
                                [_id sponsor] [] []) as Hf.
      fold (findBinaryPlacementWith MAX_VISITS store (_id sponsor)) in Hf.
      fold (findBinaryPlacement store (_id sponsor)) in Hf.
      destruct (outcome (findBinaryPlacement store (_id sponsor))) as [p pos | err |].
      * intros H. apply insertUser_rejected in H. destruct H as (-> & -> & He).
        repeat split; auto; try discriminate.
        -- intros ->. destruct He as [He | [i He]]; discriminate He.
        -- intros [Hn | [-> | ->]]; [discriminate Hn | |];
             destruct He as [He | [i He]]; discriminate He.
      * intros H. injection H as <- <- <-.
        repeat split; auto; try discriminate.
        intros [Hn | [He | He]]; discriminate.
      * intros H. injection H as <- <- <-.
        repeat split; auto; try discriminate.
        intros [Hn | [He | He]]; discriminate.
    + intros H. injection H as <- <- <-.
      repeat split; auto; try discriminate. apply Forall2_refl_on, filledIn_refl.
  - intros H. apply insertUser_rejected in H. destruct H as (-> & -> & He).
    repeat split; auto; try discriminate.
    + apply Forall2_refl_on, filledIn_refl.
    + intros ->. destruct He as [He | [i He]]; discriminate He.
Qed.

Lemma rejected_registration_adds_no_document_witness :
  register sponsorOnly (mkBody "again" "root@x" None) (mkDraws 2 ["A"%string] 1)
  = (Rejected 409 EmailInUse, sponsorOnly) /\
  Forall2 filledIn sponsorOnly sponsorOnly.
Proof.
  split; [reflexivity |].
  exact (proj1 (@rejected_registration_adds_no_document
                  sponsorOnly sponsorOnly (mkBody "again" "root@x" None)
                  (mkDraws 2 ["A"%string] 1) 409 EmailInUse eq_refl)).
Defined.

Lemma registerAll_uniqueKeys (requests : list (RegisterBody * Draws)) :
  forall store, uniqueKeys store -> uniqueKeys (snd (registerAll store requests)).
Proof.
  induction requests as [| [body draws] rest IH]; intros store H; simpl; [exact H |].
  pose proof (@register_uniqueKeys store body draws H) as H1.
  destruct (register store body draws) as [r store1]. simpl in H1.
  specialize (IH store1 H1).
  destruct (registerAll store1 rest) as [rs store2]. exact IH.
Qed.

(** X9 — requests served one after the other keep the three unique keys
    of the users collection unique: no two documents share an [_id], an
    [email] or a [referralCode], however many registrations run and
    whatever they are answered. *)
Theorem registrations_keep_keys_unique
        (store : Store) (requests : list (RegisterBody * Draws)) :
  NoDup (map _id store) -> NoDup (map email store) ->
  NoDup (map referralCode store) ->
  NoDup (map _id (snd (registerAll store requests))) /\
  NoDup (map email (snd (registerAll store requests))) /\
  NoDup (map referralCode (snd (registerAll store requests))).
Proof.
  intros H1 H2 H3. apply registerAll_uniqueKeys. now repeat split.
Qed.

Lemma registrations_keep_keys_unique_witness :
  NoDup (map email (snd (registerAll sponsorOnly threeJoins))).
Proof.
  refine (proj1 (proj2 (@registrations_keep_keys_unique sponsorOnly threeJoins _ _ _)));
    repeat constructor; simpl; tauto.
Defined.

(** X10 — insert and lookup agree: once a registration has answered with
    the new user, that user is what a lookup by the registered email and a
    lookup by the new referral code return, and any later registration
    under the same email is refused with 409 and changes nothing. *)
Theorem registered_member_is_found
        (store store' : Store) (body : RegisterBody) (draws : Draws) (u : User) :
  register store body draws = (Created u, store') ->
  findByEmail store' (bodyEmail body) = Some u /\
  findByReferralCode store' (referralCode u) = Some u /\
  forall body' draws',
    bodyEmail body' = bodyEmail body ->
    register store' body' draws' = (Rejected 409 EmailInUse, store').
Proof.
  intros H. destruct (register_created _ _ _ H) as (base & _ & Hins & _).
  apply insertUser_created in Hins.
  destruct Hins as (-> & _ & Hmail & _ & _ & _ & _ & _ & F2 & F3).
  assert (Hfind : findByEmail (base ++ [u]) (bodyEmail body) = Some u).
  { unfold findByEmail. apply find_last; [| rewrite Hmail; apply String.eqb_refl].
    intros b Hb. apply String.eqb_neq. intros Heq. apply F2.
    rewrite Hmail, <- Heq. now apply in_map. }
  split; [exact Hfind |]. split.
  - unfold findByReferralCode. apply find_last; [| apply String.eqb_refl].
    intros b Hb. apply String.eqb_neq. intros Heq. apply F3.
    rewrite <- Heq. now apply in_map.
  - intros body' draws' Heq. unfold register, registerWith. now rewrite Heq, Hfind.
Qed.

Lemma registered_member_is_found_witness :
  exists u store',
    register sponsorOnly (fst (joinRequest "a@x" 2 "A" 1)) (snd (joinRequest "a@x" 2 "A" 1))
    = (Created u, store') /\
    findByEmail store' "a@x" = Some u.
Proof.
  eexists. eexists. split; [reflexivity |].
  exact (proj1 (@registered_member_is_found sponsorOnly _
                  (fst (joinRequest "a@x" 2 "A" 1)) (snd (joinRequest "a@x" 2 "A" 1))
                  _ eq_refl)).
Defined.

End RegistrationFacts.

From Stdlib Require Import Lqa.

(** ** The rule routes beyond activation
       ([app/api/admin/rules/route.ts], [app/api/admin/rules/[id]/route.ts],
       the same routes in [routes.ts]) *)
Module RulesFacts.

Import Rules.

(** A stored percentage is a fraction. *)
Definition isFraction (r : DistributionRule) : Prop :=
  (0 <= basePercentage r)%Q /\ (basePercentage r <= 1)%Q.

(** What a request that does not activate may do to a stored rule. *)
Definition untouchedUnless (i : ObjectId) (r r' : DistributionRule) : Prop :=
  r' = r \/ ruleId r = i.

Lemma parseBase_range (v w : Q) :
  parseBase v = Some w -> (0 <= w)%Q /\ (w <= 1)%Q.
Proof.
  unfold parseBase. destruct (Qle_bool 0 v); [| discriminate].
  destruct (Qle_bool 0 (if Qle_bool v 1 then v else (v / 100)%Q)) eqn:E0; simpl;
    [| discriminate].
  destruct (Qle_bool (if Qle_bool v 1 then v else (v / 100)%Q) 1) eqn:E1;
    [| discriminate].
  intros H. injection H as <-. split; now apply Qle_bool_iff.
Qed.

Lemma Qle_bool_false (x y : Q) : (y < x)%Q -> Qle_bool x y = false.
Proof.
  intros H. destruct (Qle_bool x y) eqn:E; [| reflexivity].
  apply Qle_bool_iff in E. lra.
Qed.

Lemma Qle_bool_true (x y : Q) : (x <= y)%Q -> Qle_bool x y = true.
Proof. intros H. now apply Qle_bool_iff. Qed.

Lemma deactivateAll_fractions (rules : RuleStore) :
  Forall isFraction rules -> Forall isFraction (deactivateAll rules).
Proof.
  unfold deactivateAll. induction 1 as [| r rest Hr HF IH]; simpl; constructor;
    [| exact IH].
  destruct (isActive r); exact Hr.
Qed.

Lemma update_fractions (rules : RuleStore) (id : ObjectId)
      (f : DistributionRule -> DistributionRule) :
  (forall r, isFraction r -> isFraction (f r)) ->
  Forall isFraction rules ->
  Forall isFraction (snd (findByIdAndUpdate rules id f)).
Proof.
  intros Hf. induction 1 as [| r rest Hr HF IH]; simpl; [constructor |].
  destruct (ruleId r =? id); simpl; [constructor; auto |].
  destruct (findByIdAndUpdate rest id f) as [found rest']. simpl in *.
  constructor; assumption.
Qed.

Lemma delete_fractions (rules : RuleStore) (id : ObjectId) :
  Forall isFraction rules -> Forall isFraction (snd (findByIdAndDelete rules id)).
Proof.
  induction 1 as [| r rest Hr HF IH]; simpl; [constructor |].
  destruct (ruleId r =? id); simpl; [exact HF |].
  destruct (findByIdAndDelete rest id) as [found rest']. simpl in *.
  constructor; assumption.
Qed.

Lemma applyBody_fraction (base : option Q) (body : UpdateBody) (r : DistributionRule) :
  parseUpdateBase body = Some base -> isFraction r -> isFraction (applyBody base body r).
Proof.
  unfold parseUpdateBase, isFraction, applyBody. simpl.
  destruct (updBase body) as [v |].
  - destruct (parseBase v) as [w |] eqn:E; [| discriminate].
    intros H. injection H as <-. intros _. now apply parseBase_range in E.
  - intros H. injection H as <-. tauto.
Qed.

Lemma serve_fractions (rules : RuleStore) (req : RuleRequest) :
  Forall isFraction rules -> Forall isFraction (snd (serve rules req)).
Proof.
  intros H. destruct req as [body fresh | id body | id]; simpl.
  - unfold rulesPOST. destruct (parseBase (upBase body)) as [base |] eqn:E; [| exact H].
    apply parseBase_range in E.
    assert (H1 : Forall isFraction
                   (if match upActive body with Some a => a | None => true end
                    then deactivateAll rules else rules)).
    { destruct (match upActive body with Some a => a | None => true end);
        [now apply deactivateAll_fractions | exact H]. }
    destruct (existsb _ _); simpl; [exact H1 |].
    apply Forall_app. split; [exact H1 |]. constructor; [exact E | constructor].
  - unfold rulesPUT. destruct (noFields body); [exact H |].
    destruct (parseUpdateBase body) as [base |] eqn:E; [| exact H].
    assert (H1 : Forall isFraction
                   (match updActive body with
                    | Some true => deactivateAll rules
                    | _ => rules
                    end)).
    { destruct (updActive body) as [[|] |];
        [now apply deactivateAll_fractions | exact H | exact H]. }
    destruct id as [i |]; simpl; [| exact H1].
    pose proof (@update_fractions _ i (applyBody base body)
                  (fun r => @applyBody_fraction base body r E) H1) as H2.
    destruct (findByIdAndUpdate _ i (applyBody base body)) as [[rule |] rules2];
      exact H2.
  - unfold rulesDELETE. destruct id as [i |]; [| exact H].
    pose proof (@delete_fractions rules i H) as H2.
    destruct (findByIdAndDelete rules i) as [[rule |] rules']; exact H2.
Qed.

Lemma update_untouched (rules : RuleStore) (i : ObjectId)
      (f : DistributionRule -> DistributionRule) :
  Forall2 (untouchedUnless i) rules (snd (findByIdAndUpdate rules i f)).
Proof.
  induction rules as [| r rest IH]; simpl; [constructor |].
  destruct (ruleId r =? i) eqn:E; simpl.
  - apply Nat.eqb_eq in E. constructor; [now right |].
    clear. induction rest; constructor; [now left | assumption].
  - destruct (findByIdAndUpdate rest i f) as [found rest']. simpl in *.
    constructor; [now left | exact IH].
Qed.

Lemma delete_subset (rules : RuleStore) (i : ObjectId) :
  (forall r, In r (snd (findByIdAndDelete rules i)) -> In r rules) /\
  (forall r, In r rules -> ruleId r <> i -> In r (snd (findByIdAndDelete rules i))) /\
  (fst (findByIdAndDelete rules i) = None -> snd (findByIdAndDelete rules i) = rules).
Proof.
  induction rules as [| r rest (IH1 & IH2 & IH3)]; simpl; [tauto |].
  destruct (ruleId r =? i) eqn:E; simpl.
  - apply Nat.eqb_eq in E. repeat split; [tauto | | discriminate].
    intros x [<- | Hx] Hne; [contradiction | exact Hx].
  - destruct (findByIdAndDelete rest i) as [found rest']. simpl in *.
    repeat split.
    + intros x [<- | Hx]; [now left | right; now apply IH1].
    + intros x [<- | Hx] Hne; [now left | right; now apply IH2].
    + intros Hn. now rewrite IH3.
Qed.

Lemma delete_last (rules : RuleStore) (rule : DistributionRule) :
  existsb (fun r => ruleId r =? ruleId rule) rules = false ->
  findByIdAndDelete (rules ++ [rule]) (ruleId rule) = (Some rule, rules).
Proof.
  induction rules as [| r rest IH]; simpl.
  - now rewrite Nat.eqb_refl.
  - destruct (ruleId r =? ruleId rule); simpl; [discriminate |].
    intros H. now rewrite (IH H).
Qed.

Lemma rulesDELETE_last (rules : RuleStore) (rule : DistributionRule) :
  existsb (fun r => ruleId r =? ruleId rule) rules = false ->
  rulesDELETE (rules ++ [rule]) (Some (ruleId rule)) = (Deleted, rules).
Proof. intros H. unfold rulesDELETE. now rewrite (delete_last _ _ H). Qed.

(** X11 — the [basePercentage] schema reads a number in [0, 1] as a
    fraction and a number above 1, up to 100, as a percentage; it refuses
    negative numbers and numbers above 100; whatever it accepts ends up as a
    fraction in [0, 1].  So 1 stands for 100 percent, while any number just
    above 1 stands for about one percent. *)
Theorem parseBase_reads_percent (v : Q) :
  (forall w, parseBase v = Some w -> (0 <= w)%Q /\ (w <= 1)%Q) /\
  ((0 <= v)%Q /\ (v <= 1)%Q -> parseBase v = Some v) /\
  ((1 < v)%Q /\ (v <= 100)%Q -> parseBase v = Some (v / 100)%Q) /\
  ((v < 0)%Q \/ (100 < v)%Q -> parseBase v = None).
Proof.
  split; [intros w; apply parseBase_range |]. split; [| split].
  - intros [H0 H1]. unfold parseBase.
    rewrite (Qle_bool_true H0), (Qle_bool_true H1), (Qle_bool_true H0),
      (Qle_bool_true H1). reflexivity.
  - intros [H1 H100]. unfold parseBase.
    rewrite (@Qle_bool_true 0 v) by lra. rewrite (Qle_bool_false H1).
    rewrite (@Qle_bool_true 0 (v / 100))
      by (apply Qle_shift_div_l; [reflexivity | lra]).
    rewrite (@Qle_bool_true (v / 100) 1)
      by (apply Qle_shift_div_r; [reflexivity | lra]).
    reflexivity.
  - intros [Hneg | Hbig]; unfold parseBase.
    + now rewrite (Qle_bool_false Hneg).
    + rewrite (@Qle_bool_true 0 v) by lra. rewrite (@Qle_bool_false v 1) by lra.
      rewrite (@Qle_bool_false (v / 100) 1)
        by (apply Qlt_shift_div_l; [reflexivity | lra]).
      now rewrite andb_false_r.
Qed.

(** X12 — every percentage the rule routes store is a fraction: when the
    stored rules have a [basePercentage] in [0, 1], they still have after
    any sequence of create, update and delete requests. *)
Theorem stored_percentages_are_fractions (rules : RuleStore) (reqs : list RuleRequest) :
  Forall isFraction rules -> Forall isFraction (serveAll rules reqs).
Proof.
  unfold serveAll. revert rules.
  induction reqs as [| req reqs IH]; intros rules H; simpl; [exact H |].
  apply IH. now apply serve_fractions.
Qed.

Lemma stored_percentages_are_fractions_witness :
  Forall isFraction [tenPercent] /\
  Forall isFraction (serveAll [tenPercent] [Post flatFive 2; Put (Some 1) activation]).
Proof.
  assert (H : Forall isFraction [tenPercent]).
  { constructor; [| constructor]. split; discriminate. }
  split; [exact H |].
  exact (@stored_percentages_are_fractions [tenPercent]
           [Post flatFive 2; Put (Some 1) activation] H).
Defined.

(** X13 — an update that does not carry [isActive: true] touches one
    rule at most: a rule with another id is stored as before, and a refused
    update (400 or 404) leaves the collection as it was.  A delete removes
    nothing but a rule with the given id, adds and changes nothing, and
    leaves the collection as it was when it answers anything but success. *)
Theorem update_and_delete_touch_one_rule
        (rules : RuleStore) (id : option ObjectId) (body : UpdateBody) :
  updActive body <> Some true ->
  (forall status e,
     fst (rulesPUT rules id body) = RuleFailed status e ->
     snd (rulesPUT rules id body) = rules) /\
  (forall i, id = Some i ->
     Forall2 (untouchedUnless i) rules (snd (rulesPUT rules id body))) /\
  (forall r, In r (snd (rulesDELETE rules id)) -> In r rules) /\
  (forall r i, id = Some i -> In r rules -> ruleId r <> i ->
     In r (snd (rulesDELETE rules id))) /\
  (fst (rulesDELETE rules id) <> Deleted -> snd (rulesDELETE rules id) = rules).
Proof.
  intros Hact.
  assert (Hsame : match updActive body with
                  | Some true => deactivateAll rules
                  | _ => rules
                  end = rules).
  { destruct (updActive body) as [[|] |]; [now elim Hact | reflexivity | reflexivity]. }
  assert (Hrefl : Forall2 (fun r r' : DistributionRule => r' = r) rules rules)
    by (clear; induction rules; constructor; auto).
  split; [| split; [| split; [| split]]].
  - intros status e. unfold rulesPUT.
    destruct (noFields body); [reflexivity |].
    destruct (parseUpdateBase body) as [base |]; [| reflexivity].
    rewrite Hsame. destruct id as [i |]; [| reflexivity].
    pose proof (@update_missing rules i (applyBody base body)) as Hm.
    destruct (findByIdAndUpdate rules i (applyBody base body)) as [[rule |] rules2];
      simpl in *; [discriminate | intros _; now apply Hm].
  - intros i ->. unfold rulesPUT.
    assert (Hid : Forall2 (untouchedUnless i) rules rules)
      by (clear; induction rules; constructor; [now left | assumption]).
    destruct (noFields body); [exact Hid |].
    destruct (parseUpdateBase body) as [base |]; [| exact Hid].
    rewrite Hsame.
    pose proof (@update_untouched rules i (applyBody base body)) as Hu.
    destruct (findByIdAndUpdate rules i (applyBody base body)) as [[rule |] rules2];
      exact Hu.
  - intros r. unfold rulesDELETE. destruct id as [i |]; [| tauto].
    destruct (delete_subset rules i) as (H1 & _ & _).
    destruct (findByIdAndDelete rules i) as [[rule |] rules']; apply H1.
  - intros r i ->. unfold rulesDELETE.
    destruct (delete_subset rules i) as (_ & H2 & _).
    destruct (findByIdAndDelete rules i) as [[rule |] rules']; apply H2.
  - unfold rulesDELETE. destruct id as [i |]; [| reflexivity].
    destruct (delete_subset rules i) as (_ & _ & H3).
    destruct (findByIdAndDelete rules i) as [[rule |] rules']; simpl in *;
      [intros H; now elim H | intros _; now apply H3].
Qed.

Lemma update_and_delete_touch_one_rule_witness :
  snd (rulesPUT [tenPercent] (Some 7) (mkUpdate (Some 5%Q) None None)) = [tenPercent].
Proof.
  refine (proj1 (@update_and_delete_touch_one_rule [tenPercent] (Some 7)
                   (mkUpdate (Some 5%Q) None None) _) 404 NotFound eq_refl).
  discriminate.
Defined.

(** X14 — a rule that was just created is the one a delete under its id
    removes, and the delete gives back the collection the create wrote to:
    the rules as they were for a rule created inactive, and the rules all
    switched off for a rule created active.  Deleting a rule created active
    therefore leaves no active rule; the rule that was active before is
    not switched back on. *)
Theorem create_then_delete
        (rules rules1 : RuleStore) (body : UpsertBody) (fresh : ObjectId)
        (rule : DistributionRule) :
  rulesPOST rules body fresh = (RuleOk 201 rule, rules1) ->
  ruleId rule = fresh /\
  rulesDELETE rules1 (Some fresh)
  = (Deleted, if isActive rule then deactivateAll rules else rules) /\
  (isActive rule = true -> activeRules (snd (rulesDELETE rules1 (Some fresh))) = []).
Proof.
  unfold rulesPOST. destruct (parseBase (upBase body)) as [base |]; [| discriminate].
  set (active := match upActive body with Some a => a | None => true end).
  destruct (existsb _ _) eqn:E; [discriminate |].
  intros H. injection H as <- <-. cbn [isActive ruleId].
  split; [reflexivity |].
  match goal with
  | |- ?lhs = ?rhs /\ _ => assert (Hdel : lhs = rhs)
  end.
  { exact (@rulesDELETE_last (if active then deactivateAll rules else rules)
                              (mkRule fresh base (upDecay body) active) E). }
  split; [exact Hdel |].
  intros Ha. rewrite Hdel, Ha. cbn [snd]. apply deactivateAll_none.
Qed.

Lemma create_then_delete_witness :
  activeRules (snd (rulesDELETE (snd (rulesPOST [tenPercent] flatFive 2)) (Some 2))) = [].
Proof.
  exact (proj2 (proj2 (@create_then_delete [tenPercent] _ flatFive 2 _ eq_refl)) eq_refl).
Defined.

End RulesFacts.

(** ** The admin service routes
       ([app/api/admin/services/route.ts],
       [app/api/admin/services/[id]/route.ts], the same routes in
       [routes.ts]) over the Service model, after [requireRole("admin")]
       has passed *)
Module ServiceRoutes.

Import Service.

Definition ObjectId := nat.

(** The services collection, in insertion order. *)
Definition ServiceStore := list (ObjectId * ServiceDoc).

(** A body that carries the fields of [createServiceSchema] with their
    types; an absent [status] is [None]. *)
Record CreateBody : Type := mkCreate {
  cName : string;
  cPrice : Q;
  cBusinessVolume : Q;
  cStatus : option string
}.

(** A body for [updateSchema]; every field is optional. *)
Record UpdateServiceBody : Type := mkServiceUpdate {
  uName : option string;
  uPrice : option Q;
  uBusinessVolume : option Q;
  uStatus : option string
}.

Inductive ServiceError : Type :=
| BadBody             (* zod refused the body *)
| ValidationFailed    (* the model's validators refused the document *)
| CastFailed          (* the [:id] segment is not an ObjectId *)
| NotFound            (* 404 *)
| DuplicateId.        (* E11000 on [_id] *)

Inductive ServiceResponse : Type :=
| ServiceOk (status : nat) (doc : ServiceDoc)
| ServiceFailed (status : nat) (e : ServiceError).

(** [z.enum(["active", "inactive"]).optional()]. *)
Definition statusOk (s : option string) : bool :=
  match s with
  | Some v => String.eqb v "active" || String.eqb v "inactive"
  | None => true
  end.

Definition notEmpty (s : string) : bool :=
  match s with
  | EmptyString => false
  | String _ _ => true
  end.

(** [createServiceSchema]: [name] of length at least 1, [price] and
    [businessVolume] at least 0, [status] one of the two values when it is
    present. *)
Definition createSchemaOk (b : CreateBody) : bool :=
  notEmpty (cName b) && Qle_bool 0 (cPrice b) && Qle_bool 0 (cBusinessVolume b)
  && statusOk (cStatus b).

(** The document [ServiceModel.create] is called with:
    [{ name, price, businessVolume, status: body.status ?? "active" }];
    [bv] and [isActive] are not given. *)
Definition newService (b : CreateBody) : ServiceDoc :=
  mkService (Some (cName b)) (Some (cPrice b)) (Some (cBusinessVolume b)) None
            (Some (match cStatus b with Some s => s | None => "active"%string end))
            None.

(** [POST /api/admin/services]; [fresh] is the ObjectId of the new
    document.  [ServiceModel.create] validates the document (the
    pre-validate hook, then the validators) and inserts it. *)
Definition servicesPOST (services : ServiceStore) (b : CreateBody) (fresh : ObjectId)
  : ServiceResponse * ServiceStore :=
  if createSchemaOk b then
    match validate (newService b) with
    | None => (ServiceFailed 400 ValidationFailed, services)
    | Some d =>
        if existsb (fun s => fst s =? fresh) services
        then (ServiceFailed 400 DuplicateId, services)
        else (ServiceOk 201 d, services ++ [(fresh, d)])
    end
  else (ServiceFailed 400 BadBody, services).

Definition optNonNegative (o : option Q) : bool :=
  match o with
  | Some v => Qle_bool 0 v
  | None => true
  end.

(** [updateSchema], with its [refine] that at least one key is present. *)
Definition updateSchemaOk (b : UpdateServiceBody) : bool :=
  match uName b, uPrice b, uBusinessVolume b, uStatus b with
  | None, None, None, None => false
  | _, _, _, _ =>
      match uName b with Some n => notEmpty n | None => true end
      && optNonNegative (uPrice b) && optNonNegative (uBusinessVolume b)
      && statusOk (uStatus b)
  end.

(** [$set] of the keys of the parsed body: the legacy paths [bv] and
    [isActive] are not among them. *)
Definition applyServiceBody (b : UpdateServiceBody) (d : ServiceDoc) : ServiceDoc :=
  mkService (match uName b with Some n => Some n | None => name d end)
            (match uPrice b with Some p => Some p | None => price d end)
            (match uBusinessVolume b with Some v => Some v | None => businessVolume d end)
            (bv d)
            (match uStatus b with Some s => Some s | None => status d end)
            (isActive d).

(** [ServiceModel.findByIdAndUpdate(id, body, { new: true })]: a query,
    so the document is rewritten in the collection without the
    pre-validate hook of the schema being run. *)
Fixpoint findByIdAndUpdate (services : ServiceStore) (id : ObjectId)
         (f : ServiceDoc -> ServiceDoc) : option ServiceDoc * ServiceStore :=
  match services with
  | [] => (None, [])
  | (i, d) :: rest =>
      if i =? id then (Some (f d), (i, f d) :: rest)
      else let (found, rest') := findByIdAndUpdate rest id f in (found, (i, d) :: rest')
  end.

(** [ServiceModel.findById(id)]. *)
Definition findById (services : ServiceStore) (id : ObjectId) : option ServiceDoc :=
  match find (fun s => fst s =? id) services with
  | Some (_, d) => Some d
  | None => None
  end.

(** [PUT /api/admin/services/:id]; [id = None] is an [:id] segment that
    is not an ObjectId. *)
Definition servicesPUT (services : ServiceStore) (id : option ObjectId)
           (b : UpdateServiceBody) : ServiceResponse * ServiceStore :=
  if updateSchemaOk b then
    match id with
    | None => (ServiceFailed 400 CastFailed, services)
    | Some i =>
        match findByIdAndUpdate services i (applyServiceBody b) with
        | (None, services') => (ServiceFailed 404 NotFound, services')
        | (Some d, services') => (ServiceOk 200 d, services')
        end
    end
  else (ServiceFailed 400 BadBody, services).

(** [ServiceModel.find({ status: "active" })] of the public list, before
    the sort. *)
Definition publicServices (services : ServiceStore) : ServiceStore :=
  filter (fun s => statusIsActive (status (snd s))) services.

Lemma statusOk_truthy (s : string) : statusOk (Some s) = true -> truthy (Some s) = true.
Proof.
  destruct s as [| c s]; [discriminate | reflexivity].
Qed.

Lemma findByIdAndUpdate_found (services services' : ServiceStore) (i : ObjectId)
      (f : ServiceDoc -> ServiceDoc) (d' : ServiceDoc) :
  findByIdAndUpdate services i f = (Some d', services') ->
  exists d, findById services i = Some d /\ d' = f d /\ findById services' i = Some d'.
Proof.
  unfold findById. revert services'.
  induction services as [| [j d] rest IH]; intros services'; simpl; [discriminate |].
  destruct (j =? i) eqn:E.
  - intros H. injection H as <- <-. exists d. simpl. rewrite E. auto.
  - destruct (findByIdAndUpdate rest i f) as [found rest'] eqn:Er.
    intros H. injection H as -> <-.
    destruct (IH rest' eq_refl) as (d0 & H1 & H2 & H3).
    exists d0. simpl. rewrite E. auto.
Qed.

(** X15 — the pre-validate hook is idempotent: run on its own output it
    changes nothing, so a document that passed validation validates again
    to itself. *)
Theorem syncLegacyFields_idempotent (doc : ServiceDoc) :
  syncLegacyFields (syncLegacyFields doc) = syncLegacyFields doc /\
  (forall d, validate doc = Some d -> validate d = Some d).
Proof.
  assert (H : forall x, syncLegacyFields (syncLegacyFields x) = syncLegacyFields x).
  { intros [n p [v |] [l |] [[| c s] |] [[|] |]]; reflexivity. }
  split; [apply H |].
  intros d. unfold validate.
  destruct (schemaValid (syncLegacyFields doc)) eqn:E; [| discriminate].
  intros Hd. injection Hd as <-. now rewrite H, E.
Qed.

(** X16 — a service the create route answers with is in sync: its
    legacy [bv] equals the [businessVolume] of the request and its legacy
    [isActive] is the boolean [status === "active"], with the status of
    the request or "active" when the request names none.  The route always
    sets a status, so the unsynchronised document of a null status cannot
    come from it.  The document is appended to the collection. *)
Theorem created_service_is_synced
        (services services' : ServiceStore) (b : CreateBody) (fresh : ObjectId)
        (d : ServiceDoc) :
  servicesPOST services b fresh = (ServiceOk 201 d, services') ->
  legacySynced d /\
  price d = Some (cPrice b) /\
  businessVolume d = Some (cBusinessVolume b) /\
  bv d = Some (cBusinessVolume b) /\
  status d = Some (match cStatus b with Some s => s | None => "active"%string end) /\
  (cStatus b = None -> isActive d = Some true) /\
  services' = services ++ [(fresh, d)] /\
  findById services' fresh = Some d.
Proof.
  unfold servicesPOST. destruct (createSchemaOk b) eqn:Eok; [| discriminate].
  unfold createSchemaOk in Eok. apply andb_true_iff in Eok. destruct Eok as [_ Hst].
  assert (Hsync : syncLegacyFields (newService b)
                  = mkService (Some (cName b)) (Some (cPrice b))
                              (Some (cBusinessVolume b)) (Some (cBusinessVolume b))
                              (Some (match cStatus b with
                                     | Some s => s | None => "active"%string end))
                              (Some (statusIsActive
                                       (Some (match cStatus b with
                                              | Some s => s
                                              | None => "active"%string end))))).
  { unfold newService, syncLegacyFields. cbn -[String.eqb truthy statusIsActive].
    destruct (cStatus b) as [s |].
    - now rewrite (statusOk_truthy s Hst).
    - reflexivity. }
  unfold validate. rewrite Hsync.
  destruct (schemaValid _); [| discriminate].
  destruct (existsb (fun s => fst s =? fresh) services) eqn:Efresh; [discriminate |].
  intros H. injection H as <- <-.
  unfold legacySynced. cbn -[String.eqb statusIsActive].
  repeat split.
  - intros ->. reflexivity.
  - unfold findById, ServiceStore, ObjectId in *.
    match goal with
    | |- context [find ?f (?l ++ [?a])] =>
        rewrite (@RegistrationFacts.find_last _ f l a); [reflexivity | |]
    end.
    + intros x Hx. destruct (fst x =? fresh) eqn:Ex; [| reflexivity].
      assert (Ht : existsb (fun s => fst s =? fresh) services = true)
        by (apply existsb_exists; eauto).
      congruence.
    + simpl. apply Nat.eqb_refl.
Qed.

Lemma created_service_is_synced_witness :
  exists d services',
    servicesPOST [] (mkCreate "Gold" 100%Q 40%Q None) 1 = (ServiceOk 201 d, services') /\
    legacySynced d.
Proof.
  eexists. eexists. split; [reflexivity |].
  exact (proj1 (@created_service_is_synced [] _ (mkCreate "Gold" 100%Q 40%Q None) 1 _
                  eq_refl)).
Defined.

(** X17 — an update goes to the collection as a query and does not run
    the pre-validate hook: the answered document keeps the legacy [bv] and
    [isActive] it had, whatever the body sets.  Changing [businessVolume]
    on a document that was in sync therefore leaves [bv] behind, and
    changing [status] leaves [isActive] behind; a service switched to
    "inactive" leaves the public list while its [isActive] still says
    true. *)
Theorem update_leaves_legacy_fields_behind
        (services services' : ServiceStore) (i : ObjectId) (b : UpdateServiceBody)
        (d' : ServiceDoc) :
  servicesPUT services (Some i) b = (ServiceOk 200 d', services') ->
  exists d,
    findById services i = Some d /\ findById services' i = Some d' /\
    bv d' = bv d /\ isActive d' = isActive d /\
    (forall v w, uBusinessVolume b = Some v -> bv d = Some w -> ~ (v == w)%Q ->
                 ~ legacySynced d') /\
    (forall s a, uStatus b = Some s -> isActive d = Some a ->
                 statusIsActive (Some s) <> a -> ~ legacySynced d') /\
    (uStatus b = Some "inactive"%string -> isActive d = Some true ->
     isActive d' = Some true /\ ~ In (i, d') (publicServices services')).
Proof.
  unfold servicesPUT. destruct (updateSchemaOk b); [| discriminate].
  destruct (findByIdAndUpdate services i (applyServiceBody b)) as [[found |] st] eqn:E;
    [| discriminate].
  intros H. injection H as <- <-.
  apply findByIdAndUpdate_found in E. destruct E as (d & Hd & -> & Hd').
  exists d. split; [exact Hd |]. split; [exact Hd' |].
  split; [reflexivity |]. split; [reflexivity |]. split; [| split].
  - intros v w Hv Hw Hne [Hsync _]. unfold applyServiceBody in Hsync.
    cbn [bv businessVolume] in Hsync. rewrite Hv, Hw in Hsync.
    injection Hsync as <-. apply Hne. reflexivity.
  - intros s a Hs Ha Hne [_ Hsync]. unfold applyServiceBody in Hsync.
    cbn [isActive status] in Hsync. rewrite Hs, Ha in Hsync.
    injection Hsync as ->. now apply Hne.
  - intros Hs Ha. split; [exact Ha |].
    unfold publicServices. intros Hin. apply filter_In in Hin. destruct Hin as [_ Hact].
    unfold applyServiceBody in Hact. cbn [snd status] in Hact. rewrite Hs in Hact.
    discriminate Hact.
Qed.

Lemma update_leaves_legacy_fields_behind_witness :
  exists d' services',
    servicesPUT [(1, goldSynced)] (Some 1) (mkServiceUpdate None None (Some 55%Q) None)
    = (ServiceOk 200 d', services') /\
    bv d' = Some 40%Q /\ businessVolume d' = Some 55%Q.
Proof.
  eexists. eexists. split; [reflexivity |].
  destruct (@update_leaves_legacy_fields_behind [(1, goldSynced)] _ 1
              (mkServiceUpdate None None (Some 55%Q) None) _ eq_refl)
    as (d & Hd & _ & Hbv & _).
  injection Hd as <-. split; [exact Hbv | reflexivity].
Defined.

End ServiceRoutes.

(** ** Authentication and the role gate
       ([lib/jwt.ts], [app/api/_utils.ts], [requireAuth] and [requireRole]
       in [routes.ts], the RBAC gate of [middleware.ts]) *)
Module Auth.

(** [type UserRole = "admin" | "user"]. *)
Inductive UserRole : Type := RoleAdmin | RoleUser.

Definition role_eqb (a b : UserRole) : bool :=
  match a, b with
  | RoleAdmin, RoleAdmin | RoleUser, RoleUser => true
  | _, _ => false
  end.

(** A claim of a verified token as the checks below see it: absent, a
    string, or a value of another type. *)
Inductive Claim : Type :=
| Absent
| Text (s : string)
| Other.

Record JWTPayload : Type := mkPayload {
  sub : Claim;
  role : Claim;
  email : Claim
}.

(** [AuthTokenPayload]. *)
Record AuthTokenPayload : Type := mkToken {
  tokSub : string;
  tokRole : UserRole;
  tokEmail : string
}.

(** [AuthContext]. *)
Record AuthContext : Type := mkCtx {
  userId : string;
  ctxRole : UserRole;
  ctxEmail : string
}.

Definition notEmpty (s : string) : bool :=
  match s with
  | EmptyString => false
  | String _ _ => true
  end.

(** [role === "admin" || role === "user" ? role : null]. *)
Definition parseRole (c : Claim) : option UserRole :=
  match c with
  | Text s =>
      if String.eqb s "admin" then Some RoleAdmin
      else if String.eqb s "user" then Some RoleUser
      else None
  | _ => None
  end.

(** [String.prototype.toLowerCase] on a code unit below 256, which is
    what a header value is made of: A-Z and the capital letters of
    Latin-1 (U+00C0 to U+00DE but the multiplication sign) move up by 32. *)
Definition lowerChar (c : ascii) : ascii :=
  let n := nat_of_ascii c in
  if ((65 <=? n) && (n <=? 90)) || ((192 <=? n) && (n <=? 222) && negb (n =? 215))
  then ascii_of_nat (n + 32)
  else c.

Fixpoint toLowerCase (s : string) : string :=
  match s with
  | EmptyString => EmptyString
  | String c rest => String (lowerChar c) (toLowerCase rest)
  end.

(** [header.slice(7)]. *)
Definition slice7 (s : string) : string :=
  String.substring 7 (String.length s - 7) s.

(** [getTokenFromReq]: the [token] cookie, or else the bearer token of
    the [authorization] header. *)
Definition getTokenFromReq (cookieToken authorization : option string) : option string :=
  let bearer :=
    match authorization with
    | Some header =>
        if String.prefix "bearer " (toLowerCase header) then Some (slice7 header)
        else None
    | None => None
    end in
  match cookieToken with
  | Some t => Some t
  | None => bearer
  end.

(** The [catch] of an admin route: [msg === "Forbidden" ? 403 : 400]. *)
Definition adminStatus (msg : string) : nat :=
  if String.eqb msg "Forbidden" then 403 else 400.

(** The [catch] of a user route: [msg === "Unauthorized" ? 401 : 400]. *)
Definition userStatus (msg : string) : nat :=
  if String.eqb msg "Unauthorized" then 401 else 400.

(** What the edge middleware decides for a request. *)
Inductive EdgeVerdict : Type :=
| Next
| Blocked (status : nat).

Section Verification.

(** [jwtVerify(token, secretKey)] of [jose] under the key of
    [JWT_SECRET]: the payload of a token whose signature and expiry hold,
    or the message of the error it throws. *)
Variable jwtVerify : string -> string + JWTPayload.

(** [verifyAuthToken]. *)
Definition verifyAuthToken (token : string) : string + AuthTokenPayload :=
  match jwtVerify token with
  | inl msg => inl msg
  | inr payload =>
      match sub payload with
      | Text s =>
          if notEmpty s then
            match parseRole (role payload), email payload with
            | Some r, Text e => inr (mkToken s r e)
            | _, _ => inl "Invalid token payload"%string
            end
          else inl "Invalid token subject"%string
      | _ => inl "Invalid token subject"%string
      end
  end.

(** [getAuthContext] of [_utils.ts]; [cookie] is the value of the
    [token] cookie. *)
Definition getAuthContext (cookie : option string) : option AuthContext :=
  match cookie with
  | Some token =>
      if notEmpty token then
        match verifyAuthToken token with
        | inr p => Some (mkCtx (tokSub p) (tokRole p) (tokEmail p))
        | inl _ => None
        end
      else None
  | None => None
  end.

(** [requireAuth] of [_utils.ts]. *)
Definition requireAuth (cookie : option string) : string + AuthContext :=
  match getAuthContext cookie with
  | Some ctx => inr ctx
  | None => inl "Unauthorized"%string
  end.

(** [requireRole] of [_utils.ts]. *)
Definition requireRole (r : UserRole) (cookie : option string) : string + AuthContext :=
  match requireAuth cookie with
  | inl msg => inl msg
  | inr ctx => if role_eqb (ctxRole ctx) r then inr ctx else inl "Forbidden"%string
  end.

(** [requireAuth] of [routes.ts]: an error of [verifyAuthToken] is not
    caught here. *)
Definition requireAuthExpress (cookieToken authorization : option string)
  : string + AuthContext :=
  match getTokenFromReq cookieToken authorization with
  | Some token =>
      if notEmpty token then
        match verifyAuthToken token with
        | inl msg => inl msg
        | inr p =>
            if notEmpty (tokSub p) && notEmpty (tokEmail p)
            then inr (mkCtx (tokSub p) (tokRole p) (tokEmail p))
            else inl "Unauthorized"%string
        end
      else inl "Unauthorized"%string
  | None => inl "Unauthorized"%string
  end.

(** [requireRole] of [routes.ts]. *)
Definition requireRoleExpress (r : UserRole) (cookieToken authorization : option string)
  : string + AuthContext :=
  match requireAuthExpress cookieToken authorization with
  | inl msg => inl msg
  | inr ctx => if role_eqb (ctxRole ctx) r then inr ctx else inl "Forbidden"%string
  end.

(** [verifyJwtRole] of [middleware.ts]; [secret] is
    [process.env.JWT_SECRET]. *)
Definition verifyJwtRole (secret cookie : option string) : option UserRole :=
  match cookie with
  | Some token =>
      if notEmpty token then
        match secret with
        | Some s =>
            if notEmpty s then
              match jwtVerify token with
              | inr payload => parseRole (role payload)
              | inl _ => None
              end
            else None
        | None => None
        end
      else None
  | None => None
  end.

(** The RBAC gate of [middleware]: every path under [/api/admin/] but
    the bootstrap endpoint needs an admin token. *)
Definition rbacGate (pathname : string) (secret cookie : option string) : EdgeVerdict :=
  if String.prefix "/api/admin/" pathname then
    if String.eqb pathname "/api/admin/setup" then Next
    else
      match verifyJwtRole secret cookie with
      | Some RoleAdmin => Next
      | _ => Blocked 403
      end
  else Next.

End Verification.

(** A verification that knows two tokens. *)
Definition sampleVerify (token : string) : string + JWTPayload :=
  if String.eqb token "admin-token"
  then inr (mkPayload (Text "u1") (Text "admin") (Text "root@x"))
  else if String.eqb token "user-token"
  then inr (mkPayload (Text "u2") (Text "user") (Text "a@x"))
  else inl "signature verification failed"%string.

Lemma role_eqb_true (a b : UserRole) : role_eqb a b = true <-> a = b.
Proof. destruct a, b; simpl; intuition congruence. Qed.

Lemma toLowerCase_app (a b : string) :
  toLowerCase (a ++ b) = (toLowerCase a ++ toLowerCase b)%string.
Proof. induction a as [| c a IH]; simpl; [reflexivity | now rewrite IH]. Qed.

Lemma toLowerCase_length (a : string) : String.length (toLowerCase a) = String.length a.
Proof. induction a as [| c a IH]; simpl; [reflexivity | now rewrite IH]. Qed.

Lemma prefix_app (p s : string) : String.prefix p (p ++ s) = true.
Proof.
  induction p as [| c p IH]; simpl; [now destruct s |].
  destruct (ascii_dec c c) as [_ | Hne]; [exact IH | now elim Hne].
Qed.

Lemma substring_all (s : string) : String.substring 0 (String.length s) s = s.
Proof. induction s as [| c s IH]; simpl; [reflexivity | now rewrite IH]. Qed.

Lemma substring_skip (a b : string) :
  String.substring (String.length a) (String.length b) (a ++ b) = b.
Proof. induction a as [| c a IH]; simpl; [apply substring_all | exact IH]. Qed.

Lemma string_app_length (a b : string) :
  String.length (a ++ b) = String.length a + String.length b.
Proof. induction a as [| c a IH]; simpl; [reflexivity | now rewrite IH]. Qed.

Lemma getAuthContext_some (jwtVerify : string -> string + JWTPayload)
      (cookie : option string) (ctx : AuthContext) :
  getAuthContext jwtVerify cookie = Some ctx <->
  exists token,
    cookie = Some token /\ notEmpty token = true /\
    verifyAuthToken jwtVerify token
    = inr (mkToken (userId ctx) (ctxRole ctx) (ctxEmail ctx)).
Proof.
  unfold getAuthContext. split.
  - destruct cookie as [token |]; [| discriminate].
    destruct (notEmpty token) eqn:E; [| discriminate].
    destruct (verifyAuthToken jwtVerify token) as [msg | [s r e]] eqn:Ev;
      [discriminate |].
    intros H. injection H as <-. exists token. simpl. auto.
  - intros (token & -> & Hne & Hv). rewrite Hne, Hv. now destruct ctx.
Qed.

Lemma verifyAuthToken_ok (jwtVerify : string -> string + JWTPayload)
      (token : string) (p : AuthTokenPayload) :
  verifyAuthToken jwtVerify token = inr p ->
  exists payload,
    jwtVerify token = inr payload /\ sub payload = Text (tokSub p) /\
    notEmpty (tokSub p) = true /\ parseRole (role payload) = Some (tokRole p) /\
    email payload = Text (tokEmail p).
Proof.
  unfold verifyAuthToken.
  destruct (jwtVerify token) as [msg | payload] eqn:Ej; [discriminate |].
  destruct (sub payload) as [| s |] eqn:Esub; try discriminate.
  destruct (notEmpty s) eqn:Es; [| discriminate].
  destruct (parseRole (role payload)) as [r |] eqn:Er; [| discriminate].
  destruct (email payload) as [| e |] eqn:Ee; try discriminate.
  intros H. injection H as <-. exists payload. simpl. auto.
Qed.

Lemma rbacGate_admin (jwtVerify : string -> string + JWTPayload)
      (pathname : string) (secret cookie : option string) :
  String.prefix "/api/admin/" pathname = true ->
  pathname <> "/api/admin/setup"%string ->
  rbacGate jwtVerify pathname secret cookie = Next ->
  exists token payload,
    cookie = Some token /\ jwtVerify token = inr payload /\
    role payload = Text "admin".
Proof.
  intros Hp Hne. unfold rbacGate, verifyJwtRole. rewrite Hp.
  destruct (String.eqb pathname "/api/admin/setup") eqn:E;
    [apply String.eqb_eq in E; contradiction |].
  destruct cookie as [token |]; [| discriminate].
  destruct (notEmpty token); [| discriminate].
  destruct secret as [s |]; [| discriminate].
  destruct (notEmpty s); [| discriminate].
  destruct (jwtVerify token) as [msg | payload] eqn:Ej; [discriminate |].
  destruct (parseRole (role payload)) as [[|] |] eqn:Er; try discriminate.
  intros _. exists token, payload. repeat split; try assumption.
  unfold parseRole in Er. destruct (role payload) as [| r |]; try discriminate.
  destruct (String.eqb r "admin") eqn:Es; [apply String.eqb_eq in Es; now subst |].
  destruct (String.eqb r "user"); discriminate.
Qed.

(** X18 — an admin route behind [requireRole("admin")] of [_utils.ts]
    fails with one of two messages only, and its [catch] answers 403
    exactly for a valid token of a user who is no admin.  A request without
    a token, or with a token that does not verify, is answered 400, never
    401. *)
Theorem admin_guard_statuses (jwtVerify : string -> string + JWTPayload)
        (cookie : option string) (msg : string) :
  requireRole jwtVerify RoleAdmin cookie = inl msg ->
  (msg = "Unauthorized"%string \/ msg = "Forbidden"%string) /\
  (adminStatus msg = 403 <->
   exists ctx, getAuthContext jwtVerify cookie = Some ctx /\ ctxRole ctx = RoleUser) /\
  (adminStatus msg = 400 <-> getAuthContext jwtVerify cookie = None) /\
  adminStatus msg <> 401.
Proof.
  unfold requireRole, requireAuth.
  destruct (getAuthContext jwtVerify cookie) as [ctx |].
  - destruct (ctxRole ctx) eqn:Er; simpl; [discriminate |].
    intros H. injection H as <-. repeat split; auto; try discriminate.
    intros _. exists ctx. auto.
  - intros H. injection H as <-. repeat split; auto; try discriminate.
    intros (ctx & H & _). discriminate H.
Qed.

Lemma admin_guard_statuses_witness :
  adminStatus "Unauthorized" = 400 <-> getAuthContext sampleVerify None = None.
Proof.
  exact (proj1 (proj2 (proj2 (@admin_guard_statuses sampleVerify None "Unauthorized"
                                 eq_refl)))).
Defined.

(** X19 — the edge gate is no stricter than the handlers behind it: a
    token [requireRole("admin")] accepts passes the gate of every path,
    once [JWT_SECRET] is set.  A request that passes the gate of an admin
    path other than the bootstrap endpoint carries a token that verifies
    with the role claim "admin"; the gate does not read the subject or
    the email that the handlers insist on. *)
Theorem edge_gate_admits_admins (jwtVerify : string -> string + JWTPayload)
        (pathname secret : string) (cookie : option string) :
  notEmpty secret = true ->
  (forall ctx, requireRole jwtVerify RoleAdmin cookie = inr ctx ->
               rbacGate jwtVerify pathname (Some secret) cookie = Next) /\
  (String.prefix "/api/admin/" pathname = true ->
   pathname <> "/api/admin/setup"%string ->
   rbacGate jwtVerify pathname (Some secret) cookie = Next ->
   exists token payload,
     cookie = Some token /\ jwtVerify token = inr payload /\
     role payload = Text "admin") /\
  (String.prefix "/api/admin/" pathname = false ->
   rbacGate jwtVerify pathname (Some secret) cookie = Next).
Proof.
  intros Hsecret. split; [| split].
  - intros ctx. unfold requireRole, requireAuth.
    destruct (getAuthContext jwtVerify cookie) as [c |] eqn:Eg; [| discriminate].
    destruct (role_eqb (ctxRole c) RoleAdmin) eqn:Er; [| discriminate].
    intros _. apply role_eqb_true in Er.
    apply getAuthContext_some in Eg. destruct Eg as (token & -> & Hne & Hv).
    apply verifyAuthToken_ok in Hv. destruct Hv as (payload & Hj & _ & _ & Hr & _).
    simpl in Hr. rewrite Er in Hr.
    unfold rbacGate, verifyJwtRole. rewrite Hne, Hsecret, Hj, Hr.
    destruct (String.prefix "/api/admin/" pathname); [| reflexivity].
    now destruct (String.eqb pathname "/api/admin/setup").
  - intros Hp Hne. now apply rbacGate_admin.
  - intros Hp. unfold rbacGate. now rewrite Hp.
Qed.

Lemma edge_gate_admits_admins_witness :
  rbacGate sampleVerify "/api/admin/rules" (Some "s3cret"%string)
           (Some "admin-token"%string) = Next.
Proof.
  exact (proj1 (@edge_gate_admits_admins sampleVerify "/api/admin/rules" "s3cret"
                  (Some "admin-token"%string) eq_refl)
               (mkCtx "u1" RoleAdmin "root@x") eq_refl).
Defined.

(** X20 — the two [requireAuth] agree on a cookie token up to one case:
    whoever the Express one accepts the Next.js one accepts, as the same
    caller, and the converse holds unless the email claim is the empty
    string.  They differ on failures: the Next.js one fails with
    "Unauthorized" only, while the Express one passes on the message of a
    token that does not verify, which its routes then answer with 400
    instead of 401. *)
Theorem express_and_next_agree_on_cookie_tokens
        (jwtVerify : string -> string + JWTPayload)
        (token : string) (authorization : option string) :
  (forall ctx, requireAuthExpress jwtVerify (Some token) authorization = inr ctx ->
               requireAuth jwtVerify (Some token) = inr ctx) /\
  (forall ctx, requireAuth jwtVerify (Some token) = inr ctx ->
               ctxEmail ctx <> EmptyString ->
               requireAuthExpress jwtVerify (Some token) authorization = inr ctx) /\
  (forall msg, requireAuth jwtVerify (Some token) = inl msg ->
               msg = "Unauthorized"%string /\ userStatus msg = 401) /\
  (forall msg, notEmpty token = true -> jwtVerify token = inl msg ->
               requireAuthExpress jwtVerify (Some token) authorization = inl msg).
Proof.
  unfold requireAuthExpress, requireAuth, getAuthContext, getTokenFromReq.
  split; [| split; [| split]].
  - intros ctx. destruct (notEmpty token); [| discriminate].
    destruct (verifyAuthToken jwtVerify token) as [msg | p]; [discriminate |].
    destruct (notEmpty (tokSub p) && notEmpty (tokEmail p)); [| discriminate].
    intros H. exact H.
  - intros ctx. destruct (notEmpty token); [| discriminate].
    destruct (verifyAuthToken jwtVerify token) as [msg | p] eqn:Ev; [discriminate |].
    intros H Hmail. injection H as <-. simpl in Hmail.
    apply verifyAuthToken_ok in Ev. destruct Ev as (_ & _ & _ & Hs & _).
    rewrite Hs. destruct (tokEmail p); [now elim Hmail | reflexivity].
  - intros msg. destruct (notEmpty token); [| intros H; now injection H as <-].
    destruct (verifyAuthToken jwtVerify token); [| discriminate].
    intros H. now injection H as <-.
  - intros msg Hne Hj. rewrite Hne. unfold verifyAuthToken. now rewrite Hj.
Qed.

Lemma express_and_next_agree_on_cookie_tokens_witness :
  requireAuth sampleVerify (Some "user-token"%string)
  = inr (mkCtx "u2" RoleUser "a@x").
Proof.
  exact (proj1 (@express_and_next_agree_on_cookie_tokens sampleVerify "user-token" None)
               (mkCtx "u2" RoleUser "a@x") eq_refl).
Defined.

(** X21 — [getTokenFromReq] prefers the cookie: when a [token] cookie is
    present the [authorization] header is not read, so an empty cookie
    makes the request unauthorized even beside a good bearer token.
    Without a cookie, a header made of the word "bearer" in any
    capitalisation and one space gives the text after them as the
    token, and any other header gives none. *)
Theorem token_comes_from_cookie_before_header
        (jwtVerify : string -> string + JWTPayload)
        (authorization : option string) :
  (forall t, getTokenFromReq (Some t) authorization = Some t) /\
  requireAuthExpress jwtVerify (Some EmptyString) authorization
  = inl "Unauthorized"%string /\
  (forall scheme rest,
     toLowerCase scheme = "bearer "%string ->
     getTokenFromReq None (Some (scheme ++ rest)%string) = Some rest) /\
  (forall header,
     String.prefix "bearer " (toLowerCase header) = false ->
     requireAuthExpress jwtVerify None (Some header) = inl "Unauthorized"%string) /\
  requireAuthExpress jwtVerify None None = inl "Unauthorized"%string.
Proof.
  repeat split.
  - intros scheme rest Hs. unfold getTokenFromReq.
    rewrite toLowerCase_app, Hs, prefix_app.
    assert (Hlen : String.length scheme = 7).
    { rewrite <- toLowerCase_length, Hs. reflexivity. }
    unfold slice7. rewrite string_app_length, Hlen.
    replace (7 + String.length rest - 7) with (String.length rest) by lia.
    rewrite <- Hlen. now rewrite substring_skip.
  - intros header Hp. unfold requireAuthExpress, getTokenFromReq. now rewrite Hp.
Qed.

End Auth.

(** ** The API client's URL helper ([lib/apiClient.ts]) *)
Module ApiClient.

(** [base.endsWith("/")]. *)
Fixpoint endsWithSlash (s : string) : bool :=
  match s with
  | EmptyString => false
  | String c rest =>
      match rest with
      | EmptyString => Ascii.eqb c "/"
      | String _ _ => endsWithSlash rest
      end
  end.

(** [base.slice(0, -1)]. *)
Fixpoint dropLast (s : string) : string :=
  match s with
  | EmptyString => EmptyString
  | String c rest =>
      match rest with
      | EmptyString => EmptyString
      | String _ _ => String c (dropLast rest)
      end
  end.

(** [normalizeBase]. *)
Definition normalizeBase (base : string) : string :=
  if endsWithSlash base then dropLast base else base.

(** [path.startsWith("/")]. *)
Definition startsWithSlash (path : string) : bool :=
  match path with
  | String c _ => Ascii.eqb c "/"
  | EmptyString => false
  end.

Definition notEmpty (s : string) : bool :=
  match s with
  | EmptyString => false
  | String _ _ => true
  end.

(** [path.startsWith("/") ? path : `/${path}`]. *)
Definition normalizedPath (path : string) : string :=
  if startsWithSlash path then path else String "/" path.

(** [apiUrl]; [rawBase] is [process.env.NEXT_PUBLIC_API_BASE_URL]. *)
Definition apiUrl (rawBase : option string) (path : string) : string :=
  let base :=
    match rawBase with
    | Some b => if notEmpty b then normalizeBase b else EmptyString
    | None => EmptyString
    end in
  if notEmpty base then (base ++ normalizedPath path)%string else path.

Lemma endsWithSlash_snoc (s : string) : endsWithSlash (s ++ "/") = true.
Proof.
  induction s as [| c s IH]; [reflexivity |].
  simpl. destruct (s ++ "/")%string eqn:E; [| exact IH].
  destruct s; discriminate E.
Qed.

Lemma dropLast_snoc (s : string) : dropLast (s ++ "/") = s.
Proof.
  induction s as [| c s IH]; [reflexivity |].
  simpl. destruct (s ++ "/")%string eqn:E; [destruct s; discriminate E |].
  now rewrite IH.
Qed.

Lemma normalizeBase_snoc (s : string) : normalizeBase (s ++ "/") = s.
Proof. unfold normalizeBase. now rewrite endsWithSlash_snoc, dropLast_snoc. Qed.

Lemma notEmpty_snoc (s : string) : notEmpty (s ++ "/") = true.
Proof. now destruct s. Qed.

(** X26 — [apiUrl] joins base and path with exactly one slash between
    them when the base has at most one trailing slash: a trailing slash of
    the base and a missing leading slash of the path make no difference.
    One trailing slash is all [normalizeBase] removes, so a base that ends
    in two leaves one in place.  Without a base (unset, empty, or a lone
    slash) the path is returned as it is, not even given a leading
    slash. *)
Theorem apiUrl_joins_with_one_slash (path : string) :
  (apiUrl None path = path /\ apiUrl (Some EmptyString) path = path /\
   apiUrl (Some "/"%string) path = path) /\
  (forall s, apiUrl (Some (s ++ "/")%string) path
             = if notEmpty s then (s ++ normalizedPath path)%string else path) /\
  (forall s, notEmpty s = true -> endsWithSlash s = false ->
             apiUrl (Some s) path = (s ++ normalizedPath path)%string /\
             apiUrl (Some (s ++ "/")%string) path = apiUrl (Some s) path) /\
  (startsWithSlash path = false ->
   forall base, notEmpty (normalizeBase base) = true ->
                apiUrl (Some base) (String "/" path) = apiUrl (Some base) path).
Proof.
  split; [repeat split |]. split; [| split].
  - intros s. unfold apiUrl. now rewrite notEmpty_snoc, normalizeBase_snoc.
  - intros s Hs He.
    assert (H1 : apiUrl (Some s) path = (s ++ normalizedPath path)%string).
    { unfold apiUrl, normalizeBase. now rewrite Hs, He, Hs. }
    split; [exact H1 |].
    unfold apiUrl at 1. now rewrite notEmpty_snoc, normalizeBase_snoc, Hs, H1.
  - intros Hp base Hs.
    assert (Hb : notEmpty base = true) by (destruct base; [discriminate Hs | reflexivity]).
    unfold apiUrl. rewrite Hb, Hs. unfold normalizedPath. now rewrite Hp.
Qed.

End ApiClient.

(** ** The bootstrap of the first admin
       ([app/api/admin/setup/route.ts], [app.post("/api/admin/setup")] in
       [routes.ts]) *)
Module AdminSetup.

Import Placement Registration.

(** A user document with the [role] path next to the paths placement
    reads. *)
Record Account : Type := mkAccount {
  doc : User;
  accountRole : Auth.UserRole
}.

Definition Directory := list Account.

Definition users (dir : Directory) : Store := map doc dir.

(** The body as [setupSchema] parsed it; the password goes to the hash
    only. *)
Record SetupBody : Type := mkSetup {
  setupSecret : string;
  setupName : option string;
  setupEmail : string
}.

Inductive SetupError : Type :=
| NotConfigured                 (* 500 "ADMIN_SETUP_SECRET not configured" *)
| WrongSecret                   (* 403 "Forbidden" *)
| AdminExists                   (* 409 "Admin already exists" *)
| SetupEmailInUse               (* 409 "Email already in use" *)
| NoReferralCode                (* 400 "Unable to generate unique referral code" *)
| SetupDuplicateKey (i : IndexName).

Inductive SetupResponse : Type :=
| AdminCreated (a : Account)
| SetupFailed (status : nat) (e : SetupError).

Definition isAdmin (a : Account) : bool := Auth.role_eqb (accountRole a) Auth.RoleAdmin.

(** The handler; [configured] is [env.ADMIN_SETUP_SECRET]. *)
Definition setupPOST (configured : option string) (dir : Directory)
           (body : SetupBody) (draws : Draws) : SetupResponse * Directory :=
  match configured with
  | None | Some EmptyString => (SetupFailed 500 NotConfigured, dir)
  | Some secret =>
      if negb (String.eqb (setupSecret body) secret)
      then (SetupFailed 403 WrongSecret, dir)
      else if existsb isAdmin dir then (SetupFailed 409 AdminExists, dir)
      else
        match findByEmail (users dir) (setupEmail body) with
        | Some _ => (SetupFailed 409 SetupEmailInUse, dir)
        | None =>
            match generateUniqueReferralCode (users dir) (drawnCodes draws) with
            | None => (SetupFailed 400 NoReferralCode, dir)
            | Some code =>
                let admin := mkUser (newId draws) (setupEmail body) code None None
                                    (now draws) in
                match create (users dir) admin with
                | inl i => (SetupFailed 400 (SetupDuplicateKey i), dir)
                | inr _ =>
                    (AdminCreated (mkAccount admin Auth.RoleAdmin),
                     dir ++ [mkAccount admin Auth.RoleAdmin])
                end
            end
        end
  end.

(** Requests served one after the other. *)
Definition setupAll (configured : option string) (dir : Directory)
           (requests : list (SetupBody * Draws)) : Directory :=
  fold_left (fun d r => snd (setupPOST configured d (fst r) (snd r))) requests dir.

Definition admins (dir : Directory) : list Account := filter isAdmin dir.

Lemma admins_none (dir : Directory) : existsb isAdmin dir = false -> admins dir = [].
Proof.
  unfold admins. induction dir as [| a dir IH]; simpl; [reflexivity |].
  destruct (isAdmin a); simpl; [discriminate | exact IH].
Qed.

Lemma admins_some (dir : Directory) : existsb isAdmin dir = true -> admins dir <> [].
Proof.
  unfold admins. induction dir as [| a dir IH]; simpl; [discriminate |].
  destruct (isAdmin a); simpl; [discriminate | exact IH].
Qed.

Lemma setupPOST_cases (configured : option string) (dir : Directory)
      (body : SetupBody) (draws : Draws) :
  (exists status e, setupPOST configured dir body draws = (SetupFailed status e, dir)) \/
  (exists a secret,
     setupPOST configured dir body draws = (AdminCreated a, dir ++ [a]) /\
     configured = Some secret /\ setupSecret body = secret /\
     existsb isAdmin dir = false /\ accountRole a = Auth.RoleAdmin /\
     parent (doc a) = None /\ position (doc a) = None /\
     email (doc a) = setupEmail body /\
     create (users dir) (doc a) = inr (users dir ++ [doc a])).
Proof.
  unfold setupPOST. destruct configured as [[| c s] |]; [left; eauto | | left; eauto].
  destruct (String.eqb (setupSecret body) (String c s)) eqn:Es; simpl; [| left; eauto].
  apply String.eqb_eq in Es.
  destruct (existsb isAdmin dir) eqn:Ea; [left; eauto |].
  destruct (findByEmail (users dir) (setupEmail body)); [left; eauto |].
  destruct (generateUniqueReferralCode (users dir) (drawnCodes draws)) as [code |];
    [| left; eauto].
  destruct (create (users dir) _) as [i | st] eqn:Ec; [left; eauto |].
  right. eexists. exists (String c s). repeat split; try assumption.
  simpl. pose proof Ec as Ec'. apply RegistrationFacts.create_fresh in Ec'.
  destruct Ec' as (-> & _). exact Ec.
Qed.

Lemma setupPOST_admins (configured : option string) (dir : Directory)
      (body : SetupBody) (draws : Draws) :
  length (admins dir) <= 1 ->
  length (admins (snd (setupPOST configured dir body draws))) <= 1.
Proof.
  intros H. destruct (setupPOST_cases configured dir body draws)
    as [(status & e & ->) | (a & secret & -> & _ & _ & Hnone & Hrole & _)]; [exact H |].
  simpl. unfold admins. rewrite filter_app. fold (admins dir).
  rewrite (admins_none dir Hnone). simpl. unfold isAdmin. rewrite Hrole. simpl. lia.
Qed.

(** X27 — the bootstrap endpoint makes one admin at most: served one
    after the other, setup requests never bring the number of admins above
    one, and once an admin exists every further request is refused and
    leaves the users as they are.  A request is refused with 500 while no
    secret is configured and with 403 under a wrong secret, before anything
    is read from the database.  The admin it creates is a root, without
    parent or position, so it takes no slot of the binary tree and the
    collection keeps its unique ids and its unique index. *)
Theorem setup_creates_one_admin_at_most
        (configured : option string) (dir : Directory)
        (requests : list (SetupBody * Draws)) :
  length (admins dir) <= 1 ->
  length (admins (setupAll configured dir requests)) <= 1 /\
  (forall body draws,
     admins dir <> [] ->
     exists status e,
       setupPOST configured dir body draws = (SetupFailed status e, dir)) /\
  (forall body draws,
     (configured = None \/ configured = Some EmptyString ->
      setupPOST configured dir body draws = (SetupFailed 500 NotConfigured, dir)) /\
     (forall secret, configured = Some secret -> secret <> EmptyString ->
                     setupSecret body <> secret ->
      setupPOST configured dir body draws = (SetupFailed 403 WrongSecret, dir))) /\
  (forall body draws a dir',
     setupPOST configured dir body draws = (AdminCreated a, dir') ->
     dir' = dir ++ [a] /\ accountRole a = Auth.RoleAdmin /\
     parent (doc a) = None /\ position (doc a) = None /\
     (wellFormed (users dir) -> wellFormed (users dir'))).
Proof.
  intros H. split; [| split; [| split]].
  - unfold setupAll. revert dir H.
    induction requests as [| [body draws] rest IH]; intros dir H; simpl; [exact H |].
    apply IH. now apply setupPOST_admins.
  - intros body draws Hsome.
    destruct (setupPOST_cases configured dir body draws)
      as [Hfail | (a & secret & _ & _ & _ & Hnone & _)]; [exact Hfail |].
    elim Hsome. now apply admins_none.
  - intros body draws. split.
    + intros [-> | ->]; reflexivity.
    + intros secret -> Hne Hwrong. unfold setupPOST.
      destruct secret as [| c s]; [now elim Hne |].
      apply String.eqb_neq in Hwrong. now rewrite Hwrong.
  - intros body draws a dir' Hc.
    destruct (setupPOST_cases configured dir body draws)
      as [(status & e & Hf) | (a' & secret & Ha & _ & _ & _ & Hrole & Hp & Hpos & _ & Hcr)];
      [congruence |].
    rewrite Ha in Hc. injection Hc as <- <-.
    split; [reflexivity |]. split; [exact Hrole |]. split; [exact Hp |].
    split; [exact Hpos |].
    intros Hwf. unfold users. rewrite map_app. simpl.
    eapply create_wellFormed; [exact Hwf | exact Hcr].
Qed.

Lemma setup_creates_one_admin_at_most_witness :
  length (admins (setupAll (Some "s3cret"%string) []
                    [ (mkSetup "s3cret" None "root@x", mkDraws 1 ["ROOT"%string] 0);
                      (mkSetup "s3cret" None "other@x", mkDraws 2 ["MORE"%string] 1) ]))
  <= 1.
Proof.
  refine (proj1 (@setup_creates_one_admin_at_most (Some "s3cret"%string) [] _ _)).
  simpl. lia.
Defined.

End AdminSetup.

(** ** The cached database connection ([lib/db.ts]) *)
Module Connection.

Section Connect.

Variable Conn : Type.
Variable Error : Type.

(** A settled promise of [mongoose.connect]: rejected with an error or
    resolved with the connection. *)
Definition Promise : Type := (Error + Conn)%type.

(** [global.__mongooseConn]. *)
Record Cached : Type := mkCached {
  conn : option Conn;
  promise : option Promise
}.

(** [global.__mongooseConn ?? { conn: null, promise: null }]. *)
Definition emptyCache : Cached := mkCached None None.

(** [connect k] is what the promise of the [k]-th call of
    [mongoose.connect] settles to; the state carries the cache and the
    number of calls of [mongoose.connect] made so far. *)
Variable connect : nat -> Promise.

(** [connectToDatabase], awaited to its end. *)
Definition connectToDatabase (st : Cached * nat) : Promise * (Cached * nat) :=
  match conn (fst st) with
  | Some c => (inr c, st)
  | None =>
      let started :=
        match promise (fst st) with
        | Some p => (p, snd st)
        | None => (connect (snd st), S (snd st))
        end in
      match fst started with
      | inr c => (inr c, (mkCached (Some c) (Some (fst started)), snd started))
      | inl e => (inl e, (mkCached None (Some (fst started)), snd started))
      end
  end.

(** [n] calls, each awaited before the next. *)
Fixpoint connectTimes (n : nat) (st : Cached * nat) : list Promise * (Cached * nat) :=
  match n with
  | O => ([], st)
  | S n' =>
      let (r, st1) := connectToDatabase st in
      let (rs, st2) := connectTimes n' st1 in
      (r :: rs, st2)
  end.

(** The cache once the first promise has settled to [p]. *)
Definition settled (p : Promise) : Cached :=
  mkCached (match p with inr c => Some c | inl _ => None end) (Some p).

Lemma connectToDatabase_settled (p : Promise) (calls : nat) :
  connectToDatabase (settled p, calls) = (p, (settled p, calls)).
Proof. destruct p as [e | c]; reflexivity. Qed.

Lemma connectTimes_settled (p : Promise) (calls n : nat) :
  connectTimes n (settled p, calls) = (repeat p n, (settled p, calls)).
Proof.
  induction n as [| n IH]; simpl; [reflexivity |].
  rewrite connectToDatabase_settled, IH. reflexivity.
Qed.

Lemma connectToDatabase_first :
  connectToDatabase (emptyCache, 0) = (connect 0, (settled (connect 0), 1)).
Proof. unfold connectToDatabase. simpl. destruct (connect 0); reflexivity. Qed.

End Connect.

(** X28 — however often [connectToDatabase] is called, one call after
    the other, [mongoose.connect] is called once: every call returns what
    that one connection attempt settled to.  When the attempt succeeded
    every call returns the same connection; when it failed every later
    call fails with the same error, the rejected promise staying in the
    cache, and no new attempt is made. *)
Theorem connection_is_attempted_once
        (Conn Error : Type) (connect : nat -> Promise Conn Error) (n : nat) :
  fst (connectTimes connect (S n) (emptyCache Conn Error, 0))
  = repeat (connect 0) (S n) /\
  snd (snd (connectTimes connect (S n) (emptyCache Conn Error, 0))) = 1 /\
  (forall e, connect 0 = inl e ->
     forall m, fst (connectTimes connect m
                      (snd (connectTimes connect (S n) (emptyCache Conn Error, 0))))
               = repeat (inl e) m).
Proof.
  assert (H : connectTimes connect (S n) (emptyCache Conn Error, 0)
              = (repeat (connect 0) (S n), (settled (connect 0), 1))).
  { cbn [connectTimes]. rewrite connectToDatabase_first, connectTimes_settled.
    reflexivity. }
  rewrite H. cbn [fst snd]. repeat split.
  intros e He m. rewrite connectTimes_settled. cbn [fst]. now rewrite He.
Qed.

End Connection.

(** ** The depth of the referrals view
       ([app.get("/api/referrals")] in [routes.ts],
       [app/api/referrals/route.ts]) *)
Module Referrals.







End Referrals.

(** ** Login ([app/api/auth/login/route.ts],
       [app.post("/api/auth/login")] in [routes.ts]) *)
Module Login.

(** The fields of a user document the login handler reads. *)
Record Member : Type := mkMember {
  memberId : nat;
  memberName : string;
  memberEmail : string;
  memberRole : Auth.UserRole;
  memberCode : string;
  memberParent : option nat;
  passwordHash : string
}.

Inductive LoginResponse : Type :=
| LoggedIn (token : string) (user : Member)      (* 200 and the cookie *)
| LoginFailed (status : nat) (error : string).

Definition DUMMY_PASSWORD_HASH : string :=
  "$2b$12$npwxPAElS4BfdU.iS5LIFuqi0v31VhieuIsoP1t9cMORH152MK/3i".

Section Handler.

(** [verifyPassword], that is [bcrypt.compare], and [signAuthToken]. *)
Variable verifyPassword : string -> string -> bool.
Variable signAuthToken : Auth.AuthTokenPayload -> string.

(** [UserModel.findOne({ email })]; the handler passes the email in
    lower case. *)
Definition findOneByEmail (users : list Member) (e : string) : option Member :=
  find (fun u => String.eqb (memberEmail u) e) users.

(** [String(user._id)] is left to the caller of this model. *)
Variable idText : nat -> string.

(** The handler past the schema.  Next to the response it returns the
    calls of [verifyPassword] it made, as pairs of plain text and hash. *)
Definition login (users : list Member) (e password : string)
  : LoginResponse * list (string * string) :=
  match findOneByEmail users e with
  | None =>
      let _ := verifyPassword password DUMMY_PASSWORD_HASH in
      (LoginFailed 401 "Invalid credentials", [(password, DUMMY_PASSWORD_HASH)])
  | Some user =>
      if verifyPassword password (passwordHash user)
      then (LoggedIn (signAuthToken
                        (Auth.mkToken (idText (memberId user)) (memberRole user)
                                      (memberEmail user)))
                     user,
            [(password, passwordHash user)])
      else (LoginFailed 401 "Invalid credentials", [(password, passwordHash user)])
  end.

End Handler.

(** X30 — every login attempt costs one password comparison, against
    the user's hash or, for an unknown email, against the dummy hash, and
    an unknown email is answered exactly as a wrong password is: 401
    "Invalid credentials".  The outcome of the dummy comparison is thrown
    away, so a password that matches the dummy hash logs nobody in.  A
    login that succeeds is for the first user stored under that email,
    whose hash the password matches, and the token is signed for that
    user's id, role and email. *)
Theorem login_compares_once
        (verifyPassword : string -> string -> bool)
        (signAuthToken : Auth.AuthTokenPayload -> string) (idText : nat -> string)
        (users : list Member) (e password : string) :
  (exists hash,
     snd (login verifyPassword signAuthToken idText users e password)
     = [(password, hash)]) /\
  (findOneByEmail users e = None ->
   login verifyPassword signAuthToken idText users e password
   = (LoginFailed 401 "Invalid credentials", [(password, DUMMY_PASSWORD_HASH)])) /\
  (forall user,
     findOneByEmail users e = Some user ->
     verifyPassword password (passwordHash user) = false ->
     fst (login verifyPassword signAuthToken idText users e password)
     = LoginFailed 401 "Invalid credentials") /\
  (forall token user,
     fst (login verifyPassword signAuthToken idText users e password)
     = LoggedIn token user ->
     findOneByEmail users e = Some user /\ memberEmail user = e /\
     verifyPassword password (passwordHash user) = true /\
     token = signAuthToken (Auth.mkToken (idText (memberId user)) (memberRole user)
                                         (memberEmail user))) /\
  (forall status error,
     fst (login verifyPassword signAuthToken idText users e password)
     = LoginFailed status error ->
     status = 401 /\ error = "Invalid credentials"%string).
Proof.
  unfold login. destruct (findOneByEmail users e) as [user |] eqn:Ef.
  - assert (Hmail : memberEmail user = e).
    { unfold findOneByEmail in Ef. apply find_some in Ef. destruct Ef as [_ He].
      now apply String.eqb_eq in He. }
    destruct (verifyPassword password (passwordHash user)) eqn:Ev; simpl.
    + split; [eauto |]. split; [discriminate |]. split; [| split].
      * intros u Hu Hfalse. injection Hu as <-. congruence.
      * intros token u Hin. injection Hin as <- <-. auto.
      * discriminate.
    + split; [eauto |]. split; [discriminate |]. split; [| split].
      * reflexivity.
      * discriminate.
      * intros status error Hf. injection Hf as <- <-. auto.
  - simpl. split; [eauto |]. split; [reflexivity |]. split; [| split].
    + discriminate.
    + discriminate.
    + intros status error Hf. injection Hf as <- <-. auto.
Qed.

End Login.

From stdpp Require Import gmap strings.

(** ** Rate limiting and the middleware stack
       ([app/api/_middleware.ts], [middleware.ts]) *)
Module RateLimit.

(** [RateLimitEntry]; counts and millisecond clocks are integers. *)
Record RateLimitEntry : Type := mkEntry {
  count : Z;
  resetAt : Z
}.

(** [RateLimitOptions]. *)
Record RateLimitOptions : Type := mkOptions {
  keyPrefix : string;
  windowMs : Z;
  max : Z
}.

Inductive Verdict : Type :=
| Pass
| TooManyRequests (retryAfterSeconds : Z).

(** [Math.max(1, Math.ceil((resetAt - now) / 1000))]. *)
Definition retryAfter (reset now : Z) : Z :=
  Z.max 1 ((reset - now + 999) / 1000).

(** [`${options.keyPrefix}:${ip}`]. *)
Definition limitKey (options : RateLimitOptions) (ip : string) : string :=
  String.append (keyPrefix options) (String.append ":" ip).

(** The body of [withRateLimit] up to the call of the handler, on the
    process-wide [Map]; [now] is [Date.now()] and [ip] what [getClientIp]
    returned. *)
Definition rateLimit (options : RateLimitOptions) (ip : string) (now : Z)
           (store : gmap string RateLimitEntry)
  : Verdict * gmap string RateLimitEntry :=
  let key := limitKey options ip in
  match store !! key with
  | Some existing =>
      if (resetAt existing <=? now)%Z
      then (Pass, <[key := mkEntry 1 (now + windowMs options)]> store)
      else
        let bumped := mkEntry (count existing + 1) (resetAt existing) in
        let store' := <[key := bumped]> store in
        if (max options <? count bumped)%Z
        then (TooManyRequests (retryAfter (resetAt existing) now), store')
        else (Pass, store')
  | None => (Pass, <[key := mkEntry 1 (now + windowMs options)]> store)
  end.

(** Requests of one client, at the given times, one after the other. *)
Fixpoint rateLimitAll (options : RateLimitOptions) (ip : string) (times : list Z)
         (store : gmap string RateLimitEntry)
  : list Verdict * gmap string RateLimitEntry :=
  match times with
  | [] => ([], store)
  | t :: rest =>
      let (v, store1) := rateLimit options ip t store in
      let (vs, store2) := rateLimitAll options ip rest store1 in
      (v :: vs, store2)
  end.

(** What a window that ends at [reset] and has counted [seen] requests
    answers to the requests that follow inside it. *)
Fixpoint windowVerdicts (limit reset seen : Z) (times : list Z) : list Verdict :=
  match times with
  | [] => []
  | t :: rest =>
      (if (limit <? seen + 1)%Z then TooManyRequests (retryAfter reset t) else Pass)
        :: windowVerdicts limit reset (seen + 1) rest
  end.

Definition isPass (v : Verdict) : bool :=
  match v with
  | Pass => true
  | TooManyRequests _ => false
  end.

(** The edge middleware keeps two budgets per client: 20 requests a
    minute for [/api/auth/], 120 for the rest of [/api/]. *)
Definition edgeOptions (pathname : string) : RateLimitOptions :=
  if String.prefix "/api/auth/" pathname
  then mkOptions "auth" 60000 20
  else mkOptions "api" 60000 120.

Inductive EdgeResponse : Type :=
| EdgeNext
| EdgeTooMany (retryAfterSeconds : Z)
| EdgeForbidden.

(** [middleware] of [middleware.ts]: the rate limit, then the RBAC
    gate. *)
Definition middleware (jwtVerify : string -> string + Auth.JWTPayload)
           (secret : option string) (pathname ip : string) (cookie : option string)
           (now : Z) (store : gmap string RateLimitEntry)
  : EdgeResponse * gmap string RateLimitEntry :=
  match rateLimit (edgeOptions pathname) ip now store with
  | (TooManyRequests r, store') => (EdgeTooMany r, store')
  | (Pass, store') =>
      match Auth.rbacGate jwtVerify pathname secret cookie with
      | Auth.Next => (EdgeNext, store')
      | Auth.Blocked _ => (EdgeForbidden, store')
      end
  end.

Section Stack.

(** The state behind the handlers and the parsed request body. *)
Variable DB : Type.
Variable Json : Type.
Variable Body : Type.
Variable Answer : Type.

Variable jwtVerify : string -> string + Auth.JWTPayload.

(** What the wrappers read of a request. *)
Record Request : Type := mkRequest {
  reqIp : string;
  reqNow : Z;
  reqCookie : option string;
  reqJson : option Json          (* [None]: [req.json()] throws *)
}.

(** [MiddlewareCtx], but for [params] and [query]. *)
Record MiddlewareCtx : Type := mkMiddlewareCtx {
  auth : option Auth.AuthContext;
  body : option Body
}.

Inductive Outcome : Type :=
| Answered (a : Answer)
| Refused (status : nat) (error : string)
| Limited (retryAfterSeconds : Z)            (* 429 "Too Many Requests" *)
| Raised (msg : string).                     (* the error left the handler *)

Definition World : Type := gmap string RateLimitEntry * DB.

Definition ApiHandler : Type := Request -> MiddlewareCtx -> World -> Outcome * World.

(** [withAuth]. *)
Definition withAuth (handler : ApiHandler) : ApiHandler :=
  fun req ctx w =>
    match Auth.requireAuth jwtVerify (reqCookie req) with
    | inl msg => (Raised msg, w)
    | inr a => handler req (mkMiddlewareCtx (Some a) (body ctx)) w
    end.

(** [withRateLimit]. *)
Definition withRateLimit (options : RateLimitOptions) (handler : ApiHandler)
  : ApiHandler :=
  fun req ctx w =>
    match rateLimit options (reqIp req) (reqNow req) (fst w) with
    | (TooManyRequests r, store') => (Limited r, (store', snd w))
    | (Pass, store') => handler req ctx (store', snd w)
    end.

(** [withValidatedBody]; [schema] is [schema.safeParse]. *)
Definition withValidatedBody (schema : Json -> option Body) (handler : ApiHandler)
  : ApiHandler :=
  fun req ctx w =>
    match reqJson req with
    | None => (Refused 400 "Invalid JSON body", w)
    | Some j =>
        match schema j with
        | None => (Refused 400 "Invalid request", w)
        | Some b => handler req (mkMiddlewareCtx (auth ctx) (Some b)) w
        end
    end.

(** The stack of [composedPOST] in [app/api/purchases/route.ts]. *)
Definition composed (options : RateLimitOptions) (schema : Json -> option Body)
           (handler : ApiHandler) : ApiHandler :=
  withRateLimit options (withAuth (withValidatedBody schema handler)).

End Stack.

Lemma limitKey_inj (options : RateLimitOptions) (ip ip' : string) :
  limitKey options ip = limitKey options ip' -> ip = ip'.
Proof.
  unfold limitKey. generalize (keyPrefix options). intros p.
  induction p as [| c p IH]; simpl; intros H; [now injection H | injection H; auto].
Qed.

Lemma rateLimit_other_key (options : RateLimitOptions) (ip : string) (now : Z)
      (store : gmap string RateLimitEntry) (key : string) :
  key <> limitKey options ip ->
  snd (rateLimit options ip now store) !! key = store !! key.
Proof.
  intros Hne. unfold rateLimit.
  destruct (store !! limitKey options ip) as [e |].
  - destruct (resetAt e <=? now)%Z; simpl; [now rewrite lookup_insert_ne |].
    destruct (max options <? count e + 1)%Z; simpl; now rewrite lookup_insert_ne.
  - simpl. now rewrite lookup_insert_ne.
Qed.

Lemma rateLimit_own_entry (options : RateLimitOptions) (ip : string) (now : Z)
      (s1 s2 : gmap string RateLimitEntry) :
  s1 !! limitKey options ip = s2 !! limitKey options ip ->
  fst (rateLimit options ip now s1) = fst (rateLimit options ip now s2) /\
  snd (rateLimit options ip now s1) !! limitKey options ip
  = snd (rateLimit options ip now s2) !! limitKey options ip.
Proof.
  intros H. unfold rateLimit. rewrite H.
  destruct (s2 !! limitKey options ip) as [e |].
  - destruct (resetAt e <=? now)%Z; simpl; [now rewrite !lookup_insert_eq |].
    destruct (max options <? count e + 1)%Z; simpl; now rewrite !lookup_insert_eq.
  - simpl. now rewrite !lookup_insert_eq.
Qed.

Lemma inside_window (options : RateLimitOptions) (ip : string) (reset : Z)
      (times : list Z) :
  forall seen store,
    store !! limitKey options ip = Some (mkEntry seen reset) ->
    (forall t, In t times -> (t < reset)%Z) ->
    fst (rateLimitAll options ip times store)
    = windowVerdicts (max options) reset seen times.
Proof.
  induction times as [| t rest IH]; intros seen store Hs Hin; simpl; [reflexivity |].
  unfold rateLimit. rewrite Hs. simpl.
  assert (Ht : (reset <=? t)%Z = false) by (apply Z.leb_gt, Hin; now left).
  rewrite Ht.
  set (store' := <[limitKey options ip := mkEntry (seen + 1) reset]> store).
  assert (Hs' : store' !! limitKey options ip = Some (mkEntry (seen + 1) reset))
    by apply lookup_insert_eq.
  specialize (IH (seen + 1)%Z store' Hs' (fun x Hx => Hin x (or_intror Hx))).
  destruct (max options <? seen + 1)%Z;
    destruct (rateLimitAll options ip rest store') as [vs s2]; simpl in *;
    now rewrite IH.
Qed.

Lemma windowVerdicts_passes (limit reset : Z) (times : list Z) :
  forall seen, (0 <= seen)%Z ->
    (Z.of_nat (length (List.filter isPass (windowVerdicts limit reset seen times)))
     <= Z.max 0 (limit - seen))%Z.
Proof.
  induction times as [| t rest IH]; intros seen Hseen; simpl; [lia |].
  specialize (IH (seen + 1)%Z ltac:(lia)).
  destruct (limit <? seen + 1)%Z eqn:E; simpl.
  - apply Z.ltb_lt in E. lia.
  - apply Z.ltb_ge in E. lia.
Qed.

Lemma windowVerdicts_nth (limit reset : Z) (times : list Z) :
  forall seen i t,
    nth_error times i = Some t ->
    nth_error (windowVerdicts limit reset seen times) i
    = Some (if (limit <? seen + 1 + Z.of_nat i)%Z
            then TooManyRequests (retryAfter reset t) else Pass).
Proof.
  induction times as [| x rest IH]; intros seen i t; [now destruct i |].
  destruct i as [| i]; simpl.
  - intros H. injection H as ->. now rewrite Z.add_0_r.
  - intros H. rewrite (IH (seen + 1)%Z i t H).
    replace (seen + 1 + 1 + Z.of_nat i)%Z with (seen + 1 + Z.pos (Pos.of_succ_nat i))%Z
      by lia.
    reflexivity.
Qed.

(** X22 — a client that starts a window (it has no entry, or its entry
    has run out) is let through, and of the requests it sends before the
    window ends the [n]-th one of the window is let through exactly when
    [n <= max]: at most [max] requests of a window reach the handler, and
    one when [max] is below 1, the first request being let through
    unchecked.  A refused request is told to retry after the whole seconds
    left of the window, at least 1. *)
Theorem window_admits_at_most_max
        (options : RateLimitOptions) (ip : string) (t0 : Z) (rest : list Z)
        (store : gmap string RateLimitEntry) :
  match store !! limitKey options ip with
  | Some e => (resetAt e <= t0)%Z
  | None => True
  end ->
  (forall t, In t rest -> (t < t0 + windowMs options)%Z) ->
  fst (rateLimitAll options ip (t0 :: rest) store)
  = Pass :: windowVerdicts (max options) (t0 + windowMs options) 1 rest /\
  (forall i t,
     nth_error rest i = Some t ->
     nth_error (fst (rateLimitAll options ip (t0 :: rest) store)) (S i)
     = Some (if (max options <? Z.of_nat i + 2)%Z
             then TooManyRequests (retryAfter (t0 + windowMs options) t)
             else Pass)) /\
  (Z.of_nat (length (List.filter isPass
                       (fst (rateLimitAll options ip (t0 :: rest) store))))
   <= Z.max 1 (max options))%Z /\
  (forall t, (t0 <= t)%Z ->
     (1 <= retryAfter (t0 + windowMs options) t
      <= Z.max 1 ((windowMs options + 999) / 1000))%Z).
Proof.
  intros Hstart Hin.
  set (store1 := <[limitKey options ip := mkEntry 1 (t0 + windowMs options)]> store).
  assert (Hfirst : rateLimit options ip t0 store = (Pass, store1)).
  { unfold rateLimit. destruct (store !! limitKey options ip) as [e |]; [| reflexivity].
    apply Z.leb_le in Hstart. now rewrite Hstart. }
  assert (Hs1 : store1 !! limitKey options ip = Some (mkEntry 1 (t0 + windowMs options)))
    by apply lookup_insert_eq.
  pose proof (@inside_window options ip (t0 + windowMs options)%Z rest 1%Z store1 Hs1 Hin)
    as Hw.
  assert (Hall : fst (rateLimitAll options ip (t0 :: rest) store)
                 = Pass :: windowVerdicts (max options) (t0 + windowMs options) 1 rest).
  { simpl. rewrite Hfirst.
    destruct (rateLimitAll options ip rest store1) as [vs s2]. simpl in *. now rewrite Hw. }
  split; [exact Hall |]. split; [| split].
  - intros i t Hi. rewrite Hall. simpl.
    rewrite (@windowVerdicts_nth (max options) (t0 + windowMs options)%Z rest 1%Z i t Hi).
    replace (1 + 1 + Z.of_nat i)%Z with (Z.of_nat i + 2)%Z by lia. reflexivity.
  - rewrite Hall. simpl.
    pose proof (@windowVerdicts_passes (max options) (t0 + windowMs options)%Z rest 1%Z
                  ltac:(lia)) as Hp.
    lia.
  - intros t Ht. unfold retryAfter. split; [lia |].
    apply Z.max_le_compat_l. apply Z.div_le_mono; lia.
Qed.

Lemma window_admits_at_most_max_witness :
  fst (rateLimitAll (mkOptions "auth:login" 60000 2) "10.0.0.7" [0; 10; 20; 59999]%Z ∅)
  = [Pass; Pass; TooManyRequests 60; TooManyRequests 1].
Proof.
  refine (proj1 (@window_admits_at_most_max (mkOptions "auth:login" 60000 2) "10.0.0.7"
                   0%Z [10; 20; 59999]%Z ∅ _ _)).
  - rewrite lookup_empty. exact I.
  - simpl. intros t [<- | [<- | [<- | []]]]; reflexivity.
Defined.

(** X23 — clients are limited one by one: under the same options two
    addresses never share a key, so a request of another client leaves this
    client's entry as it was and this client's next verdict is what it
    would have been without it. *)
Theorem other_clients_do_not_interfere
        (options : RateLimitOptions) (ip ip' : string) (now now' : Z)
        (store : gmap string RateLimitEntry) :
  ip' <> ip ->
  limitKey options ip' <> limitKey options ip /\
  snd (rateLimit options ip' now' store) !! limitKey options ip
  = store !! limitKey options ip /\
  fst (rateLimit options ip now (snd (rateLimit options ip' now' store)))
  = fst (rateLimit options ip now store).
Proof.
  intros Hne.
  assert (Hk : limitKey options ip <> limitKey options ip').
  { intros H. apply Hne. symmetry. now apply (@limitKey_inj options). }
  pose proof (@rateLimit_other_key options ip' now' store (limitKey options ip) Hk) as Ho.
  split; [congruence |]. split; [exact Ho |].
  now apply rateLimit_own_entry.
Qed.

Lemma other_clients_do_not_interfere_witness :
  fst (rateLimit (mkOptions "api" 60000 120) "10.0.0.7" 5
         (snd (rateLimit (mkOptions "api" 60000 120) "10.0.0.8" 3 ∅)))
  = fst (rateLimit (mkOptions "api" 60000 120) "10.0.0.7" 5 ∅).
Proof.
  refine (proj2 (proj2 (@other_clients_do_not_interfere (mkOptions "api" 60000 120)
                          "10.0.0.7" "10.0.0.8" 5 3 ∅ _))).
  discriminate.
Defined.

(** X24 — the layers of [composedPOST] run in the order they are
    stacked, and each one that stops a request stops it before the handler
    and the database: a client over its limit is answered 429 whatever its
    token is; within the limit, a request without a valid token makes
    [requireAuth] throw "Unauthorized", which no layer catches; with a
    valid token, a body that is no JSON or does not fit the schema is
    answered 400.  In each of these cases the request has been counted and
    the state behind the handler is untouched; otherwise the handler runs
    with the verified caller and the parsed body in its context. *)
Theorem stack_stops_before_handler
        (DB Json Body Answer : Type) (jwtVerify : string -> string + Auth.JWTPayload)
        (options : RateLimitOptions) (schema : Json -> option Body)
        (handler : ApiHandler DB Json Body Answer)
        (req : Request Json) (ctx : MiddlewareCtx Body) (w : World DB) :
  let verdict := rateLimit options (reqIp req) (reqNow req) (fst w) in
  let counted := (snd verdict, snd w) in
  (forall r, fst verdict = TooManyRequests r ->
     composed jwtVerify options schema handler req ctx w = (Limited Answer r, counted)) /\
  (fst verdict = Pass ->
   (forall msg, Auth.requireAuth jwtVerify (reqCookie req) = inl msg ->
      msg = "Unauthorized"%string /\
      composed jwtVerify options schema handler req ctx w = (Raised Answer msg, counted)) /\
   (forall a, Auth.requireAuth jwtVerify (reqCookie req) = inr a ->
      (reqJson req = None ->
       composed jwtVerify options schema handler req ctx w
       = (Refused Answer 400 "Invalid JSON body", counted)) /\
      (forall j, reqJson req = Some j -> schema j = None ->
         composed jwtVerify options schema handler req ctx w
         = (Refused Answer 400 "Invalid request", counted)) /\
      (forall j b, reqJson req = Some j -> schema j = Some b ->
         composed jwtVerify options schema handler req ctx w
         = handler req (mkMiddlewareCtx (Some a) (Some b)) counted))).
Proof.
  intros verdict counted. unfold composed, withRateLimit, withAuth, withValidatedBody.
  subst counted verdict.
  destruct (rateLimit options (reqIp req) (reqNow req) (fst w)) as [v store'].
  simpl. split.
  - intros r ->. reflexivity.
  - intros ->. split.
    + intros msg Hmsg. rewrite Hmsg. split; [| reflexivity].
      unfold Auth.requireAuth in Hmsg.
      destruct (Auth.getAuthContext jwtVerify (reqCookie req)); [discriminate |].
      now injection Hmsg as <-.
    + intros a Ha. rewrite Ha. split; [| split].
      * intros ->. reflexivity.
      * intros j -> ->. reflexivity.
      * intros j b -> ->. reflexivity.
Qed.

(** X25 — the edge middleware counts every request to [/api/] before
    it looks at the token: it answers 429 exactly when the limiter refuses,
    and the store it leaves is the limiter's whatever the gate decides.
    The budget of [/api/auth/] and the budget of the other paths are kept
    under different keys for every pair of addresses.  A request it lets
    through to an admin path other than the bootstrap endpoint carries a
    token that verifies with the role claim "admin". *)
Theorem edge_counts_then_gates
        (jwtVerify : string -> string + Auth.JWTPayload) (secret : option string)
        (pathname ip : string) (cookie : option string) (now : Z)
        (store : gmap string RateLimitEntry) :
  (forall r,
     fst (middleware jwtVerify secret pathname ip cookie now store) = EdgeTooMany r <->
     fst (rateLimit (edgeOptions pathname) ip now store) = TooManyRequests r) /\
  snd (middleware jwtVerify secret pathname ip cookie now store)
  = snd (rateLimit (edgeOptions pathname) ip now store) /\
  (forall pathname' ip',
     String.prefix "/api/auth/" pathname = true ->
     String.prefix "/api/auth/" pathname' = false ->
     limitKey (edgeOptions pathname) ip <> limitKey (edgeOptions pathname') ip') /\
  (fst (middleware jwtVerify secret pathname ip cookie now store) = EdgeNext ->
   String.prefix "/api/admin/" pathname = true ->
   pathname <> "/api/admin/setup"%string ->
   exists token payload,
     cookie = Some token /\ jwtVerify token = inr payload /\
     Auth.role payload = Auth.Text "admin").
Proof.
  unfold middleware.
  destruct (rateLimit (edgeOptions pathname) ip now store) as [[| r0] store'] eqn:Er;
    simpl.
  - destruct (Auth.rbacGate jwtVerify pathname secret cookie) as [| st] eqn:Eg; simpl.
    + repeat split; try discriminate.
      * intros pathname' ip' Hp Hp'. unfold edgeOptions, limitKey. rewrite Hp, Hp'.
        simpl. discriminate.
      * intros _ Hp Hne. eapply Auth.rbacGate_admin; eassumption.
    + repeat split; try discriminate.
      intros pathname' ip' Hp Hp'. unfold edgeOptions, limitKey. rewrite Hp, Hp'.
      simpl. discriminate.
  - repeat split; try discriminate; try congruence.
    intros pathname' ip' Hp Hp'. unfold edgeOptions, limitKey. rewrite Hp, Hp'.
    simpl. discriminate.
Qed.

End RateLimit.
